(* ===== verification/_CoqProject ===== *)
-Q . S2P
Prelude.v
Node.v
Tree.v
Repr.v
IntrusiveSet.v
SetErase.v
SetMove.v
SetInterface.v
Bimap.v
BimapErase.v
BimapCopy.v
BimapAlloc.v
BimapProps.v
BimapMachine.v
BimapSpec.v
