(* ===== verification/Prelude.v ===== *)
(** * A verification development for flarembo/bimap

    The repository is a header-only C++ library of two files:

    - [src/intrusive_set.h]: [intrusive::node<Tag>], a linkable node with
      [parent]/[left]/[right] pointers and the rewiring primitive
      [node::set_child]; and [intrusive::intrusive_set], an unbalanced
      binary search tree over such nodes, anchored at an external sentinel
      node whose [left] pointer is the root and which doubles as [end()].
      The set owns no memory: [insert] links a node in, [erase] unlinks it
      and hands it back, [find]/[lower_bound]/[upper_bound] search it by the
      key a [Getter] reads out of the enclosing object, and the iterator
      walks it with parent pointers only.
    - [src/bimap.h]: [bimap<Left, Right>], which allocates one
      [storage_node] per pair; the record inherits a left-tagged and a
      right-tagged node, so that the same record is a member of two
      intrusive sets at once, one ordered by the left key and one by the
      right key.  [flip] turns a left iterator into a right one by a cast
      between the two bases of the same record.

    ** Layout of the development

    The files are listed in dependency order in [_CoqProject].

    - [Prelude] (this file): the comparison class [Compare] (the
      [Compare] template parameter, with the laws of a strict weak order
      that [std::less] satisfies) and its instances for [Z] and [string];
      [less]/[greater]/[equals] as [intrusive_set] defines them; a small
      state/error monad [st] with its notation in [st_scope]; sortedness
      lemmas; the hint databases [bimap] and [bimap_st] and the tactics
      the other files share ([st_seq], [st_step], [decide_by_compute]).
    - [Node]: [intrusive::node].  Pointers are locations ([loc], a
      [positive]); a node is the record [node] of its three pointer
      fields; the memory of all nodes of one tag is a [heap]
      ([gmap loc node]).  A dereference of a dangling or null pointer is
      undefined behaviour and is modelled as failure ([None]).  Holds the
      field reads and writes and [set_child], with its specification.
    - [Tree]: the abstract binary tree ([tree], with a location and a key
      at each node), its in-order sequence [elements], the search-tree
      invariant [bst], the functional counterparts of the set's algorithms
      ([ins], [bound_tree]), the ordered-set specification on sequences
      ([insert_before], [lb_list], [ub_list], [find_list]), and zipper
      contexts ([frame], [plug]) that locate a subtree and the sequence
      around it.
    - [Repr]: the representation predicate [rep] relating a heap to an
      abstract tree (child pointers, parent back pointers, keys), its frame
      lemmas, the replacement of a subtree inside a context, and the
      well-formedness [wf] of a set rooted at a sentinel.
    - [IntrusiveSet]: [intrusive_set]'s operations on the heap, in
      [Module intrusive_set] (exported, so that [intrusive_set.insert]
      and [bimap]'s own [insert] keep the source's name), written as
      the code writes them ([add_to_tree], [insert], [bound_impl],
      [lower_bound], [upper_bound], [find], [begin], [end_], the iterator's
      [incr]/[decr] through [advance], its postfix forms
      [incr_post]/[decr_post] and its comparisons [iter_eq]/[iter_neq],
      [erase] with its parts
      [detach_pred], [adopt_right], [clear_links], and [swap],
      [move_construct] and [move_assign]); the theorems that search, insertion and iteration
      compute the ordered-set answer on a well-formed set.
    - [SetErase]: [erase] keeps the set well formed and removes exactly
      the node from the in-order sequence (the erased node's subtree is
      replaced inside its zipper context).
    - [SetMove]: [swap] of two sets sharing one node memory exchanges
      their trees; the move constructor writes through a null pointer,
      and the move assignment fails with it.
    - [SetInterface]: the interface between the two components, the
      class [OrderedSet] of the set operations [bimap] calls and the laws
      it relies on (the ordered-set answers on the in-order sequence, the
      effect of [insert] and [erase] on it, the frame of the heap
      effects); [intrusive_set_ordered] is its instance, each law
      discharged by a theorem of [IntrusiveSet], [SetErase] or [Repr].
    - [Bimap]: [bimap]'s state (the records, the two node heaps and the
      64-bit [m_size]) and all its operations as the code composes them
      from the two sets, taken as [OrderedSet]s (every file from here on
      is proved against the class, its concrete runs use the instance) (the iterator comparisons [it_eq]/[it_neq] that
      its tests and loops use, [insert], [find_*], [at_*], [erase_*] by
      iterator, key and range, [at_*_or_default], the destructor
      [destroy], the copy constructor [copy_construct], [swap] as its
      three statements ([swap_left_sets], [swap_right_sets],
      [swap_sizes], composed in [bimap_swap]), [assign], [bimap_eq] and
      [bimap_neq]); the container invariant [bimap_inv]; the theorems of
      insertion and lookup; the specification's scenarios.
    - [BimapErase]: erasure, [at_*_or_default] and the destructor keep
      the invariant and remove exactly the intended records.
    - [BimapCopy]: the content of a container, [left_pairs] (its records
      in left order); the copy constructor rebuilds it, [operator==]
      decides element-wise equivalence of two contents, [operator=] swaps a copy in and destroys the old
      contents.
    - [BimapAlloc]: allocation failure.  [new storage_node] may throw
      [std::bad_alloc]; the exception-state monad [xst] runs the
      allocating operations ([xinsert], the copy loop [xcopy_loop],
      [xassign], [xat_left_or_default]) over the container and the
      allocator's outcomes, keeping the effects made before a throw.
    - [BimapProps]: properties of whole client runs from the
      specification: inserts of distinct keys are all accepted and found,
      an insert undone by [erase_left] restores the content and the size
      (round trip), the copy constructor equals inserting the source's
      pairs in left order ([insert_all]).
    - [BimapMachine]: the container as a state machine: [op] lists the
      calls a client makes, [run_op] runs one, [step] is the transition
      relation and [reachable] its closure from [bimap()]; invariant,
      absence of undefined behaviour and liveness of reachable states.
    - [BimapSpec]: the abstract specification of the container, a list
      of pairs in left order with one abstract operation per call
      ([a_op]) and the abstract lookups [a_at_left]/[a_at_right]; the
      refinement theorems that the code implements it, call by call
      ([run_op_refines]) and for whole client programs
      ([client_run_refines], with [run_ops] and [a_run]).

    ** What the theorems show

    - Refinement of the pointer code by the sequence specification: on a
      well-formed set, [find], [lower_bound], [upper_bound], [begin],
      [incr] and [decr] return the answer read off the in-order sequence;
      [insert] and [erase] preserve [wf] and insert into / remove from the
      sorted sequence, changing no node outside the set.
    - The container invariant (both trees well formed, both holding
      exactly the live records, [m_size] equal to their number and below
      [2^64]) is established by the constructor and preserved by every
      mutator, with the functional result of each one on every branch
      (hit, miss, rejected insert, exception of [at_*]).
    - Copy, assignment and equality are proved against [left_pairs].
    - By rule induction on [reachable]: every container reachable by any
      sequence of calls satisfies the invariant, and no call on it has
      undefined behaviour ([reachable_inv], [reachable_no_ub]).  Calls
      that may allocate are taken while [m_size + 1 < 2^64]: a 64-bit
      address space cannot hold more records, and beyond that [m_size]
      would wrap.
    - Refinement of the whole container: under the abstraction function
      [left_pairs], every call commutes with its abstract operation, the
      lookups return the abstract answers, and every client program of
      fewer than [2^64 - 1] calls from [bimap()] runs to the content its
      abstract program computes.  The bound is the counting argument of
      [room]: each call adds at most one record.
    - Liveness ([reachable_restart]): from every reachable container the
      client can clear it in one call and then store any pair, after
      which both lookups find it; no reachable state is stuck.
    - A round trip ([insert_erase_roundtrip]) and an equivalence of the copy loop with
      a sequence of inserts ([copy_construct_insert_all]).
    - Exception safety ([BimapAlloc]): [insert] gives the strong
      guarantee ([insert_strong_guarantee]); the copy constructor leaks
      the records it copied when an allocation throws
      ([copy_construct_leaks], a defect of the code), while [operator=]
      keeps this container as it was; [at_left_or_default] gives only
      the basic guarantee, losing the pair of the default value
      ([at_left_or_default_basic_guarantee]).
    - [move_construct_null_deref] shows the move constructor of
      [intrusive_set] has undefined behaviour on every input, and the
      move assignment on every input but a self-move.

    ** Modelling choices

    - The loops and recursions that follow pointers ([add_to_tree],
      [bound_impl], the [while] loops of [begin] and of the iterator) carry
      fuel.  The entry points take the fuel [S (size h)] from the heap they
      run on; every node of the tree is in the heap, so the height of the
      tree is below the fuel, and the theorems show that this fuel is
      enough: on a well-formed set every operation returns [Some].  The
      container loops (range erase, copy, [operator==]) take [S] of the
      number of records, one round per record plus the final test.
    - Comparators are the instance of [Compare] for the key type: a
      stateless [std::less].  Copying or swapping a comparator object is
      therefore not observable and is not modelled.
    - Allocation ([new storage_node]) picks [fresh] of the locations in
      use, which stdpp proves unused; [delete] removes the record and its
      two nodes.  Outside [BimapAlloc] every allocation succeeds; there,
      the outcome of each allocation is given by a list of booleans
      consumed in order (every allocation past its end succeeds), so a
      theorem can place the failure at any allocation.  Iterators are locations; the end iterator is the
      sentinel's location; [flip] is the identity on the record's location.
    - Each container has node memories of its own; [intrusive_set::swap]
      is modelled on one shared memory, where its pointer work happens
      ([SetMove], [swap_correct]).  [bimap::swap] is its three statements
      on the two container states, each [intrusive_set::swap] taken as
      the exchange of one side's trees with their node memories (and, for
      the left sets, the records that hang off them, so that between the
      two statements each container's right tree reaches the other's
      records, as in the code).  This step is an abstraction: the
      development does not show that the pointer code of
      [intrusive_set::swap] performs it on the containers' memories, so
      [operator=], which goes through [swap], is proved against it.  [operator=] takes [&other == this] as a
      parameter.

    ** Not modelled

    - [bimap] has no move operations (a move is a copy); the move
      operations of [intrusive_set] are modelled ([move_construct],
      [move_assign]) and shown to fail.
    - The declarations that carry no behaviour: the iterator traits and
      type aliases, the tag structs, the default constructors of the
      iterators, [intrusive_set]'s constructor from a sentinel (the set
      is its sentinel's location here), its defaulted destructor and its
      deleted copy operations.
    - [at_right_or_default] under allocation failure: it is the mirror
      image of [at_left_or_default] (modelled in [BimapAlloc]) and loses
      the pair of the default left value the same way.
    - The [Getter] and [storage_node] layout casts are modelled by reading
      the record's key at the node's location.
    - Exceptions thrown by the comparators or by copying keys outside
      [new storage_node]: [std::less] on [int] and [std::string] does not
      throw, and the keys are only copied into a new record.
*)

From stdpp Require Export base list options gmap strings.
From Stdlib Require Export ZArith Sorting.Sorted.
From Stdlib Require Ascii String.

Abbreviation loc := positive.

#[export] Set Default Proof Using "Type".

(** ** Comparison: the [Compare] template parameter *)

(** [Compare::operator()]: the comparison object of [intrusive_set] and of
    [bimap] ([CompareLeft], [CompareRight]), with the laws the C++ standard
    requires of it: a strict weak order. *)
Class Compare (K : Type) := {
  cmp : K -> K -> bool;
  cmp_irrefl : forall a, cmp a a = false;
  cmp_trans : forall a b c, cmp a b = true -> cmp b c = true -> cmp a c = true;
  cmp_neg_trans : forall a b c, cmp a b = false -> cmp b c = false -> cmp a c = false
}.

Section Order.
Context {K : Type} `{Compare K}.

(** [intrusive_set::less], [greater] and [equals]. *)
Definition less (a b : K) : bool := cmp a b.
Definition greater (a b : K) : bool := cmp b a.
Definition equals (a b : K) : bool := negb (greater a b || less a b).

Lemma less_irrefl a : less a a = false.
Proof. apply cmp_irrefl. Qed.

Lemma less_trans a b c : less a b = true -> less b c = true -> less a c = true.
Proof. apply cmp_trans. Qed.

Lemma less_asym a b : less a b = true -> less b a = false.
Proof.
  intros Hab. destruct (less b a) eqn:Hba; [|done].
  pose proof (less_trans _ _ _ Hab Hba) as Haa. by rewrite less_irrefl in Haa.
Qed.

Lemma not_less_trans a b c : less a b = false -> less b c = false -> less a c = false.
Proof. apply cmp_neg_trans. Qed.

(** If [a < c] then every [b] is above [a] or below [c]. *)
Lemma less_split a b c : less a c = true -> less a b = true \/ less b c = true.
Proof.
  intros Hac. destruct (less a b) eqn:Hab; [by left|].
  destruct (less b c) eqn:Hbc; [by right|].
  by rewrite (not_less_trans _ _ _ Hab Hbc) in Hac.
Qed.

Lemma less_not_less_trans a b c : less a b = true -> less c b = false -> less a c = true.
Proof.
  intros Hab Hcb. destruct (less_split _ c _ Hab) as [|Hcb']; [done|congruence].
Qed.

Lemma not_less_less_trans a b c : less b a = false -> less b c = true -> less a c = true.
Proof.
  intros Hba Hbc. destruct (less_split _ a _ Hbc) as [|]; [congruence|done].
Qed.

Lemma equals_spec a b : equals a b = true <-> less a b = false /\ less b a = false.
Proof.
  unfold equals, greater, less.
  destruct (cmp a b), (cmp b a); simpl; intuition congruence.
Qed.

Lemma equals_refl a : equals a a = true.
Proof. apply equals_spec. by rewrite less_irrefl. Qed.

Lemma equals_sym a b : equals a b = equals b a.
Proof. unfold equals, greater, less. by destruct (cmp a b), (cmp b a). Qed.

Lemma equals_trans a b c : equals a b = true -> equals b c = true -> equals a c = true.
Proof.
  rewrite !equals_spec. intros [Hab Hba] [Hbc Hcb].
  split; eapply not_less_trans; eauto.
Qed.

Lemma equals_less a b : equals a b = false -> less a b = true \/ less b a = true.
Proof.
  unfold equals, greater, less. destruct (cmp a b), (cmp b a); simpl; auto.
Qed.

(** The test [comp(a, b) || comp(b, a)] of [operator==] is [!equals(a, b)]. *)
Lemma less_or_less a b : less a b || less b a = negb (equals a b).
Proof. unfold equals, greater, less. by destruct (cmp a b), (cmp b a). Qed.
End Order.

Create HintDb bimap discriminated.
#[export] Hint Resolve less_irrefl less_asym less_trans equals_refl : bimap.

(** [std::less<int>]. *)
#[export] Program Instance Z_compare : Compare Z := {| cmp := Z.ltb |}.
Solve All Obligations with intros *; rewrite ?Z.ltb_lt, ?Z.ltb_ge; lia.


Lemma ascii_compare_trans a b c o :
  o <> Eq -> Ascii.compare a b = o -> Ascii.compare b c = o -> Ascii.compare a c = o.
Proof.
  unfold Ascii.compare. intros Ho H1 H2.
  destruct o; [congruence| |]; rewrite ?N.compare_lt_iff, ?N.compare_gt_iff in *; lia.
Qed.

Lemma ascii_compare_refl a : Ascii.compare a a = Eq.
Proof. apply N.compare_refl. Qed.

Lemma string_compare_trans a b c o :
  o <> Eq -> String.compare a b = o -> String.compare b c = o -> String.compare a c = o.
Proof.
  revert b c. induction a as [|x a IH]; intros [|y b] [|z c] Ho; simpl; try congruence.
  destruct (Ascii.compare x y) eqn:Hxy, (Ascii.compare y z) eqn:Hyz; intros H1 H2.
  all: try (apply Ascii.compare_eq_iff in Hxy; subst y).
  all: try (apply Ascii.compare_eq_iff in Hyz; subst z).
  all: rewrite ?ascii_compare_refl, ?Hxy, ?Hyz; eauto; try congruence.
  all: subst o; by erewrite ascii_compare_trans by eauto.
Qed.

Lemma string_compare_refl a : String.compare a a = Eq.
Proof. induction a; simpl; by rewrite ?ascii_compare_refl. Qed.

Lemma string_ltb_false a b : String.ltb a b = false <-> String.compare b a <> Gt.
Proof.
  unfold String.ltb. rewrite String.compare_antisym.
  destruct (String.compare b a); simpl; intuition congruence.
Qed.

(** [std::less<std::string>]: lexicographic, by unsigned character code
    ([char_traits<char>::lt]). *)
#[export] Program Instance string_compare : Compare string := {| cmp := String.ltb |}.
Next Obligation.
  intros a. apply string_ltb_false. by rewrite string_compare_refl.
Qed.
Next Obligation.
  unfold String.ltb. intros a b c.
  destruct (String.compare a b) eqn:Hab, (String.compare b c) eqn:Hbc; try done.
  by rewrite (string_compare_trans a b c Lt).
Qed.
Next Obligation.
  intros a b c. rewrite !string_ltb_false. intros Hba Hcb Hca.
    destruct (String.compare c b) eqn:Hcb', (String.compare b a) eqn:Hba'; try done;
      repeat match goal with
      | H : String.compare _ _ = Eq |- _ => apply String.compare_eq_iff in H; subst
      end; rewrite ?string_compare_refl in Hca; try congruence.
    by rewrite (string_compare_trans c b a Lt) in Hca.
Qed.

(** ** A state monad with failure

    [st S A] threads a state [S]; [None] is undefined behaviour (a null or
    dangling dereference) or exhausted fuel. *)
Definition st (S A : Type) : Type := S -> option (A * S).

Definition st_ret {S A} (a : A) : st S A := fun s => Some (a, s).
Definition st_fail {S A} : st S A := fun _ => None.
Definition st_bind {S A B} (m : st S A) (k : A -> st S B) : st S B :=
  fun s => match m s with Some (a, s') => k a s' | None => None end.
Definition st_get {S} : st S S := fun s => Some (s, s).
Definition st_put {S} (s : S) : st S unit := fun _ => Some (tt, s).
(** A read-only computation ([const] member function) inside [st]. *)
Definition st_lift {S A} (m : S -> option A) : st S A :=
  fun s => match m s with Some a => Some (a, s) | None => None end.

Declare Scope st_scope.
Delimit Scope st_scope with st.
Notation "x <- m ;; k" := (st_bind m (fun x => k))
  (at level 100, m at next level, right associativity) : st_scope.
Notation "m ;;; k" := (st_bind m (fun _ => k))
  (at level 100, right associativity) : st_scope.

Lemma st_bind_Some {S A B} (m : st S A) (k : A -> st S B) s a s' :
  m s = Some (a, s') -> st_bind m k s = k a s'.
Proof. unfold st_bind. by intros ->. Qed.

Lemma st_ret_Some {S A} (a : A) (s : S) : st_ret a s = Some (a, s).
Proof. done. Qed.

(** A step whose result is discarded. *)
Lemma st_then_tt {S A} (m : st S A) s r s' :
  m s = Some (r, s') -> st_bind m (fun _ => st_ret tt) s = Some (tt, s').
Proof. unfold st_bind. by intros ->. Qed.

Lemma st_lift_Some {S A} (m : S -> option A) s a :
  m s = Some a -> st_lift m s = Some (a, s).
Proof. unfold st_lift. by intros ->. Qed.

Lemma st_bind_assoc {S A B C} (m : st S A) (k : A -> st S B) (k' : B -> st S C) s :
  st_bind (st_bind m k) k' s = st_bind m (fun a => st_bind (k a) k') s.
Proof. unfold st_bind. by destruct (m s) as [[a s']|]. Qed.

Create Rewrite HintDb bimap_st.
#[export] Hint Rewrite @st_bind_Some @st_lift_Some using eassumption : bimap_st.

(** ** Strictly sorted lists *)

Section Sorted.
Context {A : Type} (R : A -> A -> Prop).

Lemma StronglySorted_app (l1 l2 : list A) :
  StronglySorted R (l1 ++ l2) <->
  StronglySorted R l1 /\ StronglySorted R l2 /\
  (forall a b, a ∈ l1 -> b ∈ l2 -> R a b).
Proof.
  induction l1 as [|x l1 IH]; simpl.
  - split; [intros; repeat split; [constructor|done|set_solver] | tauto].
  - split.
    + intros [Hs Hf]%StronglySorted_inv. apply IH in Hs as (H1 & H2 & H3).
      rewrite Forall_app in Hf. destruct Hf as [Hf1 Hf2].
      repeat split; [by constructor|done|].
      intros a b [->|Ha]%elem_of_cons Hb; [|by auto].
      by eapply Forall_forall in Hf2.
    + intros ([Hs1 Hf1]%StronglySorted_inv & H2 & H3). constructor.
      * apply IH. repeat split; [done|done|]. intros; apply H3; [by right|done].
      * apply Forall_app. split; [done|]. apply Forall_forall.
        intros b Hb. apply H3; [by left|done].
Qed.

Lemma StronglySorted_middle (l1 l2 : list A) x :
  StronglySorted R (l1 ++ x :: l2) ->
  (forall a, a ∈ l1 -> R a x) /\ (forall b, b ∈ l2 -> R x b).
Proof.
  intros (_ & [_ Hf]%StronglySorted_inv & H)%StronglySorted_app. split.
  - intros a Ha. apply H; [done|by left].
  - intros b Hb. by eapply Forall_forall in Hf.
Qed.
Lemma StronglySorted_remove (l1 l2 : list A) x :
  StronglySorted R (l1 ++ x :: l2) -> StronglySorted R (l1 ++ l2).
Proof.
  intros (H1 & [H2 _]%StronglySorted_inv & H)%StronglySorted_app.
  apply StronglySorted_app. split_and!; [done|done|]. intros a b Ha Hb. apply H; [done|by right].
Qed.

(** Two lists strictly sorted by an asymmetric relation, with the same
    elements, are equal. *)
Lemma StronglySorted_eq (l1 l2 : list A) :
  (forall a b, R a b -> R b a -> False) ->
  StronglySorted R l1 -> StronglySorted R l2 -> (forall a, a ∈ l1 <-> a ∈ l2) -> l1 = l2.
Proof.
  intros Hasym. revert l2. induction l1 as [|a l1 IH]; intros [|b l2] Hs1 Hs2 Hel.
  - done.
  - exfalso. apply (not_elem_of_nil b), Hel. by left.
  - exfalso. apply (not_elem_of_nil a), Hel. by left.
  - apply StronglySorted_inv in Hs1 as [Hs1 Hf1]. apply StronglySorted_inv in Hs2 as [Hs2 Hf2].
    rewrite Forall_forall in Hf1, Hf2.
    assert (a = b) as <-.
    { pose proof (proj1 (Hel a) (list_elem_of_here _ _)) as [|Ha]%elem_of_cons; [done|].
      pose proof (proj2 (Hel b) (list_elem_of_here _ _)) as [|Hb]%elem_of_cons; [done|].
      exfalso. apply (Hasym a b); auto. }
    f_equal. apply IH; [done|done|]. intros c. split; intros Hc.
    + pose proof (proj1 (Hel c) (list_elem_of_further _ _ _ Hc)) as [->|]%elem_of_cons; [|done].
      exfalso. apply (Hasym a a); auto.
    + pose proof (proj2 (Hel c) (list_elem_of_further _ _ _ Hc)) as [->|]%elem_of_cons; [|done].
      exfalso. apply (Hasym a a); auto.
Qed.
End Sorted.

(** A list whose first components are distinct splits in one way only
    around an entry with a given first component. *)
Lemma NoDup_fst_split {A B} (l1 l2 l1' l2' : list (A * B)) x k k' :
  NoDup (l1 ++ (x, k) :: l2).*1 -> l1 ++ (x, k) :: l2 = l1' ++ (x, k') :: l2' ->
  l1 = l1' /\ k = k' /\ l2 = l2'.
Proof.
  assert (forall l l' (b : B), x ∉ (l ++ (x, b) :: l').*1 -> False) as Hin.
  { intros l l' b Hx. apply Hx, list_elem_of_fmap. exists (x, b).
    split; [done|]. apply elem_of_app. right. by left. }
  revert l1'. induction l1 as [|a l1 IH]; intros [|a' l1'] Hnd Heq; simpl in *.
  - by injection Heq as -> ->.
  - injection Heq as <- ->. apply NoDup_cons in Hnd as [Hnd _]. by apply Hin in Hnd.
  - injection Heq as -> Heq. apply NoDup_cons in Hnd as [Hnd _]. by apply Hin in Hnd.
  - injection Heq as -> Heq. apply NoDup_cons in Hnd as [_ Hnd].
    destruct (IH l1' Hnd Heq) as (-> & -> & ->). done.
Qed.

(** Membership after removing that entry. *)
Lemma elem_of_fst_remove {A B} (l1 l2 : list (A * B)) x k y :
  NoDup (l1 ++ (x, k) :: l2).*1 ->
  y ∈ (l1 ++ l2).*1 <-> y ∈ (l1 ++ (x, k) :: l2).*1 /\ y <> x.
Proof.
  rewrite !fmap_app, !NoDup_app, !elem_of_app. simpl. rewrite NoDup_cons.
  intros (_ & Hdis & [Hx _]). rewrite elem_of_cons. split.
  - intros [Hy|Hy]; (split; [tauto|intros ->]).
    + apply (Hdis x Hy). by left.
    + done.
  - intros [[Hy|[->|Hy]] Hne]; tauto.
Qed.

(** Distinct keys that are all bound in a map are at most as many as its
    entries. *)
Lemma NoDup_lookup_length {A} (m : gmap loc A) (ys : list loc) :
  NoDup ys -> (forall y, y ∈ ys -> is_Some (m !! y)) -> length ys <= size m.
Proof.
  intros Hnd Hin. rewrite <-length_map_to_list, <-(length_fmap fst (map_to_list m)).
  apply submseteq_length, NoDup_submseteq; [done|].
  intros y Hy. destruct (Hin y Hy) as [n Hn].
  apply list_elem_of_fmap. exists (y, n). split; [done|]. by apply elem_of_map_to_list.
Qed.

(** ** Shared tactics *)

(** Turn a goal about [st_bind] on a computation whose result is known into
    the goal about its continuation. *)
Ltac st_step := repeat (autorewrite with bimap_st; simpl).

(** Run the first computation of a sequence, whose result is [H]. *)
Ltac st_seq H := rewrite ?st_bind_assoc; rewrite (st_bind_Some _ _ _ _ _ H); cbv beta.

(** Close a decidable goal on concrete data by evaluating its decision. *)
Ltac decide_by_compute :=
  match goal with |- ?P => apply (bool_decide_unpack P); vm_compute; exact I end.

