(* ===== verification/Node.v ===== *)
(** * Linkable node: [intrusive::node] (src/intrusive_set.h, lines 22-57)

    A node is the record of its three pointer fields; the memory holding
    all nodes of one tag is a [heap] from locations to nodes.  Reading or
    writing through a null or dangling pointer fails ([None]): the code's
    undefined behaviour.  [dir] names a child slot, so that the mirror-image
    code ([operator++]/[operator--], [left]/[right]) shares one definition
    parametrised by the side. *)

From S2P Require Import Prelude.

Open Scope st_scope.

(** [node<Tag>]: [parent], [left], [right], all [nullptr] by default. *)
Record node := mk_node {
  parent : option loc;
  lchild : option loc;
  rchild : option loc
}.

Definition null_node : node := mk_node None None None.

#[export] Instance node_eq_dec : EqDecision node.
Proof. solve_decision. Qed.

(** The memory of the nodes of one tag. *)
Abbreviation heap := (gmap loc node).

(** A child slot. *)
Inductive dir := DL | DR.

#[export] Instance dir_eq_dec : EqDecision dir.
Proof. solve_decision. Qed.

Definition opp (d : dir) : dir := match d with DL => DR | DR => DL end.

Definition child (d : dir) (n : node) : option loc :=
  match d with DL => lchild n | DR => rchild n end.

Definition with_child (d : dir) (v : option loc) (n : node) : node :=
  match d with
  | DL => mk_node (parent n) v (rchild n)
  | DR => mk_node (parent n) (lchild n) v
  end.

Definition with_parent (v : option loc) (n : node) : node :=
  mk_node v (lchild n) (rchild n).

(** ** Memory access *)

(** [*p] for a non-null [p]. *)
Definition load (l : loc) : st heap node := st_lift (fun h => h !! l).

(** [p->left = v] / [p->right = v]. *)
Definition store_child (d : dir) (l : loc) (v : option loc) : st heap unit :=
  fun h => n ← h !! l; Some (tt, <[l := with_child d v n]> h).

(** [p->parent = v]. *)
Definition store_parent (l : loc) (v : option loc) : st heap unit :=
  fun h => n ← h !! l; Some (tt, <[l := with_parent v n]> h).

(** [p->parent] for a possibly null [p]. *)
Definition load_parent (p : option loc) : st heap (option loc) :=
  match p with Some l => n <- load l ;; st_ret (parent n) | None => st_fail end.

(** [*p] for a possibly null [p]. *)
Definition deref (p : option loc) : st heap node :=
  match p with Some l => load l | None => st_fail end.

(** [p->left = v] / [p->right = v] for a possibly null [p]. *)
Definition store_child_at (d : dir) (p : option loc) (v : option loc) : st heap unit :=
  match p with Some l => store_child d l v | None => st_fail end.

(** [static void set_child(node* old_node, node* new_node)]: put [new_node]
    in the slot of [old_node]'s parent that holds [old_node] (the left one
    if it holds it, the right one otherwise), and point [new_node] back to
    that parent. *)
Definition set_child (old_node : loc) (new_node : option loc) : st heap unit :=
  o <- load old_node ;;
  match parent o with
  | None => st_fail
  | Some p =>
      pn <- load p ;;
      (if bool_decide (lchild pn = Some old_node)
       then store_child DL p new_node
       else store_child DR p new_node) ;;;
      match new_node with
      | Some n => store_parent n (Some p)
      | None => st_ret tt
      end
  end.

(** ** Lemmas on memory access *)

Lemma child_with_child d v n : child d (with_child d v n) = v.
Proof. by destruct d. Qed.

Lemma child_with_child_opp d v n : child (opp d) (with_child d v n) = child (opp d) n.
Proof. by destruct d. Qed.

Lemma parent_with_child d v n : parent (with_child d v n) = parent n.
Proof. by destruct d. Qed.

Lemma child_with_parent d v n : child d (with_parent v n) = child d n.
Proof. by destruct d. Qed.

Lemma opp_involutive d : opp (opp d) = d.
Proof. by destruct d. Qed.

Lemma load_Some h l n : h !! l = Some n -> load l h = Some (n, h).
Proof. unfold load, st_lift. by intros ->. Qed.

Lemma store_child_Some d h l v n :
  h !! l = Some n -> store_child d l v h = Some (tt, <[l := with_child d v n]> h).
Proof. unfold store_child. by intros ->. Qed.

Lemma store_parent_Some h l v n :
  h !! l = Some n -> store_parent l v h = Some (tt, <[l := with_parent v n]> h).
Proof. unfold store_parent. by intros ->. Qed.

(** [set_child(old, new)] where the parent of [old] holds it in its
    slot [d] (and not in the other): the parent's slot [d] is overwritten
    and [new], if not null, points back to the parent. *)
Lemma set_child_spec h z nz P nP d new :
  h !! z = Some nz -> parent nz = Some P -> h !! P = Some nP ->
  child d nP = Some z -> child (opp d) nP <> Some z ->
  set_child z new h =
    (store_child d P new ;;;
     match new with Some n => store_parent n (Some P) | None => st_ret tt end) h.
Proof.
  intros Hz Hp HP Hd Ho. unfold set_child, load, st_bind, st_lift. rewrite Hz. simpl.
  rewrite Hp, HP. simpl. destruct d; simpl in *.
  - by rewrite bool_decide_true by done.
  - by rewrite bool_decide_false by done.
Qed.

(** The heap after [set_child]: the parent's slot, the new child's parent
    pointer, and nothing else. *)
Lemma set_child_frame h z nz P nP d new :
  h !! z = Some nz -> parent nz = Some P -> h !! P = Some nP ->
  child d nP = Some z -> child (opp d) nP <> Some z ->
  (forall n, new = Some n -> is_Some (h !! n) /\ n <> P) ->
  exists h', set_child z new h = Some (tt, h') /\
    h' !! P = Some (with_child d new nP) /\
    (forall n nn, new = Some n -> h !! n = Some nn ->
       h' !! n = Some (with_parent (Some P) nn)) /\
    (forall y, y <> P -> new <> Some y -> h' !! y = h !! y).
Proof.
  intros Hz Hp HP Hd Ho Hnew. rewrite (set_child_spec h z nz P nP d new) by done.
  rewrite (st_bind_Some _ _ _ _ _ (store_child_Some d h P new nP HP)).
  destruct new as [n|].
  - destruct (Hnew n eq_refl) as [[nn Hn] HnP].
    rewrite (store_parent_Some _ n (Some P) nn) by by rewrite lookup_insert_ne.
    eexists. split; [done|]. split_and!.
    + by rewrite lookup_insert_ne, lookup_insert_eq.
    + intros n' nn' [= <-] Hn'. rewrite lookup_insert_eq. congruence.
    + intros y HyP Hyn. rewrite !lookup_insert_ne; [done|done|]. intros ->. by apply Hyn.
  - eexists. split; [done|]. split_and!; [by rewrite lookup_insert_eq|done|].
    intros y HyP _. by rewrite lookup_insert_ne.
Qed.

#[export] Hint Rewrite child_with_child child_with_child_opp parent_with_child
  child_with_parent opp_involutive : bimap_st.

(** Unfold the monad and the memory primitives in the goal, so that the
    lookups of a computation can be rewritten with what is known of the
    heap. *)
Ltac st_unfold :=
  unfold load, store_child, store_parent;
  unfold st_bind, st_ret, st_fail, st_lift, st_get, st_put; simpl.

