(* ===== verification/Tree.v ===== *)
(** * The abstract search tree and its sequence specification

    [tree] is the shape of an [intrusive_set] with, at each node, the
    location of the node and the key its [Getter] reads.  [elements] is the
    in-order sequence; a well-formed set is a [bst]: its sequence is
    strictly sorted by key.  The functions here are the functional
    counterparts of the pointer algorithms of [IntrusiveSet] ([ins] of
    [add_to_tree], [bound_tree] of [bound_impl]) and the list functions
    ([insert_before], [lb_list], [find_list], [ub_list]) are the ordered-set
    specification they are proved to meet. *)

From S2P Require Import Prelude Node.

Section Tree.
Context {K : Type} `{Compare K}.

Inductive tree :=
| Leaf
| Node (l : tree) (x : loc) (k : K) (r : tree).

Fixpoint elements (t : tree) : list (loc * K) :=
  match t with
  | Leaf => []
  | Node l x k r => elements l ++ (x, k) :: elements r
  end.

Fixpoint height (t : tree) : nat :=
  match t with
  | Leaf => 0
  | Node l _ _ r => S (max (height l) (height r))
  end.

Definition root (t : tree) : option loc :=
  match t with Leaf => None | Node _ x _ _ => Some x end.

Definition locs (t : tree) : list loc := (elements t).*1.

Definition lt_entry (a b : loc * K) : Prop := less a.2 b.2 = true.

(** The search-tree invariant: the in-order keys are strictly increasing. *)
Definition bst (t : tree) : Prop := StronglySorted lt_entry (elements t).

(** ** Functional algorithms *)

(** [add_to_tree]: descend left while the new key is less, right
    otherwise (ties go right). *)
Fixpoint ins (x : loc) (k : K) (t : tree) : tree :=
  match t with
  | Leaf => Node Leaf x k Leaf
  | Node l y ky r =>
      if less k ky then Node (ins x k l) y ky r else Node l y ky (ins x k r)
  end.

(** [bound_impl]: the first node whose key is not less than [k]. *)
Fixpoint bound_tree (k : K) (t : tree) : option (loc * K) :=
  match t with
  | Leaf => None
  | Node l y ky r =>
      if less ky k then bound_tree k r
      else if greater ky k then
        match bound_tree k l with Some z => Some z | None => Some (y, ky) end
      else Some (y, ky)
  end.

(** ** The sequence specification *)

(** Insert [e] before the first element whose key is greater. *)
Fixpoint insert_before (e : loc * K) (l : list (loc * K)) : list (loc * K) :=
  match l with
  | [] => [e]
  | a :: l' => if less e.2 a.2 then e :: l else a :: insert_before e l'
  end.

(** [lower_bound]: the first element whose key is not less than [k]. *)
Fixpoint lb_list (k : K) (l : list (loc * K)) : option (loc * K) :=
  match l with
  | [] => None
  | a :: l' => if less a.2 k then lb_list k l' else Some a
  end.

(** [upper_bound]: the first element whose key is greater than [k]. *)
Fixpoint ub_list (k : K) (l : list (loc * K)) : option (loc * K) :=
  match l with
  | [] => None
  | a :: l' => if less k a.2 then Some a else ub_list k l'
  end.

(** [find], by linear search: the first element with an equivalent key. *)
Fixpoint find_list (k : K) (l : list (loc * K)) : option (loc * K) :=
  match l with
  | [] => None
  | a :: l' => if equals k a.2 then Some a else find_list k l'
  end.

(** ** Lemmas *)

Lemma bst_node l x k r :
  bst (Node l x k r) <->
  bst l /\ bst r /\ (forall a, a ∈ elements l -> less a.2 k = true) /\
  (forall b, b ∈ elements r -> less k b.2 = true) /\
  (forall a b, a ∈ elements l -> b ∈ elements r -> less a.2 b.2 = true).
Proof.
  unfold bst; simpl. rewrite StronglySorted_app. split.
  - intros (Hl & [Hr Hf]%StronglySorted_inv & Hlr). repeat split; auto.
    + intros a Ha. apply (Hlr a (x, k)); [done|by left].
    + intros b Hb. by eapply Forall_forall in Hf.
    + intros a b Ha Hb. apply (Hlr a b); [done|by right].
  - intros (Hl & Hr & Hlx & Hxr & Hlr). repeat split; auto.
    + constructor; [done|]. apply Forall_forall. intros b Hb. by apply Hxr.
    + intros a b Ha [->|Hb]%elem_of_cons; [by apply Hlx|by apply Hlr].
Qed.

Lemma insert_before_app_less e l1 a l2 :
  less e.2 a.2 = true -> insert_before e (l1 ++ a :: l2) = insert_before e l1 ++ a :: l2.
Proof.
  intros Hea. induction l1 as [|b l1 IH]; simpl; [by rewrite Hea|].
  destruct (less e.2 b.2); [done|]. by rewrite IH.
Qed.

Lemma insert_before_app_not_less e l1 a l2 :
  less e.2 a.2 = false -> (forall b, b ∈ l1 -> less b.2 a.2 = true) ->
  insert_before e (l1 ++ a :: l2) = l1 ++ a :: insert_before e l2.
Proof.
  intros Hea Hl1. induction l1 as [|b l1 IH]; simpl; [by rewrite Hea|].
  assert (less b.2 e.2 = true) as Hbe.
  { eapply less_not_less_trans; [apply Hl1; by left|done]. }
  rewrite (less_asym _ _ Hbe), IH; [done|]. intros c Hc. apply Hl1. by right.
Qed.

(** A key not below any key of the sequence goes to its end. *)
Lemma insert_before_end e l :
  (forall a, a ∈ l -> less e.2 a.2 = false) -> insert_before e l = l ++ [e].
Proof.
  induction l as [|a l IH]; intros Hl; simpl; [done|].
  rewrite Hl by (by left). f_equal. apply IH. intros b Hb. apply Hl. by right.
Qed.

(** Functional refinement of insertion by the sequence. *)
Lemma elements_ins x k t :
  bst t -> elements (ins x k t) = insert_before (x, k) (elements t).
Proof.
  induction t as [|l IHl y ky r IHr]; [done|].
  intros (Hl & Hr & Hly & _)%bst_node; simpl.
  destruct (less k ky) eqn:Hk.
  - rewrite insert_before_app_less by done. simpl. by rewrite IHl.
  - rewrite insert_before_app_not_less by done. simpl. by rewrite IHr.
Qed.

Lemma insert_before_perm e l : insert_before e l ≡ₚ e :: l.
Proof.
  induction l as [|a l IH]; simpl; [done|].
  destruct (less e.2 a.2); [done|]. rewrite IH. constructor.
Qed.

Lemma insert_before_sorted e l :
  StronglySorted lt_entry l -> (forall a, a ∈ l -> equals e.2 a.2 = false) ->
  StronglySorted lt_entry (insert_before e l).
Proof.
  induction l as [|a l IH]; simpl; intros Hs Hne.
  - repeat constructor.
  - apply StronglySorted_inv in Hs as [Hs Hf].
    destruct (less e.2 a.2) eqn:Hea.
    + constructor; [by constructor|]. constructor; [done|].
      apply Forall_forall. intros b Hb. unfold lt_entry.
      eapply less_trans; [done|]. by eapply Forall_forall in Hf.
    + constructor.
      * apply IH; [done|]. intros b Hb. apply Hne. by right.
      * rewrite insert_before_perm. constructor; [|done].
        destruct (equals_less e.2 a.2) as [|Hae]; [apply Hne; by left|congruence|done].
Qed.

Lemma elem_of_elements_node a l x k r :
  a ∈ elements (Node l x k r) <-> a ∈ elements l \/ a = (x, k) \/ a ∈ elements r.
Proof. simpl. rewrite elem_of_app, elem_of_cons. tauto. Qed.

Lemma height_ins x k t : height (ins x k t) <= S (height t).
Proof.
  induction t as [|l IHl y ky r IHr]; simpl; [lia|].
  destruct (less k ky); simpl; lia.
Qed.

Lemma height_le_length t : height t <= length (elements t).
Proof.
  induction t as [|l IHl y ky r IHr]; simpl; [lia|].
  rewrite length_app. simpl. lia.
Qed.

Lemma lb_list_all_less k l :
  (forall a, a ∈ l -> less a.2 k = true) -> lb_list k l = None.
Proof.
  induction l as [|a l IH]; simpl; intros Hl; [done|].
  rewrite Hl by (by left). apply IH. intros b Hb. apply Hl. by right.
Qed.

Lemma lb_list_app k l1 l2 :
  lb_list k (l1 ++ l2) =
  match lb_list k l1 with Some z => Some z | None => lb_list k l2 end.
Proof.
  induction l1 as [|a l1 IH]; simpl; [by destruct (lb_list k l2)|].
  by destruct (less a.2 k).
Qed.

(** Functional refinement of the search by the sequence. *)
Lemma bound_tree_lb_list k t : bst t -> bound_tree k t = lb_list k (elements t).
Proof.
  induction t as [|l IHl y ky r IHr]; [done|].
  intros (Hl & Hr & Hly & _ & _)%bst_node; simpl.
  rewrite lb_list_app, IHl, IHr by done. simpl. unfold greater.
  destruct (less ky k) eqn:Hyk.
  - rewrite (lb_list_all_less k (elements l)); [done|].
    intros a Ha. eapply less_trans; [by apply Hly|done].
  - destruct (cmp k ky) eqn:Hky; [done|].
    rewrite (lb_list_all_less k (elements l)); [done|].
    intros a Ha. eapply less_not_less_trans; [by apply Hly|done].
Qed.
Lemma lb_list_elem k l e : lb_list k l = Some e -> e ∈ l.
Proof.
  induction l as [|a l IH]; simpl; [done|].
  destruct (less a.2 k); [intros; right; by apply IH|intros [= ->]; by left].
Qed.


Lemma find_list_all_greater k l :
  (forall a, a ∈ l -> less k a.2 = true) -> find_list k l = None.
Proof.
  induction l as [|a l IH]; simpl; intros Hl; [done|].
  assert (equals k a.2 = false) as ->.
  { destruct (equals k a.2) eqn:E; [|done].
    apply equals_spec in E as [E _]. by rewrite Hl in E by (by left). }
  apply IH. intros b Hb. apply Hl. by right.
Qed.

(** [find] is [lower_bound] followed by an equivalence test: on a sorted
    sequence this is the linear search. *)
Lemma find_list_lb_list k l :
  StronglySorted lt_entry l ->
  (match lb_list k l with
   | Some e => if equals k e.2 then Some e else None
   | None => None
   end) = find_list k l.
Proof.
  induction l as [|a l IH]; simpl; intros Hs; [done|].
  apply StronglySorted_inv in Hs as [Hs Hf].
  destruct (less a.2 k) eqn:Hak.
  - rewrite IH by done. assert (equals k a.2 = false) as ->; [|done].
    destruct (equals k a.2) eqn:E; [|done]. apply equals_spec in E. naive_solver.
  - destruct (equals k a.2) eqn:E; [done|].
    symmetry. apply find_list_all_greater. intros b Hb.
    destruct (equals_less k a.2) as [Hka|Hak']; [done| |congruence].
    eapply less_trans; [done|]. by eapply Forall_forall in Hf.
Qed.

Lemma bound_tree_elem k t e : bound_tree k t = Some e -> e ∈ elements t.
Proof.
  induction t as [|l IHl y ky r IHr]; simpl; [done|].
  rewrite elem_of_app, elem_of_cons.
  destruct (less ky k); [auto|]. destruct (greater ky k); [|intros [= <-]; auto].
  destruct (bound_tree k l); intros [= <-]; auto.
Qed.

Lemma locs_node l x k r : locs (Node l x k r) = locs l ++ x :: locs r.
Proof. unfold locs. simpl. by rewrite fmap_app. Qed.

Lemma elem_of_locs_node y l x k r :
  y ∈ locs (Node l x k r) <-> y ∈ locs l \/ y = x \/ y ∈ locs r.
Proof. rewrite locs_node, elem_of_app, elem_of_cons. tauto. Qed.

Lemma root_in_locs (t : tree) x : root t = Some x -> x ∈ locs t.
Proof. destruct t; simpl; [done|]. intros [= ->]. apply elem_of_locs_node. auto. Qed.

Lemma not_elem_of_locs_node y l x k r :
  y ∉ locs (Node l x k r) -> y ∉ locs l /\ y <> x /\ y ∉ locs r.
Proof. rewrite elem_of_locs_node. tauto. Qed.

Lemma NoDup_locs_node l x k r :
  NoDup (locs (Node l x k r)) <->
  NoDup (locs l) /\ NoDup (locs r) /\ (x ∉ locs l) /\ (x ∉ locs r) /\
  (forall y, y ∈ locs l -> y ∉ locs r).
Proof.
  rewrite locs_node, NoDup_app, NoDup_cons. split.
  - intros (Hl & Hlr & Hx & Hr). split_and!; try done.
    + intros Hx'. apply (Hlr x Hx'), elem_of_cons. by left.
    + intros y Hy Hy'. apply (Hlr y Hy), elem_of_cons. by right.
  - intros (Hl & Hr & Hxl & Hxr & Hlr). split_and!; try done.
    intros y Hy [->|Hy']%elem_of_cons; [done|by eapply Hlr].
Qed.

Lemma find_list_None k l :
  (forall e, e ∈ l -> equals k e.2 = false) -> find_list k l = None.
Proof.
  induction l as [|a l IH]; simpl; intros Hl; [done|].
  rewrite Hl by (by left). apply IH. intros e He. apply Hl. by right.
Qed.

Lemma find_list_Some k l e :
  e ∈ l -> equals k e.2 = true ->
  exists e', find_list k l = Some e' /\ e' ∈ l /\ equals k e'.2 = true.
Proof.
  induction l as [|a l IH]; simpl; intros He Hk; [by apply elem_of_nil in He|].
  destruct (equals k a.2) eqn:Ha; [exists a; split_and!; [done|by left|done]|].
  apply elem_of_cons in He as [->|He]; [congruence|].
  destruct (IH He Hk) as (e' & ? & ? & ?). exists e'. split_and!; [done|by right|done].
Qed.

Lemma find_list_None_inv k l e : find_list k l = None -> e ∈ l -> equals k e.2 = false.
Proof.
  induction l as [|a l IH]; simpl; [by intros _ ?%elem_of_nil|].
  destruct (equals k a.2) eqn:Ha; [done|]. intros Hf [->|He]%elem_of_cons; auto.
Qed.

Lemma find_list_Some_inv k l e : find_list k l = Some e -> e ∈ l /\ equals k e.2 = true.
Proof.
  induction l as [|a l IH]; simpl; [done|].
  destruct (equals k a.2) eqn:Ha; [intros [= <-]; split; [by left|done]|].
  intros (? & ?)%IH. split; [by right|done].
Qed.

(** In a strictly sorted sequence, elements with equivalent keys are
    equal: keys are unique. *)
Lemma sorted_equals_unique l a b :
  StronglySorted lt_entry l -> a ∈ l -> b ∈ l -> equals a.2 b.2 = true -> a = b.
Proof.
  induction l as [|c l IH]; intros Hs Ha Hb Hab; [by apply elem_of_nil in Ha|].
  apply StronglySorted_inv in Hs as [Hs Hf].
  pose proof Hab as [Hab' Hba']%equals_spec.
  apply elem_of_cons in Ha as [->|Ha], Hb as [->|Hb]; [done| | |by apply IH].
  - eapply Forall_forall in Hf; [|done]. unfold lt_entry in Hf. congruence.
  - eapply Forall_forall in Hf; [|done]. unfold lt_entry in Hf. congruence.
Qed.

Lemma ub_list_lb_list_None k l : lb_list k l = None -> ub_list k l = None.
Proof.
  induction l as [|a l IH]; simpl; [done|].
  destruct (less a.2 k) eqn:Hak; [|done]. rewrite (less_asym _ _ Hak). auto.
Qed.

(** On a sorted sequence, [upper_bound] is [lower_bound], stepped once
    when the bound's key is equivalent to [k]. *)
Lemma ub_list_lb_list k l A e B :
  StronglySorted lt_entry l -> l = A ++ e :: B -> lb_list k l = Some e ->
  ub_list k l = if equals k e.2 then head B else Some e.
Proof.
  revert l. induction A as [|a A IH]; intros l Hs -> Hlb; simpl in *.
  - apply StronglySorted_inv in Hs as [_ Hf].
    destruct (less e.2 k) eqn:Hek.
    + apply lb_list_elem in Hlb. eapply Forall_forall in Hf; [|done].
      unfold lt_entry in Hf. by rewrite less_irrefl in Hf.
    + destruct (equals k e.2) eqn:Heq.
      * apply equals_spec in Heq as [-> _]. destruct B as [|b B]; simpl; [done|].
        rewrite (not_less_less_trans k e.2 b.2); [done|done|].
        apply (Forall_inv Hf).
      * destruct (equals_less k e.2) as [->|]; [done|done|congruence].
  - apply StronglySorted_inv in Hs as [Hs Hf].
    destruct (less a.2 k) eqn:Hak.
    + rewrite (less_asym _ _ Hak). by apply (IH _ Hs eq_refl).
    + injection Hlb as <-. eapply Forall_forall in Hf.
      * unfold lt_entry in Hf. by rewrite less_irrefl in Hf.
      * apply elem_of_app. right. by left.
Qed.

(** ** Side-generic views of a node *)

(** The node [x] with child [a] on side [d] and child [b] on the other. *)
Definition node_at (d : dir) (a : tree) (x : loc) (k : K) (b : tree) : tree :=
  match d with DL => Node a x k b | DR => Node b x k a end.

Lemma elem_of_locs_node_at y d a x k b :
  y ∈ locs (node_at d a x k b) <-> y ∈ locs a \/ y = x \/ y ∈ locs b.
Proof. destruct d; simpl; rewrite elem_of_locs_node; tauto. Qed.

Lemma not_elem_of_locs_node_at y d a x k b :
  y ∉ locs (node_at d a x k b) -> y ∉ locs a /\ y <> x /\ y ∉ locs b.
Proof. rewrite elem_of_locs_node_at. tauto. Qed.

Lemma NoDup_locs_node_at d a x k b :
  NoDup (locs (node_at d a x k b)) <->
  NoDup (locs a) /\ NoDup (locs b) /\ (x ∉ locs a) /\ (x ∉ locs b) /\
  (forall y, y ∈ locs a -> y ∉ locs b).
Proof.
  destruct d; simpl; rewrite NoDup_locs_node; [tauto|].
  split; intros (? & ? & ? & ? & Hab); split_and!; try done;
    intros y Hy Hy'; by apply (Hab y).
Qed.

Lemma root_node_at d a x k b : root (node_at d a x k b) = Some x.
Proof. by destruct d. Qed.

Lemma height_node_at d a x k b :
  height (node_at d a x k b) = S (max (height a) (height b)).
Proof. destruct d; simpl; lia. Qed.

Lemma ins_perm x k t : elements (ins x k t) ≡ₚ (x, k) :: elements t.
Proof.
  induction t as [|l IHl y ky r IHr]; simpl; [done|].
  destruct (less k ky); simpl.
  - by rewrite IHl.
  - rewrite IHr. solve_Permutation.
Qed.

Lemma locs_ins_perm x k t : locs (ins x k t) ≡ₚ x :: locs t.
Proof. unfold locs. by rewrite ins_perm. Qed.

Lemma elem_of_locs_ins y x k t : y ∈ locs (ins x k t) <-> y = x \/ y ∈ locs t.
Proof. rewrite <-elem_of_cons. split; intros Hy; [by rewrite <-locs_ins_perm|by rewrite locs_ins_perm]. Qed.

(** One step of [add_to_tree]: the side taken and the subtree left alone. *)
Lemma ins_node_at x k l y ky r :
  let d := if less k ky then DL else DR in
  Node l y ky r = node_at d (if less k ky then l else r) y ky (if less k ky then r else l) /\
  ins x k (Node l y ky r) =
    node_at d (ins x k (if less k ky then l else r)) y ky (if less k ky then r else l).
Proof. simpl. by destruct (less k ky). Qed.

(** ** Paths into a tree

    A context is the path from the root down to a subtree, outermost
    frame first: the frame [mk_frame d y ky b] is the node [y] whose child
    on side [d] continues the path and whose other child is [b].  The
    innermost frame is the parent of the subtree: the iterator's
    [operator++] and [operator--] climb the path from the inside. *)
Record frame := mk_frame { fr_dir : dir; fr_loc : loc; fr_key : K; fr_sib : tree }.

Fixpoint plug (c : list frame) (t : tree) : tree :=
  match c with
  | [] => t
  | f :: c' => node_at (fr_dir f) (plug c' t) (fr_loc f) (fr_key f) (fr_sib f)
  end.

(** The in-order sequence read in direction [d]: forwards for [DR]
    ([operator++]), backwards for [DL] ([operator--]). *)
Definition seq (d : dir) (t : tree) : list (loc * K) :=
  match d with DR => elements t | DL => reverse (elements t) end.

(** What precedes and what follows, in direction [d], the hole of a
    context. *)
Fixpoint ctx_before (d : dir) (c : list frame) : list (loc * K) :=
  match c with
  | [] => []
  | f :: c' =>
      (if bool_decide (fr_dir f = d)
       then seq d (fr_sib f) ++ [(fr_loc f, fr_key f)] else []) ++ ctx_before d c'
  end.

Fixpoint ctx_after (d : dir) (c : list frame) : list (loc * K) :=
  match c with
  | [] => []
  | f :: c' =>
      ctx_after d c' ++
      (if bool_decide (fr_dir f = d) then [] else (fr_loc f, fr_key f) :: seq d (fr_sib f))
  end.

Lemma seq_node_at d d' a x k b :
  seq d (node_at d' a x k b) =
  if bool_decide (d' = d) then seq d b ++ (x, k) :: seq d a
  else seq d a ++ (x, k) :: seq d b.
Proof.
  destruct d, d'; rewrite ?bool_decide_true, ?bool_decide_false by done; simpl;
    rewrite ?reverse_app, ?reverse_cons, <-?app_assoc; done.
Qed.

Lemma seq_plug d c t : seq d (plug c t) = ctx_before d c ++ seq d t ++ ctx_after d c.
Proof.
  induction c as [|f c IH]; simpl; [by rewrite app_nil_r|].
  rewrite seq_node_at, IH. case_bool_decide; simpl; by rewrite ?app_nil_r, <-?app_assoc.
Qed.

Lemma plug_app c1 c2 t : plug (c1 ++ c2) t = plug c1 (plug c2 t).
Proof. induction c1 as [|f c1 IH]; simpl; [done|by rewrite IH]. Qed.

Lemma ctx_after_app d c1 c2 : ctx_after d (c1 ++ c2) = ctx_after d c2 ++ ctx_after d c1.
Proof. induction c1 as [|f c1 IH]; simpl; [by rewrite app_nil_r|by rewrite IH, app_assoc]. Qed.

Lemma seq_perm d t : seq d t ≡ₚ elements t.
Proof. destruct d; simpl; [apply reverse_Permutation|done]. Qed.

Lemma elem_of_seq d t e : e ∈ seq d t <-> e ∈ elements t.
Proof. by rewrite seq_perm. Qed.

Lemma NoDup_seq d t : NoDup (seq d t).*1 <-> NoDup (locs t).
Proof. unfold locs. by rewrite seq_perm. Qed.

Lemma seq_node_ne_nil d l x k r : seq d (Node l x k r) <> [].
Proof.
  intros E. pose proof (Permutation_length (seq_perm d (Node l x k r))) as Hlen.
  rewrite E in Hlen. simpl in Hlen. rewrite length_app in Hlen. simpl in Hlen. lia.
Qed.

(** The two children of a node, seen from side [d]. *)
Lemma node_at_cases d l x k r :
  exists a b, Node l x k r = node_at d a x k b /\ (b = l \/ b = r).
Proof. destruct d; [exists l, r|exists r, l]; auto. Qed.

(** Every entry of a tree is the root of a subtree at some context. *)
Lemma plug_locate d t e :
  e ∈ elements t -> exists c a b, t = plug c (node_at d a e.1 e.2 b).
Proof.
  induction t as [|l IHl y ky r IHr]; simpl; [by intros ?%elem_of_nil|].
  intros [He|[->|He]]%elem_of_elements_node.
  - destruct (IHl He) as (c & a & b & ->).
    by exists (mk_frame DL y ky r :: c), a, b.
  - destruct (node_at_cases d l y ky r) as (a & b & -> & _). by exists [], a, b.
  - destruct (IHr He) as (c & a & b & ->).
    by exists (mk_frame DR y ky l :: c), a, b.
Qed.

Lemma NoDup_plug c t : NoDup (locs (plug c t)) -> NoDup (locs t).
Proof.
  induction c as [|f c IH]; simpl; [done|]. intros (? & _)%NoDup_locs_node_at. auto.
Qed.

Lemma height_plug c t : length c + height t <= height (plug c t).
Proof. induction c as [|f c IH]; simpl; [lia|]. rewrite height_node_at. lia. Qed.

(** The nodes of a context: its frames and their other subtrees. *)
Fixpoint ctx_locs (c : list frame) : list loc :=
  match c with
  | [] => []
  | f :: c' => fr_loc f :: locs (fr_sib f) ++ ctx_locs c'
  end.

(** The node whose child slot holds the hole, and that slot; the hole of
    the empty context is the left slot of [par] (the sentinel's). *)
Fixpoint hole_parent (par : loc) (c : list frame) : loc :=
  match c with
  | [] => par
  | f :: c' => hole_parent (fr_loc f) c'
  end.

Definition hole_dir (c : list frame) : dir :=
  match last c with Some f => fr_dir f | None => DL end.

Lemma locs_plug c t : locs (plug c t) ≡ₚ ctx_locs c ++ locs t.
Proof.
  induction c as [|f c IH]; simpl; [done|].
  destruct f as [d y ky b]; simpl. destruct d; simpl; rewrite locs_node, IH;
    solve_Permutation.
Qed.

Lemma hole_dir_cons f c : c <> [] -> hole_dir (f :: c) = hole_dir c.
Proof. intros Hc. unfold hole_dir. destruct c; [done|]. by rewrite last_cons_cons. Qed.

Lemma hole_parent_in par c : c <> [] -> hole_parent par c ∈ ctx_locs c.
Proof.
  revert par. induction c as [|f c IH]; intros par Hc; [done|]. simpl.
  destruct c as [|f' c']; [by left|]. right. apply elem_of_app. right. by apply IH.
Qed.

Lemma elements_nil t : elements t = [] -> t = Leaf.
Proof. destruct t; simpl; [done|]. intros E. by apply app_eq_nil in E as [_ ?]. Qed.

Lemma root_plug_cons f c t : root (plug (f :: c) t) = Some (fr_loc f).
Proof. apply root_node_at. Qed.

(** Removing the entry of the node at the hole of a context, when the new
    subtree holds the node's two subtrees in order. *)
Lemma plug_remove c l x k r t' :
  elements t' = elements l ++ elements r ->
  exists A B, elements (plug c (Node l x k r)) = A ++ (x, k) :: B /\
              elements (plug c t') = A ++ B.
Proof.
  intros Ht. exists (ctx_before DR c ++ elements l), (elements r ++ ctx_after DR c).
  pose proof (seq_plug DR c (Node l x k r)) as H1. pose proof (seq_plug DR c t') as H2.
  simpl in H1, H2. rewrite H1, H2, Ht. split; by rewrite <-!app_assoc.
Qed.

Lemma remove_facts (A B : list (loc * K)) e s :
  NoDup (A ++ e :: B).*1 -> s ∉ (A ++ e :: B).*1 -> StronglySorted lt_entry (A ++ e :: B) ->
  NoDup (A ++ B).*1 /\ s ∉ (A ++ B).*1 /\ StronglySorted lt_entry (A ++ B).
Proof.
  rewrite !fmap_app, !NoDup_app, !elem_of_app. simpl.
  intros (HA & HAB & [_ HB]%NoDup_cons) Hs Hsort. split_and!.
  - done.
  - intros y Hy HyB. apply (HAB y Hy). by right.
  - done.
  - intros [?|?]; apply Hs; [by left|right; by right].
  - by eapply StronglySorted_remove.
Qed.

Lemma plug_locs_sub c t y : y ∈ locs t -> y ∈ locs (plug c t).
Proof. intros Hy. rewrite locs_plug. apply elem_of_app. by right. Qed.

(** The last entry of a tree is the root of a subtree without right child;
    that subtree's left child takes its place. *)
Lemma plug_last c a m km b L0 :
  NoDup (locs (plug c (Node a m km b))) ->
  elements (plug c (Node a m km b)) = L0 ++ [(m, km)] ->
  b = Leaf /\ elements (plug c a) = L0.
Proof.
  intros Hnd Hel.
  pose proof (seq_plug DR c (Node a m km b)) as H1. pose proof (seq_plug DR c a) as H2.
  simpl in H1, H2. unfold locs in Hnd. rewrite H1 in Hel, Hnd.
  rewrite <-!app_assoc in Hel, Hnd. simpl in Hel, Hnd. rewrite app_assoc in Hel, Hnd.
  destruct (NoDup_fst_split _ _ _ _ _ _ _ Hnd Hel) as (HL0 & _ & Hnil).
  apply app_eq_nil in Hnil as [Hb Ha]. split; [by apply elements_nil|].
  by rewrite H2, Ha, app_nil_r.
Qed.

Lemma plug_locs_mono c t t' y :
  (forall z, z ∈ locs t -> z ∈ locs t') -> y ∈ locs (plug c t) -> y ∈ locs (plug c t').
Proof. intros Ht. rewrite !locs_plug, !elem_of_app. intros [?|?]; auto. Qed.

End Tree.

Arguments tree K : clear implicits.
Arguments Leaf {K}.
Arguments Node {K} l x k r.
