(* ===== verification/Repr.v ===== *)
(** * Representation of an abstract tree in a heap of nodes

    [rep h t par p] says that the pointer [p] is the root of a subtree of
    the heap [h] whose shape and keys are [t], that the root's parent
    pointer is [par], and that every node's children point back to it.
    [wf h s t] is the well-formedness of an [intrusive_set] whose sentinel
    is at [s]: the sentinel has no parent and no right child, its left
    child is the root of [t], the nodes of [t] are distinct and do not
    include the sentinel, and [t] is a search tree.  The frame lemmas say
    that [rep] only depends on the nodes of the tree. *)

From S2P Require Import Prelude Node Tree.

Section Repr.
Context {K : Type} `{Compare K}.
(** [Getter::get] applied to the object embedding the node ([static_cast<const T&>]]: the key stored in the
    object that embeds the node at a location. *)
Variable key_of : loc -> option K.
Implicit Types (t l r : tree K) (k : K) (x y s par : loc) (p : option loc) (h : heap).

Fixpoint rep (h : heap) (t : tree K) (par : loc) (p : option loc) : Prop :=
  match t with
  | Leaf => p = None
  | Node l x k r =>
      p = Some x /\ key_of x = Some k /\
      exists n, h !! x = Some n /\ parent n = Some par /\
        rep h l x (lchild n) /\ rep h r x (rchild n)
  end.

(** The same without a constraint on the root's parent pointer: the state
    of a subtree returned by [add_to_tree] before its caller links it. *)
Definition rep_loose (h : heap) (t : tree K) (p : option loc) : Prop :=
  match t with
  | Leaf => p = None
  | Node l x k r =>
      p = Some x /\ key_of x = Some k /\
      exists n, h !! x = Some n /\ rep h l x (lchild n) /\ rep h r x (rchild n)
  end.

Definition wf (h : heap) (s : loc) (t : tree K) : Prop :=
  exists sn, h !! s = Some sn /\ parent sn = None /\ rchild sn = None /\
    rep h t s (lchild sn) /\ NoDup (locs t) /\ (s ∉ locs t) /\ bst t.

Lemma rep_root h t par p : rep h t par p -> p = root t.
Proof. destruct t; simpl; naive_solver. Qed.

Lemma rep_loose_root h t p : rep_loose h t p -> p = root t.
Proof. destruct t; simpl; naive_solver. Qed.

(** [rep] reads the heap only at the nodes of the tree. *)
Lemma rep_frame h h' t par p :
  rep h t par p -> (forall y, y ∈ locs t -> h' !! y = h !! y) -> rep h' t par p.
Proof.
  revert par p. induction t as [|l IHl x k r IHr]; intros par p; [done|].
  intros (-> & Hk & n & Hx & Hpar & Hl & Hr) Hagree.
  split_and!; [done|done|]. exists n. rewrite Hagree by (apply elem_of_locs_node; auto).
  split_and!; [done|done| |].
  - apply IHl; [done|]. intros y Hy. apply Hagree, elem_of_locs_node. auto.
  - apply IHr; [done|]. intros y Hy. apply Hagree, elem_of_locs_node. auto.
Qed.

Lemma rep_frame_insert h t par p y v :
  rep h t par p -> y ∉ locs t -> rep (<[y := v]> h) t par p.
Proof.
  intros Hrep Hy. eapply rep_frame; [done|]. intros z Hz.
  apply lookup_insert_ne. by intros ->.
Qed.

Lemma rep_loose_of_rep h t par p : rep h t par p -> rep_loose h t p.
Proof. destruct t; simpl; naive_solver. Qed.

(** Linking a loose subtree under [par]: [node->left->parent = node]. *)
Lemma rep_loose_link h t x n par :
  rep_loose h t (Some x) -> h !! x = Some n -> NoDup (locs t) ->
  rep (<[x := with_parent (Some par) n]> h) t par (Some x).
Proof.
  destruct t as [|l y k r]; simpl; [done|].
  intros ([= <-] & Hk & n' & Hx & Hl & Hr) Hn (? & ? & ? & ? & _)%NoDup_locs_node.
  rewrite Hx in Hn. injection Hn as <-.
  split_and!; [done|done|]. exists (with_parent (Some par) n').
  rewrite lookup_insert_eq. split_and!; [done|done| |].
  - by apply rep_frame_insert.
  - by apply rep_frame_insert.
Qed.

Lemma rep_node_at h d a x k b par p :
  rep h (node_at d a x k b) par p <->
  p = Some x /\ key_of x = Some k /\
  exists n, h !! x = Some n /\ parent n = Some par /\
    rep h a x (child d n) /\ rep h b x (child (opp d) n).
Proof. destruct d; simpl; [done|]. naive_solver. Qed.

Lemma rep_loose_node_at h d a x k b p :
  rep_loose h (node_at d a x k b) p <->
  p = Some x /\ key_of x = Some k /\
  exists n, h !! x = Some n /\ rep h a x (child d n) /\ rep h b x (child (opp d) n).
Proof. destruct d; simpl; [done|]. naive_solver. Qed.

Lemma rep_loose_frame_insert h t p y v :
  rep_loose h t p -> y ∉ locs t -> rep_loose (<[y := v]> h) t p.
Proof.
  destruct t as [|l x k r]; simpl; [done|].
  intros (-> & Hk & n & Hx & Hl & Hr) (Hyl & Hyx & Hyr)%not_elem_of_locs_node.
  split_and!; [done|done|]. exists n.
  rewrite lookup_insert_ne by done. split_and!; [done| |]; by apply rep_frame_insert.
Qed.

Lemma rep_loose_lookup h t x : rep_loose h t (Some x) -> is_Some (h !! x).
Proof. destruct t; simpl; [done|]. intros ([= ->] & _ & n & Hn & _). by exists n. Qed.

Lemma rep_keys h t par p x k :
  rep h t par p -> (x, k) ∈ elements t -> key_of x = Some k.
Proof.
  revert par p. induction t as [|l IHl y ky r IHr]; intros par p; simpl.
  - intros _ Hx. by apply elem_of_nil in Hx.
  - intros (-> & Hk & n & _ & _ & Hl & Hr) [Hx|[[= -> ->]|Hx]]%elem_of_elements_node;
      eauto.
Qed.

Lemma rep_in_heap h t par p y :
  rep h t par p -> y ∈ locs t -> is_Some (h !! y).
Proof.
  revert par p. induction t as [|l IHl x k r IHr]; intros par p; simpl.
  - intros _ Hy. by apply elem_of_nil in Hy.
  - intros (-> & _ & n & Hx & _ & Hl & Hr) [Hy|[->|Hy]]%elem_of_locs_node; eauto.
Qed.

(** Every node of a tree in the heap is a distinct entry of the heap, so
    the height of the tree is below the size of the heap: the fuel
    [S (size h)] of the pointer loops is enough. *)
Lemma height_lt_size h t par p :
  rep h t par p -> NoDup (locs t) -> height t < S (size h).
Proof.
  intros Hrep Hnd. pose proof (height_le_length t) as Hht.
  pose proof (NoDup_lookup_length h (locs t) Hnd
    (fun y => rep_in_heap h t par p y Hrep)) as Hlen.
  unfold locs in Hlen. rewrite length_fmap in Hlen. lia.
Qed.

(** The node at the root of a represented subtree points back to [par]. *)
Lemma rep_root_node h t par p z :
  rep h t par p -> root t = Some z -> exists n, h !! z = Some n /\ parent n = Some par.
Proof. destruct t; simpl; [done|]. intros (_ & _ & n & ? & ? & _) [= <-]. eauto. Qed.

(** A subtree at a context is represented below some parent. *)
Lemma rep_plug h c t par p :
  rep h (plug c t) par p -> exists par' q, rep h t par' q.
Proof.
  revert par p. induction c as [|f c IH]; simpl; intros par p; [eauto|].
  intros (_ & _ & n & _ & _ & Hrep & _)%rep_node_at. eauto.
Qed.
(** The subtree at the hole hangs below [hole_parent]. *)
Lemma rep_plug_sub h c t par p :
  rep h (plug c t) par p -> rep h t (hole_parent par c) (root t).
Proof.
  revert par p. induction c as [|f c IH]; simpl; intros par p Hrep.
  - by rewrite <-(rep_root _ _ _ _ Hrep).
  - apply rep_node_at in Hrep as (_ & _ & n & _ & _ & Hsub & _). eauto.
Qed.

(** Pointing the root of a subtree to a new parent: [x->parent = par']. *)
Lemma rep_reparent h h' t par par' p :
  rep h t par p -> NoDup (locs t) ->
  (forall y, y ∈ locs t -> p <> Some y -> h' !! y = h !! y) ->
  (forall n nn, p = Some n -> h !! n = Some nn -> h' !! n = Some (with_parent (Some par') nn)) ->
  rep h' t par' p.
Proof.
  destruct t as [|l x k r]; simpl; [done|].
  intros (-> & Hk & n & Hx & _ & Hl & Hr) (Hndl & Hndr & Hxl & Hxr & _)%NoDup_locs_node
    Hsame Hroot.
  split_and!; [done|done|]. exists (with_parent (Some par') n). split_and!; [by apply Hroot|done| |].
  - eapply rep_frame; [done|]. intros y Hy. apply Hsame; [apply elem_of_locs_node; auto|].
    intros [= ->]. by apply Hxl.
  - eapply rep_frame; [done|]. intros y Hy. apply Hsame; [apply elem_of_locs_node; auto|].
    intros [= ->]. by apply Hxr.
Qed.

(** ** Replacing the subtree at the hole of a context *)

Lemma ctx_locs_plug c t y : y ∈ ctx_locs c -> y ∈ locs (plug c t).
Proof. intros Hy. rewrite locs_plug. apply elem_of_app. by left. Qed.

(** The slot that holds a subtree: the child [hole_dir c] of the node
    [hole_parent par c]; the other child of that node is not in the
    subtree. *)
Lemma rep_plug_hole h c t par p :
  rep h (plug c t) par p -> NoDup (locs (plug c t)) -> c <> [] ->
  exists np, h !! hole_parent par c = Some np /\ child (hole_dir c) np = root t /\
    (forall y, y ∈ locs t -> child (opp (hole_dir c)) np <> Some y).
Proof.
  revert par p. induction c as [|f c IH]; intros par p Hrep Hnd Hc; [done|].
  destruct f as [d y ky sib]; simpl in *.
  apply rep_node_at in Hrep as (-> & _ & n & Hy & _ & Hsub & Hsib).
  apply NoDup_locs_node_at in Hnd as (Hnd & _ & _ & _ & Hdis).
  destruct c as [|f' c'].
  - exists n. unfold hole_dir. simpl. split_and!; [done|by rewrite (rep_root _ _ _ _ Hsub)|].
    intros z Hz Hzs. rewrite (rep_root _ _ _ _ Hsib) in Hzs.
    by apply (Hdis z Hz), root_in_locs.
  - rewrite hole_dir_cons by done. by apply (IH y (child d n)).
Qed.

(** The representation of a tree whose subtree at context [c] is replaced
    by [t'], in a heap [h'] that changes, among the context's nodes, only
    the slot of the hole. *)
Lemma rep_plug_replace h h' c t t' par p q' :
  rep h (plug c t) par p -> NoDup (locs (plug c t)) ->
  (forall y, y ∈ ctx_locs c -> y <> hole_parent par c -> h' !! y = h !! y) ->
  (c <> [] -> exists np, h !! hole_parent par c = Some np /\
     h' !! hole_parent par c = Some (with_child (hole_dir c) q' np)) ->
  rep h' t' (hole_parent par c) q' ->
  rep h' (plug c t') par (match c with [] => q' | _ => p end).
Proof.
  revert par p. induction c as [|f c IH]; intros par p Hrep Hnd Hsame Hhole Ht'; [done|].
  destruct f as [d y ky sib]; simpl in *.
  apply rep_node_at in Hrep as (-> & Hk & n & Hy & Hpar & Hsub & Hsib).
  apply NoDup_locs_node_at in Hnd as (Hnd & _ & Hyt & Hysib & Hdis).
  apply rep_node_at. split_and!; [done|done|].
  destruct c as [|f' c'].
  - destruct (Hhole ltac:(done)) as (np & Hnp & Hnp'). simpl in Hnp, Hnp', Ht'.
    rewrite Hy in Hnp.
    injection Hnp as <-. unfold hole_dir in Hnp'. simpl in Hnp'.
    exists (with_child d q' n).
    rewrite child_with_child, child_with_child_opp, parent_with_child.
    split_and!; [done|done|done|]. eapply rep_frame; [done|]. intros z Hz.
    apply Hsame; [apply elem_of_cons; right; apply elem_of_app; by left|by intros ->].
  - assert (hole_parent y (f' :: c') ∈ locs (plug (f' :: c') t)) as Hhp.
    { by apply ctx_locs_plug, hole_parent_in. }
    exists n. split_and!.
    + rewrite Hsame; [done|by left|]. intros Hyh. apply Hyt. by rewrite Hyh.
    + done.
    + apply (IH y (child d n) Hsub Hnd); [|intros _|done].
      * intros z Hz. apply Hsame. apply elem_of_cons. right. apply elem_of_app. by right.
      * rewrite <-(hole_dir_cons (mk_frame d y ky sib)) by done. by apply Hhole.
    + eapply rep_frame; [done|]. intros z Hz.
      apply Hsame; [apply elem_of_cons; right; apply elem_of_app; by left|].
      intros Hzh. apply (Hdis (hole_parent y (f' :: c'))); [done|by rewrite <-Hzh].
Qed.

Lemma wf_hole h s c t :
  wf h s (plug c t) ->
  exists np, h !! hole_parent s c = Some np /\ child (hole_dir c) np = root t /\
    (forall y, y ∈ locs t -> child (opp (hole_dir c)) np <> Some y).
Proof.
  intros (sn & Hs & _ & Hsr & Hrep & Hnd & _).
  destruct c as [|f c]; [|by apply (rep_plug_hole _ _ _ _ _ Hrep Hnd)].
  exists sn. unfold hole_dir. simpl in *. rewrite Hsr. split_and!; [done| |done].
  by rewrite (rep_root _ _ _ _ Hrep).
Qed.

(** Well-formedness after replacing the subtree at the hole. *)
Lemma wf_replace h h' s c t t' q' :
  wf h s (plug c t) ->
  (forall y, y = s \/ y ∈ ctx_locs c -> y <> hole_parent s c -> h' !! y = h !! y) ->
  (exists np, h !! hole_parent s c = Some np /\
     h' !! hole_parent s c = Some (with_child (hole_dir c) q' np)) ->
  rep h' t' (hole_parent s c) q' ->
  NoDup (locs (plug c t')) -> s ∉ locs (plug c t') -> bst (plug c t') ->
  wf h' s (plug c t').
Proof.
  intros (sn & Hs & Hsp & Hsr & Hrep & Hnd & Hsn & _) Hsame (np & Hnp & Hnp') Ht' Hnd' Hsn' Hbst'.
  destruct c as [|f c].
  - simpl in *. rewrite Hs in Hnp. injection Hnp as <-. unfold hole_dir in Hnp'. simpl in Hnp'.
    exists (with_child DL q' sn). by split_and!.
  - assert (hole_parent s (f :: c) ∈ locs (plug (f :: c) t)) as Hhp.
    { by apply ctx_locs_plug, hole_parent_in. }
    exists sn. rewrite Hsame; [|by left|by intros Hh; apply Hsn; rewrite Hh].
    split_and!; try done.
    apply (rep_plug_replace h h' (f :: c) t t' s (lchild sn) q'); try done.
    + intros y Hy. apply Hsame. by right.
    + intros _. by exists np.
Qed.

End Repr.

Arguments rep {K} key_of h t par p.
Arguments rep_loose {K} key_of h t p.
Arguments wf {K _} key_of h s t.

(** ** Changing the key reader or the heap outside the tree *)

Lemma rep_key_frame {K} (key_of key_of' : loc -> option K) h t par p :
  rep key_of h t par p -> (forall y, y ∈ locs t -> key_of' y = key_of y) ->
  rep key_of' h t par p.
Proof.
  revert par p. induction t as [|l IHl x k r IHr]; intros par p; [done|].
  intros (-> & Hk & n & Hx & Hpar & Hl & Hr) Hagree.
  split_and!; [done| |].
  - rewrite Hagree; [done|]. apply elem_of_locs_node. auto.
  - exists n. split_and!; [done|done| |].
    + apply (IHl x); [done|]. intros y Hy. apply Hagree, elem_of_locs_node. auto.
    + apply (IHr x); [done|]. intros y Hy. apply Hagree, elem_of_locs_node. auto.
Qed.

Lemma wf_frame {K} `{Compare K} (key_of key_of' : loc -> option K) h h' s t :
  wf key_of h s t ->
  (forall y, y ∈ locs t -> key_of' y = key_of y) ->
  (forall y, y = s \/ y ∈ locs t -> h' !! y = h !! y) ->
  wf key_of' h' s t.
Proof.
  intros (sn & Hs & Hsp & Hsr & Hrep & Hnd & Hsn & Hbst) Hk Hh.
  exists sn. rewrite Hh by auto. split_and!; try done.
  apply (rep_key_frame key_of); [|done]. eapply rep_frame; [done|]. auto.
Qed.


(** The sentinel is in the heap besides the nodes of the tree: the
    height is strictly below the heap's size. *)
Lemma wf_height {K} `{Compare K} (key_of : loc -> option K) h s t :
  wf key_of h s t -> height t < size h.
Proof.
  intros (sn & Hs & _ & _ & Hrep & Hnd & Hsn & _).
  pose proof (height_le_length t) as Hht.
  assert (length (s :: locs t) <= size h) as Hlen.
  { apply NoDup_lookup_length; [by constructor|].
    intros y [->|Hy]%elem_of_cons; [by eexists|]. by eapply rep_in_heap. }
  simpl in Hlen. unfold locs in Hlen. rewrite length_fmap in Hlen. lia.
Qed.

(** ** A decision procedure for well-formedness

    [wf_check] computes; it is sound for [wf], so that a concrete set can be
    shown well formed by evaluation. *)
Section Check.
Context {K : Type} `{Compare K} `{EqDecision K}.
Variable key_of : loc -> option K.

Fixpoint rep_check (h : heap) (t : tree K) (par : loc) (p : option loc) : bool :=
  match t with
  | Leaf => bool_decide (p = None)
  | Node l x k r =>
      bool_decide (p = Some x) && bool_decide (key_of x = Some k) &&
      match h !! x with
      | Some n => bool_decide (parent n = Some par) &&
                  rep_check h l x (lchild n) && rep_check h r x (rchild n)
      | None => false
      end
  end.

Fixpoint sorted_check (l : list (loc * K)) : bool :=
  match l with
  | [] => true
  | a :: l' => forallb (fun b => less a.2 b.2) l' && sorted_check l'
  end.

Definition wf_check (h : heap) (s : loc) (t : tree K) : bool :=
  match h !! s with
  | Some sn => bool_decide (parent sn = None) && bool_decide (rchild sn = None) &&
               rep_check h t s (lchild sn) && bool_decide (NoDup (locs t)) &&
               bool_decide (s ∉ locs t) && sorted_check (elements t)
  | None => false
  end.

Lemma rep_check_sound h t par p : rep_check h t par p = true -> rep key_of h t par p.
Proof.
  revert par p. induction t as [|l IHl x k r IHr]; intros par p; simpl.
  - by intros ?%bool_decide_eq_true_1.
  - intros ((?%bool_decide_eq_true_1 & ?%bool_decide_eq_true_1)%andb_true_iff & Hn)
      %andb_true_iff.
    destruct (h !! x) as [n|] eqn:Hx; [|done].
    apply andb_true_iff in Hn as ((?%bool_decide_eq_true_1 & Hl)%andb_true_iff & Hr).
    split_and!; [done|done|]. exists n. auto.
Qed.

Lemma sorted_check_sound l : sorted_check l = true -> StronglySorted lt_entry l.
Proof.
  induction l as [|a l IH]; simpl; [constructor|].
  intros (Hf & Hs)%andb_true_iff. constructor; [by apply IH|].
  apply Forall_forall. intros b Hb. by eapply forallb_forall in Hf; [|apply list_elem_of_In].
Qed.

Lemma wf_check_sound h s t : wf_check h s t = true -> wf key_of h s t.
Proof.
  unfold wf_check. destruct (h !! s) as [sn|] eqn:Hs; [|done].
  intros (((((?%bool_decide_eq_true_1 & ?%bool_decide_eq_true_1)%andb_true_iff & Hrep)
    %andb_true_iff & ?%bool_decide_eq_true_1)%andb_true_iff & ?%bool_decide_eq_true_1)
    %andb_true_iff & Hsort)%andb_true_iff.
  exists sn. split_and!; try done; [by apply rep_check_sound|by apply sorted_check_sound].
Qed.

(** The tree a heap holds below a pointer. *)
Fixpoint to_tree (h : heap) (fuel : nat) (p : option loc) : option (tree K) :=
  match p with
  | None => Some Leaf
  | Some x =>
      match fuel with
      | O => None
      | S fuel =>
          n ← h !! x; k ← key_of x;
          l ← to_tree h fuel (lchild n); r ← to_tree h fuel (rchild n);
          Some (Node l x k r)
      end
  end.

(** The tree held by the set whose sentinel is at [s]. *)
Definition set_tree (h : heap) (s : loc) : tree K :=
  default Leaf (sn ← h !! s; to_tree h (S (size h)) (lchild sn)).
End Check.

