(* ===== verification/IntrusiveSet.v ===== *)
(** * [intrusive::intrusive_set] (src/intrusive_set.h, lines 59-294)

    The set's state is the location [s] of its sentinel ([node_t*
    sentinel]) and the heap of the nodes of its tag.  Member functions
    that are [const] ([lower_bound], [upper_bound], [find], [begin], the
    iterator's [operator++]/[operator--]) read the heap and return an
    [option]; [insert] and [erase] are computations of the state monad
    [st heap].  The keys are read through [key_of], the model of [Getter]
    applied to the object that embeds the node.

    The theorems are refinements: on a well-formed set ([wf]) holding the
    abstract tree [t], each operation returns [Some] of the answer of the
    ordered-set specification on [elements t].

    The operations and their theorems live in [Module intrusive_set],
    exported at the end of the file: [intrusive_set.insert] is the set's
    [insert], distinct from [bimap]'s. *)

From S2P Require Import Prelude Node Tree Repr.

Open Scope st_scope.

Module intrusive_set.

Section IntrusiveSet.
Context {K : Type} `{Compare K}.
Variable key_of : loc -> option K.
Implicit Types (t l r : tree K) (k : K) (x y s par obj : loc) (p : option loc) (h : heap).

(** [get_key(node)], inside a mutating computation. *)
Definition get_key (n : loc) : st heap K := st_lift (fun _ => key_of n).

(** ** Search *)

(** [bound_impl(key, node)]: the first node of the subtree whose key is
    not less than [key], or the sentinel. *)
Fixpoint bound_impl (h : heap) (fuel : nat) (s : loc) (k : K) (node : option loc)
    : option loc :=
  match fuel with
  | O => None
  | S fuel =>
      match node with
      | None => Some s
      | Some n =>
          kn ← key_of n;
          nd ← h !! n;
          if less kn k then bound_impl h fuel s k (rchild nd)
          else if greater kn k then
            tmp ← bound_impl h fuel s k (lchild nd);
            if bool_decide (tmp ≠ s) then Some tmp else Some n
          else Some n
      end
  end.

(** [lower_bound(key)]. *)
Definition lower_bound (h : heap) (s : loc) (k : K) : option loc :=
  sn ← h !! s; bound_impl h (S (size h)) s k (lchild sn).

(** [end()]. *)
Definition end_ (s : loc) : loc := s.

(** [iterator::operator==] and [operator!=]: comparison of the node
    pointers ([other.node == node]). *)
Definition iter_eq (it other : loc) : bool := bool_decide (other = it).
Definition iter_neq (it other : loc) : bool := bool_decide (other ≠ it).

(** [find(key)]: the lower bound if its key is equivalent to [key]; the
    key is only read when the bound is not [end()]. *)
Definition find (h : heap) (s : loc) (k : K) : option loc :=
  it ← lower_bound h s k;
  if iter_neq it (end_ s) then
    kit ← key_of it; if equals k kit then Some it else Some s
  else Some s.

(** ** Iteration *)

(** [while (node->d) node = node->d;] *)
Fixpoint descend (h : heap) (fuel : nat) (d : dir) (n : loc) : option loc :=
  match fuel with
  | O => None
  | S fuel =>
      nd ← h !! n;
      match child d nd with
      | Some c => descend h fuel d c
      | None => Some n
      end
  end.

(** [while (node->parent && node->parent->d == node) node = node->parent;
     node = node->parent;]  A null result is the null iterator, which
    the model reports as [None]. *)
Fixpoint ascend (h : heap) (fuel : nat) (d : dir) (n : loc) : option loc :=
  match fuel with
  | O => None
  | S fuel =>
      nd ← h !! n;
      match parent nd with
      | Some p =>
          pn ← h !! p;
          if bool_decide (child d pn = Some n) then ascend h fuel d p else Some p
      | None => None
      end
  end.

(** [operator++] for [d = DR], [operator--] for [d = DL]: the leftmost
    (rightmost) node of the right (left) subtree if there is one, else the
    first ancestor reached from the other side. *)
Definition advance (h : heap) (d : dir) (it : loc) : option loc :=
  nd ← h !! it;
  match child d nd with
  | Some c => descend h (S (size h)) (opp d) c
  | None => ascend h (S (size h)) d it
  end.

Definition incr (h : heap) (it : loc) : option loc := advance h DR it.
Definition decr (h : heap) (it : loc) : option loc := advance h DL it.

(** [operator++(int)] and [operator--(int)]: [auto tmp = *this;] the
    prefix step, [return tmp;] -- the iterator before the step, with the
    stepped one. *)
Definition incr_post (h : heap) (it : loc) : option (loc * loc) :=
  it' ← incr h it; Some (it, it').
Definition decr_post (h : heap) (it : loc) : option (loc * loc) :=
  it' ← decr h it; Some (it, it').

(** [begin()]: the leftmost node, or the sentinel of an empty set. *)
Definition begin (h : heap) (s : loc) : option loc := descend h (S (size h)) DL s.

(** [upper_bound(key)]: the lower bound, stepped once if its key is
    equivalent to [key]. *)
Definition upper_bound (h : heap) (s : loc) (k : K) : option loc :=
  it ← lower_bound h s k;
  if iter_neq it (end_ s) then
    kit ← key_of it; if equals k kit then incr h it else Some it
  else Some it.

(** ** Insertion *)

(** [add_to_tree(obj, node)]: insert [obj] into the subtree at [node]
    and return the subtree's new root.  The two branches of the code are
    mirror images; [d] is the side taken. *)
Fixpoint add_to_tree (fuel : nat) (obj : loc) (node : option loc) : st heap loc :=
  match fuel with
  | O => st_fail
  | S fuel =>
      match node with
      | None => st_ret obj
      | Some n =>
          ko <- get_key obj ;;
          kn <- get_key n ;;
          let d := if less ko kn then DL else DR in
          nd <- load n ;;
          c <- add_to_tree fuel obj (child d nd) ;;
          store_child d n (Some c) ;;;
          store_parent c (Some n) ;;;
          st_ret n
      end
  end.

#[local] Arguments add_to_tree : simpl never.

(** [insert(obj, hint)]: unless [hint], return [end()] when an equivalent
    key is present; otherwise link [obj] below the sentinel. *)
Definition insert (s : loc) (obj : loc) (hint : bool) : st heap loc :=
  dup <- (if hint then st_ret false
          else ko <- get_key obj ;;
               it <- st_lift (fun h => find h s ko) ;;
               st_ret (iter_neq it (end_ s))) ;;
  if dup then st_ret s
  else
    h <- st_get ;;
    sn <- load s ;;
    r <- add_to_tree (S (size h)) obj (lchild sn) ;;
    store_child DL s (Some r) ;;;
    store_parent r (Some s) ;;;
    st_ret obj.

(** ** Deletion *)

(** [if (new_node->parent != node) { node_t::set_child(new_node,
    new_node->left); new_node->left = node->left;
    new_node->left->parent = new_node; }]: unless the predecessor is
    [node]'s own left child, splice it out of its place and give it
    [node]'s left subtree. *)
Definition detach_pred (it new_node : loc) (nn : node) : st heap unit :=
  if bool_decide (parent nn ≠ Some it) then
    set_child new_node (lchild nn) ;;;
    nd1 <- load it ;;
    store_child DL new_node (lchild nd1) ;;;
    match lchild nd1 with
    | Some c => store_parent c (Some new_node)
    | None => st_fail
    end
  else st_ret tt.

(** [new_node->right = node->right; node->right->parent = new_node;] *)
Definition adopt_right (it new_node : loc) : st heap unit :=
  nd2 <- load it ;;
  store_child DR new_node (rchild nd2) ;;;
  match rchild nd2 with
  | Some c => store_parent c (Some new_node)
  | None => st_fail
  end.

(** [node->left = node->right = node->parent = nullptr;] (assignments
    from the right). *)
Definition clear_links (it : loc) : st heap unit :=
  store_parent it None ;;; store_child DR it None ;;; store_child DL it None.

(** [erase(it)]: with two children, the in-order predecessor [new_node]
    (rightmost node of the left subtree) is spliced out of its place and
    takes the place of [node]; otherwise [node]'s only child (or null)
    takes its place.  [node]'s links are cleared and [node] returned. *)
Definition erase (it : loc) : st heap loc :=
  nd <- load it ;;
  (match lchild nd, rchild nd with
   | Some l, Some _ =>
       new_node <- st_lift (fun h => descend h (S (size h)) DR l) ;;
       nn <- load new_node ;;
       detach_pred it new_node nn ;;;
       adopt_right it new_node ;;;
       set_child it (Some new_node)
   | _, _ =>
       set_child it (match lchild nd with Some l => Some l | None => rchild nd end)
   end) ;;;
  clear_links it ;;;
  st_ret it.

(** ** Swap and move *)

(** [if (sentinel->left) sentinel->left->parent = sentinel;] *)
Definition relink_root (s : loc) : st heap unit :=
  sn <- load s ;;
  match lchild sn with
  | Some r => store_parent r (Some s)
  | None => st_ret tt
  end.

(** [swap(other)]: [std::swap(sentinel->left, other.sentinel->left)]
    ([tmp = a; a = b; b = tmp]) on two sets whose sentinels [s1] and
    [s2] live in the same node memory, then each root points back to its
    new sentinel.  The comparators are stateless ([Compare] instances), so
    swapping them changes nothing. *)
Definition swap (s1 s2 : loc) : st heap unit :=
  n1 <- load s1 ;;
  let tmp := lchild n1 in
  n2 <- load s2 ;;
  store_child DL s1 (lchild n2) ;;;
  store_child DL s2 tmp ;;;
  relink_root s1 ;;;
  relink_root s2.

(** [intrusive_set(intrusive_set&& other)]: the member initializer
    [sentinel()] makes the pointer null, and the body then writes
    [sentinel->left = other.sentinel->left], reads [sentinel->left],
    and clears [other.sentinel->left]. *)
Definition move_construct (other : loc) : st heap (option loc) :=
  let sentinel : option loc := None in
  on <- load other ;;
  store_child_at DL sentinel (lchild on) ;;;
  sn <- deref sentinel ;;
  (match lchild sn with
   | Some r => store_parent r sentinel
   | None => st_ret tt
   end) ;;;
  store_child DL other None ;;;
  st_ret sentinel.

(** [operator=(intrusive_set&& other)]: unless [other] is this set
    ([self_move], that is [this == &other]), the temporary
    [intrusive_set(std::move(other))] is built and swapped with this set
    ([tmp.swap( *this)]), whose first statement reads the temporary's
    sentinel. *)
Definition move_assign (self_move : bool) (s other : loc) : st heap unit :=
  if self_move then st_ret tt
  else
    tmp <- move_construct other ;;
    match tmp with
    | Some t => swap t s
    | None => st_fail
    end.

(** ** Search is correct *)

(** Iterator comparison is the comparison of the two locations, either way
    round. *)
Lemma iter_eq_spec it other : iter_eq it other = bool_decide (it = other).
Proof. apply bool_decide_ext. split; congruence. Qed.
Lemma iter_neq_spec it other : iter_neq it other = bool_decide (it ≠ other).
Proof. apply bool_decide_ext. split; congruence. Qed.

Lemma elem_of_locs t e : e ∈ elements t -> e.1 ∈ locs t.
Proof. intros He. apply list_elem_of_fmap. by exists e. Qed.

Lemma bound_impl_spec h fuel s k t par p :
  rep key_of h t par p -> s ∉ locs t -> height t < fuel ->
  bound_impl h fuel s k p = Some (default s (fst <$> bound_tree k t)).
Proof.
  revert par p fuel.
  induction t as [|l IHl x kx r IHr]; intros par p [|fuel] Hrep Hs Hf; simpl in *; try lia.
  - by subst.
  - destruct Hrep as (-> & Hk & n & Hn & _ & Hl & Hr). rewrite Hk, Hn. simpl.
    apply not_elem_of_locs_node in Hs as (Hsl & Hsx & Hsr).
    destruct (less kx k); [apply (IHr x); [done|done|lia]|].
    destruct (greater kx k); [|done].
    rewrite (IHl x (lchild n) fuel) by (done || lia). simpl.
    destruct (bound_tree k l) as [e|] eqn:Hb; simpl.
    + rewrite bool_decide_eq_true_2; [done|]. intros Hes. apply Hsl.
      rewrite <-Hes. by apply elem_of_locs, bound_tree_elem with k.
    + by rewrite bool_decide_eq_false_2 by (by intros ?).
Qed.

(** [lower_bound] refines [lb_list]. *)
Lemma lower_bound_spec h s t k :
  wf key_of h s t ->
  lower_bound h s k = Some (default s (fst <$> lb_list k (elements t))).
Proof.
  intros (sn & Hs & _ & _ & Hrep & Hnd & Hsn & Hbst). unfold lower_bound.
  rewrite Hs, <-bound_tree_lb_list by done.
  exact (bound_impl_spec h _ s k t s _ Hrep Hsn (height_lt_size _ _ _ _ _ Hrep Hnd)).
Qed.

(** [find] refines [find_list]. *)
Lemma find_spec h s t k :
  wf key_of h s t ->
  find h s k = Some (default s (fst <$> find_list k (elements t))).
Proof.
  intros Hwf. unfold find. rewrite (lower_bound_spec _ _ _ _ Hwf). simpl.
  rewrite iter_neq_spec. unfold end_.
  destruct Hwf as (sn & _ & _ & _ & Hrep & _ & Hsn & Hbst).
  rewrite <-find_list_lb_list by done.
  destruct (lb_list k (elements t)) as [[x kx]|] eqn:Hlb; simpl.
  - apply lb_list_elem in Hlb.
    rewrite bool_decide_eq_true_2 by (intros ->; by apply Hsn, (elem_of_locs _ (s, kx))).
    rewrite (rep_keys _ _ _ _ _ _ _ Hrep Hlb). simpl. by destruct (equals k kx).
  - by rewrite bool_decide_eq_false_2 by (by intros ?).
Qed.
(** ** Insertion is correct *)

Lemma add_to_tree_spec fuel obj k h t par p on :
  rep key_of h t par p -> NoDup (locs t) -> obj ∉ locs t -> key_of obj = Some k ->
  h !! obj = Some on -> lchild on = None -> rchild on = None -> height t < fuel ->
  exists h', add_to_tree fuel obj p h = Some (default obj (root t), h') /\
    rep_loose key_of h' (ins obj k t) (Some (default obj (root t))) /\
    (forall y, y ∉ obj :: locs t -> h' !! y = h !! y).
Proof.
  intros Hrep Hnd Hobj Hk Hon Hl Hr. revert par p fuel h Hrep Hnd Hobj Hon.
  induction t as [|l IHl x kx r IHr]; intros par p [|fuel] h Hrep Hnd Hobj Hon Hf;
    simpl in Hf; try lia.
  - simpl in Hrep. subst p. exists h. split; [done|]. split; [|done].
    simpl. split_and!; [done|done|]. exists on. by rewrite Hl, Hr.
  - destruct (ins_node_at obj k l x kx r) as [Ht Hins].
    set (d := if less k kx then DL else DR) in *.
    set (td := if less k kx then l else r) in *.
    set (to := if less k kx then r else l) in *.
    assert (forall par p fuel h, rep key_of h td par p -> NoDup (locs td) ->
      obj ∉ locs td -> h !! obj = Some on -> height td < fuel ->
      exists h', add_to_tree fuel obj p h = Some (default obj (root td), h') /\
        rep_loose key_of h' (ins obj k td) (Some (default obj (root td))) /\
        (forall y, y ∉ obj :: locs td -> h' !! y = h !! y)) as IHd.
    { subst td. destruct (less k kx); [apply IHl|apply IHr]. }
    assert (height td < fuel) as Hfd by (subst td; destruct (less k kx); lia).
    rewrite Ht in Hrep, Hnd, Hobj. rewrite Hins, Ht. clear IHl IHr Ht Hins Hf.
    apply rep_node_at in Hrep as (-> & Hkx & n & Hn & Hpar & Hd & Ho).
    apply NoDup_locs_node_at in Hnd as (Hndd & Hndo & Hxd & Hxo & Hdo).
    apply not_elem_of_locs_node_at in Hobj as (Hobjd & Hobjx & Hobjo).
    destruct (IHd x (child d n) fuel h) as (h1 & Hcall & Hrep1 & Hframe1); try done.
    set (c := default obj (root td)) in *.
    assert (h1 !! x = Some n) as Hn1.
    { rewrite Hframe1; [done|]. intros [->|?]%elem_of_cons; [done|by apply Hxd]. }
    assert (c = obj \/ c ∈ locs td) as Hcin.
    { apply elem_of_cons. rewrite <-locs_ins_perm. apply root_in_locs.
      by rewrite <-(rep_loose_root _ _ _ _ Hrep1). }
    assert (c <> x /\ c ∉ locs to) as [Hcx Hco].
    { destruct Hcin as [->|Hc]; [done|]. split; [intros ->; by apply Hxd|by apply Hdo]. }
    destruct (rep_loose_lookup _ _ _ _ Hrep1) as [nc Hnc].
    unfold add_to_tree. fold add_to_tree. unfold get_key. st_unfold.
    rewrite Hk, Hkx, Hn. simpl. fold d. rewrite Hcall. simpl.
    rewrite Hn1. simpl. rewrite lookup_insert_ne, Hnc by done. simpl.
    rewrite root_node_at. eexists. split; [done|]. split.
    + apply rep_loose_node_at. split_and!; [done|done|].
      eexists. rewrite lookup_insert_ne, lookup_insert_eq by done. split_and!; [done| |].
      * rewrite child_with_child. apply rep_loose_link.
        -- apply rep_loose_frame_insert; [done|]. rewrite locs_ins_perm.
           intros [->|?]%elem_of_cons; [done|by apply Hxd].
        -- by rewrite lookup_insert_ne.
        -- rewrite locs_ins_perm. by constructor.
      * rewrite child_with_child_opp. apply rep_frame_insert; [|done].
        apply rep_frame_insert; [|done]. eapply rep_frame; [done|].
        intros y Hy. apply Hframe1. intros [->|Hyd]%elem_of_cons; [done|].
        by apply (Hdo y).
    + intros y Hy. apply not_elem_of_cons in Hy as [Hyo Hy].
      apply not_elem_of_locs_node_at in Hy as (Hyd & Hyx & Hyt).
      assert (y <> c) by (destruct Hcin as [->|]; [done|by intros ->]).
      rewrite !lookup_insert_ne by done. apply Hframe1.
      by intros [->|?]%elem_of_cons.
Qed.

Lemma find_end h s t k :
  wf key_of h s t -> (forall e, e ∈ elements t -> equals k e.2 = false) ->
  find h s k = Some s.
Proof. intros Hwf Hne. rewrite (find_spec _ _ _ _ Hwf). by rewrite find_list_None. Qed.

(** [insert] of a new node links it in: well-formedness, the sorted
    sequence and the frame. *)
Lemma insert_spec h s t obj k on (hint : bool) :
  wf key_of h s t -> key_of obj = Some k ->
  h !! obj = Some on -> lchild on = None -> rchild on = None ->
  obj <> s -> obj ∉ locs t -> (forall e, e ∈ elements t -> equals k e.2 = false) ->
  exists h', insert s obj hint h = Some (obj, h') /\
    wf key_of h' s (ins obj k t) /\
    elements (ins obj k t) = insert_before (obj, k) (elements t) /\
    (forall y, y ∉ s :: obj :: locs t -> h' !! y = h !! y).
Proof.
  intros Hwf Hk Hon Hl Hr Hos Hobj Hne.
  assert ((if hint then st_ret false
           else ko <- get_key obj ;; it <- st_lift (fun h => find h s ko) ;;
                st_ret (iter_neq it (end_ s))) h = Some (false, h)) as Hdup.
  { destruct hint; [done|]. unfold get_key. st_unfold.
    rewrite Hk. simpl. rewrite (find_end _ _ _ _ Hwf Hne). simpl.
    rewrite iter_neq_spec, bool_decide_eq_false_2; [done|]. intros Hss. by apply Hss. }
  destruct Hwf as (sn & Hs & Hsp & Hsr & Hrep & Hnd & Hsn & Hbst).
  destruct (add_to_tree_spec (S (size h)) obj k h t s (lchild sn) on)
    as (h1 & Hcall & Hrep1 & Hframe1); try done.
  { by eapply height_lt_size. }
  set (r := default obj (root t)) in *.
  assert (h1 !! s = Some sn) as Hs1.
  { rewrite Hframe1; [done|]. by intros [->|?]%elem_of_cons. }
  assert (r = obj \/ r ∈ locs t) as Hrin.
  { unfold r. destruct (root t) eqn:Hroot; [right; by apply root_in_locs|by left]. }
  assert (r <> s) as Hrs by (destruct Hrin as [->|]; [done|by intros ->]).
  destruct (rep_loose_lookup _ _ _ _ Hrep1) as [nr Hnr].
  unfold insert. rewrite (st_bind_Some _ _ _ _ _ Hdup). st_unfold.
  rewrite Hs. simpl. rewrite Hcall. simpl. rewrite Hs1. simpl.
  rewrite lookup_insert_ne, Hnr by done. simpl.
  eexists. split; [done|]. split_and!.
  - exists (with_child DL (Some r) sn).
    rewrite lookup_insert_ne, lookup_insert_eq by done. split_and!; [done|done|done| | | |].
    + apply rep_loose_link; [| |rewrite locs_ins_perm; by constructor].
      * apply rep_loose_frame_insert; [done|]. rewrite locs_ins_perm.
        by intros [->|?]%elem_of_cons.
      * by rewrite lookup_insert_ne.
    + rewrite locs_ins_perm. by constructor.
    + rewrite locs_ins_perm. by intros [->|?]%elem_of_cons.
    + unfold bst. rewrite elements_ins by done. by apply insert_before_sorted.
  - by apply elements_ins.
  - intros y Hy. apply not_elem_of_cons in Hy as [Hys Hy].
    assert (y <> r) by (destruct Hrin as [->|]; [by intros ->; apply Hy; left|]; 
                        intros ->; apply Hy; by right).
    rewrite !lookup_insert_ne by done. by apply Hframe1.
Qed.

(** C22: with the duplicate check ([hint = false]), [insert] of a node
    whose key is equivalent to one in the set returns [end()] and changes
    no node. *)
Theorem insert_duplicate h s t obj k e :
  wf key_of h s t -> key_of obj = Some k -> e ∈ elements t -> equals k e.2 = true ->
  insert s obj false h = Some (s, h).
Proof.
  intros Hwf Hk He Heq. pose proof (find_spec _ _ _ k Hwf) as Hfind.
  destruct (find_list_Some _ _ _ He Heq) as (e' & Hf & He' & _).
  rewrite Hf in Hfind. simpl in Hfind.
  destruct Hwf as (sn & _ & _ & _ & _ & _ & Hsn & _).
  unfold insert, get_key. st_unfold. rewrite Hk. simpl. rewrite Hfind. simpl.
  rewrite iter_neq_spec, bool_decide_eq_true_2; [done|]. intros Hs. unfold end_ in Hs. apply Hsn. rewrite <-Hs.
  by apply (elem_of_locs t e').
Qed.

(** ** Iteration is correct *)

(** Where an iterator that steps past the last node in direction [d]
    lands: [end()] going forwards; going backwards from the first node the
    loop climbs past the sentinel to its null parent. *)
Definition past_end (s : loc) (d : dir) : option loc :=
  match d with DR => Some s | DL => None end.

(** The [while] loop that follows the [d] children reaches the first node
    of the subtree in the opposite direction. *)
Lemma descend_spec h d t par z fuel :
  rep key_of h t par (Some z) -> height t < fuel ->
  descend h fuel d z = fst <$> head (seq (opp d) t).
Proof.
  revert par z fuel. induction t as [|l IHl x k r IHr]; intros par z fuel; [done|].
  destruct (node_at_cases (opp d) l x k r) as (a & b & Ht & Hb). rewrite Ht.
  assert (forall par' z' fuel', rep key_of h b par' (Some z') -> height b < fuel' ->
            descend h fuel' d z' = fst <$> head (seq (opp d) b)) as IHb.
  { destruct Hb as [-> | ->]; eauto. }
  intros ([= <-] & _ & n & Hx & _ & _ & Hb')%rep_node_at Hfuel.
  rewrite opp_involutive in Hb'. rewrite height_node_at in Hfuel.
  destruct fuel as [|fuel]; [lia|]. simpl. rewrite Hx. simpl.
  rewrite seq_node_at, bool_decide_true by done.
  destruct (child d n) as [y|] eqn:Hc.
  - rewrite (IHb _ y fuel Hb') by lia. rewrite head_app.
    destruct b as [|bl y' ky' br]; [simpl in Hb'; congruence|].
    destruct (seq (opp d) (Node bl y' ky' br)) eqn:E; [by apply seq_node_ne_nil in E|done].
  - destruct b; [by destruct (opp d)|]. simpl in Hb'. naive_solver.
Qed.

(** The [while] loop that climbs while the node is its parent's [d]
    child, followed by one more step up, reaches the first ancestor that
    follows the subtree at context [c] in direction [d]. *)
Lemma ascend_spec h s c t d z fuel :
  wf key_of h s (plug c t) -> root t = Some z -> length c + 2 <= fuel ->
  ascend h fuel d z =
    match ctx_after d c with e :: _ => Some e.1 | [] => past_end s d end.
Proof.
  intros (sn & Hs & Hsp & Hsr & Hrep & Hnd & _).
  revert t z fuel Hrep Hnd. induction c as [|f c IH] using rev_ind;
    intros t z fuel Hrep Hnd Hz Hfuel.
  - simpl in *. destruct (rep_root_node _ _ _ _ _ _ Hrep Hz) as (nz & Hnz & Hpz).
    pose proof (rep_root _ _ _ _ _ Hrep) as Hroot.
    destruct fuel as [|fuel]; [lia|]. simpl. rewrite Hnz. simpl. rewrite Hpz, Hs. simpl.
    destruct d; simpl.
    + rewrite bool_decide_true by congruence.
      destruct fuel as [|fuel]; [lia|]. simpl. rewrite Hs. simpl. by rewrite Hsp.
    + by rewrite bool_decide_false by congruence.
  - rewrite plug_app in Hrep, Hnd. rewrite ctx_after_app. rewrite length_app in Hfuel.
    destruct f as [fd y ky sib]; simpl in *.
    destruct (rep_plug _ _ _ _ _ _ Hrep) as (par' & q & Hsub).
    apply rep_node_at in Hsub as ([= ->] & _ & ny & Hy & _ & Ht & Hsib).
    destruct (rep_root_node _ _ _ _ _ _ Ht Hz) as (nz & Hnz & Hpz).
    pose proof Hz as Hzt. rewrite <-(rep_root _ _ _ _ _ Ht) in Hz.
    destruct fuel as [|fuel]; [lia|]. simpl. rewrite Hnz. simpl. rewrite Hpz, Hy. simpl.
    destruct (decide (fd = d)) as [<-|Hfd].
    + rewrite !bool_decide_true by done. simpl.
      apply (IH (node_at fd t y ky sib)); [done|done|apply root_node_at|lia].
    + assert (d = opp fd) as -> by (destruct fd, d; simpl; congruence).
      rewrite (bool_decide_false (fd = opp fd)) by (by destruct fd).
      rewrite bool_decide_false; [done|]. rewrite (rep_root _ _ _ _ _ Hsib).
      intros Hzs. apply NoDup_plug, NoDup_locs_node_at in Hnd as (_ & _ & _ & _ & Hdis).
      apply (Hdis z); by apply root_in_locs.
Qed.

(** [operator++] ([d = DR]) and [operator--] ([d = DL]) step to the next
    entry of the in-order sequence read in direction [d]. *)
Lemma advance_spec h s t d x k A B :
  wf key_of h s t -> seq d t = A ++ (x, k) :: B ->
  advance h d x = match B with e :: _ => Some e.1 | [] => past_end s d end.
Proof.
  intros Hwf Hseq. pose proof Hwf as (sn & Hs & _ & _ & Hrep & Hnd & _ & _).
  assert ((x, k) ∈ elements t) as Hx.
  { rewrite <-(elem_of_seq d), Hseq. apply elem_of_app. right. by left. }
  destruct (plug_locate d t _ Hx) as (c & a & b & Ht). simpl in Ht.
  assert (seq d t = (ctx_before d c ++ seq d b) ++ (x, k) :: (seq d a ++ ctx_after d c))
    as Hseq'.
  { rewrite Ht, seq_plug, seq_node_at, bool_decide_true by done. by rewrite <-!app_assoc. }
  apply (NoDup_seq d) in Hnd. rewrite Hseq' in Hnd. rewrite Hseq' in Hseq.
  destruct (NoDup_fst_split _ _ _ _ _ _ _ Hnd Hseq) as (_ & _ & <-).
  pose proof (wf_height _ _ _ _ Hwf) as Hh. rewrite Ht in Hh.
  pose proof (height_plug c (node_at d a x k b)) as Hhp. rewrite height_node_at in Hhp.
  rewrite Ht in Hrep. destruct (rep_plug _ _ _ _ _ _ Hrep) as (par & q & Hsub).
  apply rep_node_at in Hsub as ([= ->] & _ & nx & Hnx & _ & Ha & _).
  unfold advance. rewrite Hnx. cbn -[descend ascend].
  destruct (child d nx) as [y|] eqn:Hc.
  - rewrite (descend_spec h (opp d) a x y) by (done || lia). rewrite opp_involutive.
    destruct a as [|al ya ka ar]; [simpl in Ha; congruence|].
    by destruct (seq d (Node al ya ka ar)) eqn:E; [apply seq_node_ne_nil in E|].
  - destruct a; [|simpl in Ha; naive_solver].
    rewrite (ascend_spec h s c (node_at d Leaf x k b) d x);
      [by destruct d|by rewrite <-Ht|apply root_node_at|lia].
Qed.

(** ** The set's contract *)

(** C1: on a well-formed set, [find(key)] returns the node whose key is
    equivalent to [key] (the answer of a linear search of the in-order
    sequence), or [end()] when there is none: the tree search computes the
    ordered-set lookup. *)
Theorem find_correct h s t k :
  wf key_of h s t ->
  find h s k = Some (default s (fst <$> find_list k (elements t))).
Proof. apply find_spec. Qed.

(** C2: [insert] of a fresh, unlinked node whose key has no equivalent in
    the set succeeds with either [hint], returns the node, keeps the set
    well formed (parent links, search order, distinct nodes), inserts the
    node into the sorted in-order sequence, and changes no node outside
    the sentinel, the new node and the tree. *)
Theorem insert_correct h s t obj k on (hint : bool) :
  wf key_of h s t -> key_of obj = Some k ->
  h !! obj = Some on -> lchild on = None -> rchild on = None ->
  obj <> s -> obj ∉ locs t -> (forall e, e ∈ elements t -> equals k e.2 = false) ->
  exists h', insert s obj hint h = Some (obj, h') /\
    wf key_of h' s (ins obj k t) /\
    elements (ins obj k t) = insert_before (obj, k) (elements t) /\
    (forall y, y ∉ s :: obj :: locs t -> h' !! y = h !! y).
Proof. apply insert_spec. Qed.

(** Both bounds on a well-formed set. *)
Lemma bounds_spec h s t k :
  wf key_of h s t ->
  lower_bound h s k = Some (default s (fst <$> lb_list k (elements t))) /\
  upper_bound h s k = Some (default s (fst <$> ub_list k (elements t))).
Proof.
  intros Hwf. split; [by apply lower_bound_spec|].
  unfold upper_bound. rewrite (lower_bound_spec _ _ _ _ Hwf).
  pose proof Hwf as (sn & _ & _ & _ & Hrep & _ & Hsn & Hbst).
  destruct (lb_list k (elements t)) as [[x kx]|] eqn:Hlb; simpl; rewrite iter_neq_spec; unfold end_.
  - pose proof (lb_list_elem _ _ _ Hlb) as Hin.
    rewrite bool_decide_true by (intros ->; by apply Hsn, (elem_of_locs _ (s, kx))).
    rewrite (rep_keys _ _ _ _ _ _ _ Hrep Hin). simpl.
    apply list_elem_of_split in Hin as (A & B & HAB).
    rewrite (ub_list_lb_list k _ A (x, kx) B Hbst HAB Hlb). simpl.
    destruct (equals k kx); [|done].
    unfold incr. rewrite (advance_spec h s t DR x kx A B Hwf HAB). by destruct B.
  - rewrite ub_list_lb_list_None by done. by rewrite bool_decide_false by (by intros ?).
Qed.

(** C4: on a well-formed set, [lower_bound(key)] returns the first node of
    the in-order sequence whose key is not less than [key], and
    [upper_bound(key)] the first whose key is greater than [key]; each
    returns [end()] when there is no such node. *)
Theorem lower_bound_correct h s t k :
  wf key_of h s t ->
  lower_bound h s k = Some (default s (fst <$> lb_list k (elements t))) /\
  upper_bound h s k = Some (default s (fst <$> ub_list k (elements t))).
Proof. apply bounds_spec. Qed.

(** [operator++] on the iterator of a node. *)
Lemma incr_spec h s t A x k B :
  wf key_of h s t -> elements t = A ++ (x, k) :: B ->
  incr h x = Some (default s (fst <$> head B)).
Proof.
  intros Hwf Ht. unfold incr. rewrite (advance_spec h s t DR x k A B Hwf Ht). by destruct B.
Qed.

(** [operator--] on the iterator of a node. *)
Lemma decr_spec h s t A x k B :
  wf key_of h s t -> elements t = A ++ (x, k) :: B ->
  decr h x = fst <$> last A.
Proof.
  intros Hwf Ht. unfold decr.
  rewrite (advance_spec h s t DL x k (reverse B) (reverse A) Hwf).
  - rewrite <-head_reverse. by destruct (reverse A).
  - simpl. rewrite Ht, reverse_app, reverse_cons. by rewrite <-app_assoc.
Qed.

(** [begin()] refines the head of the sequence. *)
Lemma begin_spec h s t :
  wf key_of h s t -> begin h s = Some (default s (fst <$> head (elements t))).
Proof.
  intros Hwf. pose proof Hwf as (sn & Hs & _ & _ & Hrep & _).
  pose proof (wf_height _ _ _ _ Hwf).
  unfold begin. simpl. rewrite Hs. simpl.
  destruct (lchild sn) as [z|] eqn:Hl.
  - rewrite (descend_spec h DL t s z) by (done || lia). simpl.
    destruct t as [|l x k r]; [simpl in Hrep; congruence|].
    by destruct (elements (Node l x k r)) eqn:E; [apply (seq_node_ne_nil DR) in E|].
  - destruct t; [done|simpl in Hrep; naive_solver].
Qed.

(** [operator--] on [end()]. *)
Lemma decr_end_spec h s t : wf key_of h s t -> decr h s = fst <$> last (elements t).
Proof.
  intros Hwf. pose proof Hwf as (sn & Hs & Hsp & _ & Hrep & _).
  pose proof (wf_height _ _ _ _ Hwf).
  unfold decr, advance. rewrite Hs. cbn -[descend ascend].
  destruct (lchild sn) as [z|] eqn:Hl.
  - rewrite (descend_spec h DR t s z) by (done || lia). simpl. by rewrite head_reverse.
  - destruct t; [|simpl in Hrep; naive_solver]. simpl. rewrite Hs. simpl. by rewrite Hsp.
Qed.

(** C27: the iterator walks the in-order sequence: [begin()] is its first
    node ([end()] on an empty set), [operator--] on [end()] reaches its
    last node, and on the iterator of a node the postfix [operator++(int)]
    returns the node and steps to the next node ([end()] after the last
    one), the postfix [operator--(int)] returns the node and steps to the
    previous one (the null iterator before the first one, as
    decrementing [begin()] is undefined); the prefix forms are their
    steps. *)
Theorem iterator_correct h s t :
  wf key_of h s t ->
  begin h s = Some (default s (fst <$> head (elements t))) /\
  decr h s = fst <$> last (elements t) /\
  (forall A x k B, elements t = A ++ (x, k) :: B ->
     incr_post h x = Some (x, default s (fst <$> head B)) /\
     decr_post h x = (λ e, (x, e.1)) <$> last A).
Proof.
  intros Hwf. split_and!; [exact (begin_spec h s t Hwf)|exact (decr_end_spec h s t Hwf)|].
  intros A x k B Ht. unfold incr_post, decr_post.
  rewrite (incr_spec h s t A x k B Hwf Ht), (decr_spec h s t A x k B Hwf Ht).
  split; [done|]. by destruct (last A).
Qed.

End IntrusiveSet.

End intrusive_set.
Export intrusive_set.

(** ** Concrete runs

    A set of [Z] keys whose nodes live at locations 2-5 and whose sentinel
    is at 1; [ex_heap3] holds the keys 5, 2, 8 inserted in that order, and
    [ex_heap] also holds 6. *)
Definition ex_keys : gmap loc Z := {[2%positive := 5%Z; 3%positive := 2%Z;
                                    4%positive := 8%Z; 5%positive := 6%Z]}.
Definition ex_key (l : loc) : option Z := ex_keys !! l.
Definition ex_heap0 : heap :=
  {[1%positive := null_node; 2%positive := null_node; 3%positive := null_node;
    4%positive := null_node; 5%positive := null_node]}.

Definition ex_heap3 : heap := Eval vm_compute in
  match (insert ex_key 1 2 false ;;; insert ex_key 1 3 false ;;; insert ex_key 1 4 false)
          ex_heap0 with
  | Some (_, h) => h
  | None => ∅
  end.
Definition ex_tree3 : tree Z := Eval vm_compute in set_tree ex_key ex_heap3 1.

Definition ex_heap : heap := Eval vm_compute in
  match insert ex_key 1 5 false ex_heap3 with Some (_, h) => h | None => ∅ end.
Definition ex_tree : tree Z := Eval vm_compute in set_tree ex_key ex_heap 1.

Lemma lower_bound_correct_witness :
  lower_bound ex_key ex_heap 1 6%Z = Some 5%positive /\
  upper_bound ex_key ex_heap 1 6%Z = Some 4%positive.
Proof.
  destruct (lower_bound_correct ex_key ex_heap 1 ex_tree 6%Z) as [-> ->];
    [apply wf_check_sound; vm_compute; reflexivity|split; reflexivity].
Defined.

Lemma iterator_correct_witness :
  begin ex_heap 1 = Some 3%positive /\ decr ex_heap 1 = Some 4%positive /\
  incr_post ex_heap 2 = Some (2%positive, 5%positive) /\
  decr_post ex_heap 2 = Some (2%positive, 3%positive).
Proof.
  destruct (iterator_correct ex_key ex_heap 1 ex_tree) as (Hb & He & Hstep);
    [apply wf_check_sound; vm_compute; reflexivity|].
  destruct (Hstep [(3%positive, 2%Z)] 2%positive 5%Z [(5%positive, 6%Z); (4%positive, 8%Z)]) as [Hi Hd];
    [vm_compute; reflexivity|].
  rewrite Hb, He, Hi, Hd. split_and!; reflexivity.
Defined.

Lemma find_correct_witness : find ex_key ex_heap 1 6%Z = Some 5%positive.
Proof.
  rewrite (find_correct ex_key ex_heap 1 ex_tree 6%Z); [reflexivity|].
  apply wf_check_sound. vm_compute. reflexivity.
Defined.

Lemma insert_correct_witness :
  exists h', insert ex_key 1 5 false ex_heap3 = Some (5%positive, h') /\
             wf ex_key h' 1 (ins 5 6%Z ex_tree3).
Proof.
  destruct (insert_correct ex_key ex_heap3 1 ex_tree3 5 6%Z null_node false)
    as (h' & Hins & Hwf & _).
  - apply wf_check_sound. vm_compute. reflexivity.
  - reflexivity.
  - reflexivity.
  - reflexivity.
  - reflexivity.
  - discriminate.
  - decide_by_compute.
  - apply Forall_forall. vm_compute. repeat constructor.
  - exists h'. split; [exact Hins|exact Hwf].
Defined.

Lemma insert_duplicate_witness : insert ex_key 1 2 false ex_heap = Some (1%positive, ex_heap).
Proof.
  apply (insert_duplicate ex_key ex_heap 1 ex_tree 2 5%Z (2%positive, 5%Z)).
  - apply wf_check_sound. vm_compute. reflexivity.
  - reflexivity.
  - decide_by_compute.
  - reflexivity.
Defined.
