(* ===== verification/SetErase.v ===== *)
(** * Correctness of [intrusive_set::erase] (src/intrusive_set.h, lines 209-229)

    The node to erase is the root of the subtree at some context [c] of
    the set's tree.  Each block of the code is specified on the heap:
    [detach_pred] (the predecessor leaves its place and takes the left
    subtree), [adopt_right] (it takes the right subtree), [set_child]
    (it takes the erased node's place) and [clear_links].  The composition
    replaces the subtree at [c] by one holding the same entries without
    the erased node, which [wf_replace] turns into the well-formedness of
    the new set. *)

From S2P Require Import Prelude Node Tree Repr IntrusiveSet.

Open Scope st_scope.

Section SetErase.
Context {K : Type} `{Compare K}.
Variable key_of : loc -> option K.
Implicit Types (t l r : tree K) (k : K) (x y s m : loc) (h : heap).

Lemma clear_links_spec h x nx :
  h !! x = Some nx -> clear_links x h = Some (tt, <[x := null_node]> h).
Proof.
  intros Hx. unfold clear_links.
  rewrite (st_bind_Some _ _ _ _ _ (store_parent_Some h x None nx Hx)).
  rewrite (st_bind_Some _ _ _ _ _ (store_child_Some DR _ x None _ (lookup_insert_eq _ _ _))).
  rewrite (store_child_Some DL _ x None _ (lookup_insert_eq _ _ _)).
  by rewrite !insert_insert_eq.
Qed.

(** [new_node->right = node->right; node->right->parent = new_node;] *)
Lemma adopt_right_spec h x nx m nm r :
  h !! x = Some nx -> h !! m = Some nm ->
  rep key_of h r x (rchild nx) -> r <> Leaf -> NoDup (locs r) -> m ∉ locs r ->
  exists h', adopt_right x m h = Some (tt, h') /\
    h' !! m = Some (with_child DR (rchild nx) nm) /\
    rep key_of h' r m (rchild nx) /\
    (forall y, y <> m -> y ∉ locs r -> h' !! y = h !! y).
Proof.
  intros Hx Hm Hr Hrn Hnd Hmr. unfold adopt_right.
  rewrite (st_bind_Some _ _ _ _ _ (load_Some _ _ _ Hx)).
  rewrite (st_bind_Some _ _ _ _ _ (store_child_Some DR h m (rchild nx) nm Hm)).
  destruct (rchild nx) as [z|] eqn:Hz; [|destruct r; [done|by destruct Hr]].
  assert (z ∈ locs r) as Hzr by (apply root_in_locs; by rewrite <-(rep_root _ _ _ _ _ Hr)).
  assert (z <> m) as Hzm by (intros ->; by apply Hmr).
  destruct (rep_in_heap _ _ _ _ _ _ Hr Hzr) as [nz Hnz].
  rewrite (store_parent_Some _ z (Some m) nz) by by rewrite lookup_insert_ne.
  eexists. split; [done|]. split_and!.
  - by rewrite lookup_insert_ne, lookup_insert_eq.
  - apply (rep_reparent _ h _ r x m (Some z)); [done|done| |].
    + intros y Hy Hyz. rewrite !lookup_insert_ne; [done| |congruence].
      intros ->. by apply Hmr.
    + intros n nn [= <-] Hn. rewrite lookup_insert_eq. congruence.
  - intros y Hym Hyr. rewrite !lookup_insert_ne; [done|done|]. by intros ->.
Qed.

(** [node_t::set_child(new_node, new_node->left)] on a predecessor that is
    not [node]'s left child: its left subtree takes its place. *)
Lemma splice_pred_spec h x nx f cl lm m km nm :
  h !! m = Some nm ->
  rep key_of h (plug (f :: cl) (Node lm m km Leaf)) x (lchild nx) ->
  NoDup (locs (plug (f :: cl) (Node lm m km Leaf))) ->
  x ∉ locs (plug (f :: cl) (Node lm m km Leaf)) ->
  exists h1, set_child m (lchild nm) h = Some (tt, h1) /\
    rep key_of h1 (plug (f :: cl) lm) x (lchild nx) /\ is_Some (h1 !! hole_parent x (f :: cl)) /\
    (forall y, y <> hole_parent x (f :: cl) -> y ∉ locs lm -> h1 !! y = h !! y).
Proof.
  intros Hm Hrep Hnd Hxl.
  pose proof (rep_plug_sub _ _ _ _ _ _ Hrep) as (_ & _ & nm' & Hm' & Hpar & Hlm & _).
  rewrite Hm in Hm'. injection Hm' as <-.
  pose proof Hnd as Hnd'. rewrite locs_plug, NoDup_app in Hnd'.
  destruct Hnd' as (Hndc & Hdis & (Hndlm & _ & Hmlm & _ & _)%NoDup_locs_node).
  set (mp := hole_parent x (f :: cl)) in *.
  assert (mp ∈ ctx_locs (f :: cl)) as Hmp by (by apply hole_parent_in).
  assert (mp ∉ locs (Node lm m km Leaf)) as Hmpn by (by apply Hdis).
  apply not_elem_of_locs_node in Hmpn as (Hmplm & Hmpm & _).
  destruct (rep_plug_hole _ _ _ _ _ _ Hrep Hnd ltac:(done)) as (nmp & Hnmp & Hd & Ho).
  assert (forall y, lchild nm = Some y -> y ∈ locs lm) as Hlmroot.
  { intros y Hy. apply root_in_locs. by rewrite <-(rep_root _ _ _ _ _ Hlm). }
  destruct (set_child_frame h m nm mp nmp (hole_dir (f :: cl)) (lchild nm))
    as (h1 & Hset & Hmp1 & Hnew1 & Hsame1); try done.
  { apply Ho. simpl. rewrite elem_of_locs_node. auto. }
  { intros n Hn. split; [by apply (rep_in_heap _ _ _ _ _ _ Hlm), Hlmroot|].
    intros ->. by apply Hmplm, Hlmroot. }
  assert (forall y, y <> mp -> y ∉ locs lm -> h1 !! y = h !! y) as Hsame1'.
  { intros y Hy Hylm. apply Hsame1; [done|]. intros Hn. by apply Hylm, Hlmroot. }
  exists h1. split_and!; [done| |by eexists|done].
  apply (rep_plug_replace _ h h1 (f :: cl) (Node lm m km Leaf) lm x (lchild nx) (lchild nm));
    [done|done| |intros _; by exists nmp|].
  - intros y Hy Hymp. apply Hsame1'; [done|]. intros Hylm.
    apply (Hdis y Hy), elem_of_locs_node. auto.
  - apply (rep_reparent _ h h1 lm m mp (lchild nm)); [done|done| |done].
    intros y Hy Hne. apply Hsame1; [intros ->; by apply Hmplm|done].
Qed.

(** [if (new_node->parent != node) {...}]: the predecessor [m], the last
    node of the left subtree [plug cl (Node lm m km Leaf)], is replaced
    there by its left subtree [lm], and takes the left subtree that
    remains. *)
(** [detach_pred] when the predecessor [m] is not the left child of
    [x]: [m]'s left subtree takes its place, and [m] takes over [x]'s left
    subtree. *)
Lemma detach_pred_far_spec h x nx f cl' lm m km nm :
  h !! x = Some nx -> h !! m = Some nm ->
  rep key_of h (plug (f :: cl') (Node lm m km Leaf)) x (lchild nx) ->
  NoDup (locs (plug (f :: cl') (Node lm m km Leaf))) -> x ∉ locs (plug (f :: cl') (Node lm m km Leaf)) ->
  exists h' nm', detach_pred x m nm h = Some (tt, h') /\
    h' !! m = Some nm' /\ lchild nm' = root (plug (f :: cl') lm) /\
    rep key_of h' (plug (f :: cl') lm) m (root (plug (f :: cl') lm)) /\
    (forall y, y ∉ locs (plug (f :: cl') (Node lm m km Leaf)) -> h' !! y = h !! y).
Proof.
  intros Hx Hm Hrep Hnd Hxl.
  pose proof (rep_plug_sub _ _ _ _ _ _ Hrep) as (_ & _ & nm' & Hm' & Hpar & Hlm & _).
  rewrite Hm in Hm'. injection Hm' as <-.
  pose proof Hnd as Hnd'. rewrite locs_plug, NoDup_app in Hnd'.
  destruct Hnd' as (Hndc & Hdis & (Hndlm & _ & Hmlm & _ & _)%NoDup_locs_node).
  assert (forall y, y ∈ locs lm -> y ∈ locs (plug (f :: cl') (Node lm m km Leaf))) as Hinlm.
  { intros y Hy. rewrite locs_plug, elem_of_app, elem_of_locs_node. auto. }
  assert (m ∈ locs (plug (f :: cl') (Node lm m km Leaf))) as Hinm.
  { rewrite locs_plug, elem_of_app, elem_of_locs_node. auto. }
  set (mp := hole_parent x (f :: cl')) in *.
  assert (mp ∈ ctx_locs (f :: cl')) as Hmp by (by apply hole_parent_in).
  assert (mp <> x) as Hmpx by (intros Hmx; apply Hxl; rewrite <-Hmx; by apply ctx_locs_plug).
  destruct (splice_pred_spec h x nx f cl' lm m km nm Hm Hrep Hnd Hxl)
    as (h1 & Hset & Hrep1 & Hmp1 & Hsame1').
  fold mp in Hsame1'.
  assert (mp ∉ locs (Node lm m km Leaf)) as Hmpn by (by apply Hdis).
  apply not_elem_of_locs_node in Hmpn as (_ & Hmpm & _).
  unfold detach_pred. rewrite bool_decide_true by congruence.
  rewrite (st_bind_Some _ _ _ _ _ Hset).
  assert (h1 !! x = Some nx) as Hx1.
  { rewrite Hsame1'; [done|done|]. intros Hy. by apply Hxl, Hinlm. }
  rewrite (st_bind_Some _ _ _ _ _ (load_Some _ _ _ Hx1)).
  assert (h1 !! m = Some nm) as Hm1 by (rewrite Hsame1'; [done|congruence|done]).
  rewrite (st_bind_Some _ _ _ _ _ (store_child_Some DL h1 m (lchild nx) nm Hm1)).
  set (ll := fr_loc f) in *.
  assert (lchild nx = Some ll) as Hlx.
  { rewrite (rep_root _ _ _ _ _ Hrep). apply root_plug_cons. }
  rewrite Hlx.
  assert (ll ∈ ctx_locs (f :: cl')) as Hll by (simpl; by left).
  assert (ll <> m) as Hllm by (intros Hlm'; apply (Hdis ll Hll); rewrite Hlm';
                               apply elem_of_locs_node; auto).
  assert (is_Some (h1 !! ll)) as [nll Hnll].
  { destruct (decide (ll = mp)) as [->|Hne]; [done|].
    rewrite Hsame1'; [|done|intros ?; by apply (Hdis ll Hll), elem_of_locs_node; left].
    by apply (rep_in_heap _ _ _ _ _ _ Hrep), ctx_locs_plug. }
  rewrite (store_parent_Some _ ll (Some m) nll) by by rewrite lookup_insert_ne.
  do 2 eexists. split; [done|]. rewrite root_plug_cons. split_and!.
  + by rewrite lookup_insert_ne, lookup_insert_eq.
  + done.
  + rewrite Hlx in Hrep1. apply (rep_reparent _ h1 _ _ x m (Some ll)); [done| | |].
    * rewrite locs_plug, NoDup_app. split_and!; [done| |done].
      intros y Hy Hylm. apply (Hdis y Hy), elem_of_locs_node. auto.
    * intros y Hy Hyll. rewrite !lookup_insert_ne; [done| |congruence].
      intros <-. rewrite locs_plug, elem_of_app in Hy. destruct Hy as [Hy|Hy].
      -- apply (Hdis m Hy), elem_of_locs_node. auto.
      -- by apply Hmlm.
    * intros n nn [= <-] Hn. rewrite lookup_insert_eq. congruence.
  + intros y Hy. assert (y <> ll) by (intros ->; by apply Hy, ctx_locs_plug).
    rewrite !lookup_insert_ne; [|congruence|intros ->; by apply Hy].
    apply Hsame1'; [intros ->; by apply Hy, ctx_locs_plug|].
    intros Hylm. by apply Hy, Hinlm.
Qed.

Lemma detach_pred_spec h x nx cl lm m km nm :
  h !! x = Some nx -> h !! m = Some nm ->
  rep key_of h (plug cl (Node lm m km Leaf)) x (lchild nx) ->
  NoDup (locs (plug cl (Node lm m km Leaf))) -> x ∉ locs (plug cl (Node lm m km Leaf)) ->
  exists h' nm', detach_pred x m nm h = Some (tt, h') /\
    h' !! m = Some nm' /\ lchild nm' = root (plug cl lm) /\
    rep key_of h' (plug cl lm) m (root (plug cl lm)) /\
    (forall y, y ∉ locs (plug cl (Node lm m km Leaf)) -> h' !! y = h !! y).
Proof.
  intros Hx Hm Hrep Hnd Hxl. destruct cl as [|f cl'].
  - pose proof (rep_plug_sub _ _ _ _ _ _ Hrep) as (_ & _ & nm' & Hm' & Hpar & Hlm & _).
    rewrite Hm in Hm'. injection Hm' as <-.
    simpl in *. unfold detach_pred. rewrite bool_decide_false by (intros Hne; by apply Hne).
    exists h, nm. split_and!; [done|done|by rewrite (rep_root _ _ _ _ _ Hlm)| |done].
    by rewrite <-(rep_root _ _ _ _ _ Hlm).
  - exact (detach_pred_far_spec h x nx f cl' lm m km nm Hx Hm Hrep Hnd Hxl).
Qed.

(** What well-formedness says of the subtree at a context. *)
Lemma wf_plug_facts h s c t :
  wf key_of h s (plug c t) ->
  NoDup (locs t) /\ s ∉ locs t /\ hole_parent s c ∉ locs t /\
  (hole_parent s c = s \/ hole_parent s c ∈ locs (plug c t)) /\
  (forall y, y ∈ ctx_locs c -> y ∉ locs t).
Proof.
  intros (sn & _ & _ & _ & _ & Hnd & Hsn & _).
  assert (s ∉ locs t) as Hst by (intros Hs; by apply Hsn, plug_locs_sub).
  rewrite locs_plug, NoDup_app in Hnd. destruct Hnd as (_ & Hdis & Hnd).
  destruct c as [|f c]; [simpl; split_and!; auto; by intros ? ?%elem_of_nil|].
  pose proof (hole_parent_in s (f :: c) ltac:(done)) as Hhp.
  split_and!; [done|done|by apply Hdis|right; by apply ctx_locs_plug|done].
Qed.

(** The end of [erase]: the subtree at the context has been replaced by
    [t'], which holds the entries of [l] and [r] in order; the heap [h1]
    differs from [h] only inside the old subtree and at the hole's slot.
    Clearing [x]'s links leaves a well-formed set. *)
Lemma erase_finish h h1 s c l x k r t' q' :
  wf key_of h s (plug c (Node l x k r)) ->
  elements t' = elements l ++ elements r ->
  (forall y, y ∉ locs (Node l x k r) -> y <> hole_parent s c -> h1 !! y = h !! y) ->
  (exists np, h !! hole_parent s c = Some np /\
     h1 !! hole_parent s c = Some (with_child (hole_dir c) q' np)) ->
  rep key_of h1 t' (hole_parent s c) q' ->
  wf key_of (<[x := null_node]> h1) s (plug c t') /\
  (forall y, y ∉ s :: locs (plug c (Node l x k r)) -> <[x := null_node]> h1 !! y = h !! y).
Proof.
  intros Hwf Ht' Hsame Hhole Hrep'.
  pose proof (wf_plug_facts _ _ _ _ Hwf) as (HndT & HsT & HhpT & Hhp & Hdis).
  assert (forall y, y ∉ locs (Node l x k r) -> x <> y) as Hnx.
  { intros y Hy ->. apply Hy, elem_of_locs_node. auto. }
  assert (x ∉ locs t') as Hxt.
  { apply NoDup_locs_node in HndT as (_ & _ & Hxl & Hxr & _).
    unfold locs. rewrite Ht', fmap_app, elem_of_app. intros [?|?]; auto. }
  pose proof Hwf as (_ & _ & _ & _ & _ & Hnd & Hsn & Hbst).
  destruct (plug_remove c l x k r t' Ht') as (A & B & HAB & HAB').
  unfold locs, bst in Hnd, Hsn, Hbst. rewrite HAB in Hnd, Hsn, Hbst.
  destruct (remove_facts A B (x, k) s Hnd Hsn Hbst) as (Hnd' & Hsn' & Hbst').
  split.
  - apply (wf_replace _ h _ s c (Node l x k r) t' q'); [done| | | | | |];
      try (unfold locs, bst; by rewrite HAB').
    + intros y Hy Hyhp.
      assert (y ∉ locs (Node l x k r)) as HyT by (destruct Hy as [->|Hy]; [done|by apply Hdis]).
      rewrite lookup_insert_ne by auto. by apply Hsame.
    + destruct Hhole as (np & ? & ?). exists np. by rewrite lookup_insert_ne by auto.
    + by apply rep_frame_insert.
  - intros y (Hys & Hy)%not_elem_of_cons.
    assert (y ∉ locs (Node l x k r)) as HyT by (intros ?; by apply Hy, plug_locs_sub).
    rewrite lookup_insert_ne by auto. apply Hsame; [done|].
    intros ->. destruct Hhp as [?|?]; auto.
Qed.

(** [erase] of a node with at most one child: that child (or null) takes
    its place. *)
Lemma erase_one_spec h s c l x k r nx t' :
  wf key_of h s (plug c (Node l x k r)) -> h !! x = Some nx ->
  elements t' = elements l ++ elements r -> rep key_of h t' x (root t') ->
  exists h', (set_child x (root t') ;;; clear_links x ;;; st_ret x) h = Some (x, h') /\
    wf key_of h' s (plug c t') /\ h' !! x = Some null_node /\
    (forall y, y ∉ s :: locs (plug c (Node l x k r)) -> h' !! y = h !! y).
Proof.
  intros Hwf Hx Ht' Hrep'.
  pose proof (wf_plug_facts _ _ _ _ Hwf) as (HndT & HsT & HhpT & _ & _).
  pose proof Hwf as (sn & _ & _ & _ & Hrep & _).
  pose proof (rep_plug_sub _ _ _ _ _ _ Hrep) as (_ & _ & nx' & Hx' & Hpx & _).
  rewrite Hx in Hx'. injection Hx' as <-.
  destruct (wf_hole _ _ _ _ _ Hwf) as (nP & HP & Hd & Ho).
  apply NoDup_locs_node in HndT as (Hndl & Hndr & Hxl & Hxr & Hlr).
  assert (locs t' = locs l ++ locs r) as Hlocs by (unfold locs; by rewrite Ht', fmap_app).
  assert (forall y, y ∈ locs t' -> y ∈ locs (Node l x k r)) as Hin.
  { intros y. rewrite Hlocs, elem_of_app, elem_of_locs_node. tauto. }
  assert (NoDup (locs t')) as Hnd' by (rewrite Hlocs; apply NoDup_app; auto).
  assert (x ∉ locs t') as Hxt by (rewrite Hlocs, elem_of_app; intros [?|?]; auto).
  assert (forall y, root t' = Some y -> y ∈ locs (Node l x k r)) as Hroot.
  { intros y Hy. by apply Hin, root_in_locs. }
  destruct (set_child_frame h x nx (hole_parent s c) nP (hole_dir c) (root t'))
    as (h1 & Hset & Hhp1 & Hnew1 & Hsame1); try done.
  { apply Ho. apply elem_of_locs_node. auto. }
  { intros n Hn. split; [by apply (rep_in_heap _ _ _ _ _ _ Hrep'), root_in_locs|].
    intros ->. by apply HhpT, Hroot. }
  assert (h1 !! x = Some nx) as Hx1.
  { rewrite Hsame1; [done|intros Hxh; apply HhpT; rewrite <-Hxh; apply elem_of_locs_node; auto|].
    intros Hr. by apply Hxt, root_in_locs. }
  exists (<[x := null_node]> h1).
  st_seq Hset. st_seq (clear_links_spec _ _ _ Hx1). split; [done|].
  destruct (erase_finish h h1 s c l x k r t' (root t')) as [Hwf' Hframe]; try done.
  - intros y Hy Hyhp. apply Hsame1; [done|]. intros Hr. by apply Hy, Hroot.
  - by exists nP.
  - apply (rep_reparent _ h _ t' x _ (root t')); [done|done| |done].
    intros y Hy Hne. apply Hsame1; [intros ->; by apply HhpT, Hin|done].
  - split_and!; [done|by rewrite lookup_insert_eq|done].
Qed.

(** The [while (new_node->right)] loop from the root of a nonempty left
    subtree stops at its last node, which is the rightmost one. *)
Lemma pred_locate h l x ll :
  rep key_of h l x (Some ll) -> NoDup (locs l) ->
  exists cl a m km nm, l = plug cl (Node a m km Leaf) /\
    descend h (S (size h)) DR ll = Some m /\ h !! m = Some nm /\ key_of m = Some km /\
    elements l = elements (plug cl a) ++ [(m, km)].
Proof.
  intros Hl Hndl.
  pose proof (descend_spec _ h DR l x ll (S (size h)) Hl
                (height_lt_size _ _ _ _ _ Hl Hndl)) as Hdesc.
  simpl in Hdesc. rewrite head_reverse in Hdesc.
  destruct (last (elements l)) as [[m km]|] eqn:Hlast;
    [|apply last_None, elements_nil in Hlast as ->; simpl in Hl; discriminate].
  apply last_Some in Hlast as (L0 & HL0).
  destruct (plug_locate DL l (m, km)) as (cl & a & b & Hcl).
  { rewrite HL0. apply elem_of_app. right. by left. }
  simpl in Hcl. rewrite Hcl in Hndl, HL0.
  destruct (plug_last cl a m km b L0 Hndl HL0) as [-> Hl']. subst l.
  pose proof (rep_plug_sub _ _ _ _ _ _ Hl) as (_ & Hkm & nm & Hm & _ & _).
  exists cl, a, m, km, nm. split_and!; [done|done|done|done|]. by rewrite HL0, Hl'.
Qed.

(** [erase] of the node at the hole of context [c]: the subtree is
    replaced by one holding the node's two subtrees in order, the node's
    links are cleared, and nothing outside the set changes. *)
(** The predecessor [m] found by [pred_locate] in the left subtree
    [plug cl (Node a m km Leaf)]: it is a node of the subtree, the nodes
    of the subtree without it ([plug cl a]) are nodes of the subtree, and
    [m] is not one of them. *)
Lemma pred_locs cl (a : tree K) m km :
  NoDup (locs (plug cl (Node a m km Leaf))) ->
  m ∈ locs (plug cl (Node a m km Leaf)) /\
  (forall y, y ∈ locs (plug cl a) -> y ∈ locs (plug cl (Node a m km Leaf))) /\
  m ∉ locs (plug cl a).
Proof.
  intros Hnd. split_and!.
  - apply plug_locs_sub, elem_of_locs_node. auto.
  - intros y. apply plug_locs_mono. intros z Hz. apply elem_of_locs_node. auto.
  - rewrite locs_plug. rewrite locs_plug, NoDup_app in Hnd.
    destruct Hnd as (_ & Hdis' & (_ & _ & Hmlm & _)%NoDup_locs_node).
    rewrite elem_of_app. intros [Hm'|Hm']; [|done].
    apply (Hdis' m Hm'), elem_of_locs_node. auto.
Qed.

(** [erase] of a node with two children: its in-order predecessor, the
    last node of its left subtree, is detached and takes its place. *)
Lemma erase_two_spec h s c l x k r nx ll rr :
  wf key_of h s (plug c (Node l x k r)) -> h !! x = Some nx ->
  lchild nx = Some ll -> rchild nx = Some rr ->
  exists t' h',
    ((new_node <- st_lift (fun h0 => descend h0 (S (size h0)) DR ll) ;;
      nn <- load new_node ;;
      detach_pred x new_node nn ;;;
      adopt_right x new_node ;;;
      set_child x (Some new_node)) ;;; clear_links x ;;; st_ret x) h = Some (x, h') /\
    elements t' = elements l ++ elements r /\ wf key_of h' s (plug c t') /\
    h' !! x = Some null_node /\
    (forall y, y ∉ s :: locs (plug c (Node l x k r)) -> h' !! y = h !! y).
Proof.
  intros Hwf Hx0 Hll Hrr.
  pose proof (wf_plug_facts _ _ _ _ Hwf) as (HndT & HsT & HhpT & Hhp & Hdis).
  pose proof Hwf as (sn & Hs & _ & _ & Hrep & Hnd & _ & _).
  pose proof (rep_plug_sub _ _ _ _ _ _ Hrep) as (_ & Hk & nx' & Hx & Hpx & Hl & Hr).
  rewrite Hx0 in Hx. injection Hx as <-. pose proof Hx0 as Hx. rewrite Hll in Hl. rewrite Hrr in Hr.
  pose proof HndT as (Hndl & Hndr & Hxl & Hxr & Hlr)%NoDup_locs_node.
  (* [new_node]: the last node of the left subtree *)
  destruct (pred_locate h l x ll Hl Hndl) as (cl & a & m & km & nm & -> & Hdesc & Hm & Hkm & HelL).
  destruct (pred_locs cl a m km Hndl) as (HmL & HaL & Hma).
  set (L := plug cl (Node a m km Leaf)) in *.
  assert (x <> m) as Hxm by (intros ->; contradiction).
  destruct (detach_pred_spec h x nx cl a m km nm Hx Hm ltac:(by rewrite Hll) Hndl Hxl)
    as (h3 & nm3 & Hdet & Hm3 & Hlc3 & Hrep3 & Hsame3).
  assert (rep key_of h3 r x (rchild nx)) as Hr3.
  { rewrite Hrr. eapply rep_frame; [done|]. intros y Hy. apply Hsame3. intros Hy'.
    by apply (Hlr y Hy'). }
  destruct (adopt_right_spec h3 x nx m nm3 r) as (h5 & Had & Hm5 & Hr5 & Hsame5);
    [by rewrite Hsame3|done|done|by intros ->|done|by apply Hlr|].
  (* the hole's slot *)
  destruct (wf_hole _ _ _ _ _ Hwf) as (nP & HP & Hd & Ho).
  apply not_elem_of_locs_node in HhpT as (HhpL & Hhpx & Hhpr).
  assert (hole_parent s c <> m) as Hhpm by (intros Heq; apply HhpL; by rewrite Heq).
  assert (h5 !! hole_parent s c = Some nP) as HP5 by (rewrite Hsame5, Hsame3; done).
  destruct (set_child_frame h5 x nx (hole_parent s c) nP (hole_dir c) (Some m))
    as (h6 & Hset & Hhp6 & Hm6 & Hsame6); try done.
  { rewrite Hsame5, Hsame3; [done|done|done|done]. }
  { apply Ho, elem_of_locs_node. auto. }
  { intros n [= <-]. split; [by eexists|]. by apply not_eq_sym. }
  assert (h6 !! x = Some nx) as Hx6.
  { rewrite Hsame6, Hsame5, Hsame3; [done|done|done|done|done|congruence]. }
  assert (forall y, y <> hole_parent s c -> y <> m -> y ∉ locs r -> h6 !! y = h5 !! y)
    as Hsame6'.
  { intros y Hy Hym _. apply Hsame6; [done|congruence]. }
  exists (Node (plug cl a) m km r), (<[x := null_node]> h6).
  st_seq (st_lift_Some (fun h0 => descend h0 (S (size h0)) DR ll) h m Hdesc).
  st_seq (load_Some _ _ _ Hm). st_seq Hdet. st_seq Had. st_seq Hset.
  st_seq (clear_links_spec _ _ _ Hx6).
  assert (elements (Node (plug cl a) m km r) = elements L ++ elements r) as Hel.
  { simpl. rewrite HelL. by rewrite <-app_assoc. }
  destruct (erase_finish h h6 s c L x k r (Node (plug cl a) m km r) (Some m))
    as [Hwf' Hframe]; try done.
  - intros y Hy Hyhp. apply not_elem_of_locs_node in Hy as (HyL & _ & Hyr).
    assert (y <> m) by (intros ->; contradiction).
    rewrite Hsame6', Hsame5, Hsame3; done.
  - by exists nP.
  - split_and!; [done|done|]. exists (with_parent (Some (hole_parent s c)) (with_child DR (rchild nx) nm3)).
    split_and!; [by apply Hm6|done| |].
    + simpl. rewrite Hlc3. eapply rep_frame; [done|]. intros y Hy.
      assert (y <> m) by (intros ->; contradiction).
      assert (y ∉ locs r) by (intros Hyr; exact (Hlr y (HaL y Hy) Hyr)).
      rewrite Hsame6', Hsame5; [done|done|done|intros ->; by apply HhpL, HaL|done|done].
    + simpl. eapply rep_frame; [done|]. intros y Hy.
      apply Hsame6; [intros ->; by apply Hhpr|]. intros [= Hmy]. subst y. by apply (Hlr m HmL).
  - split_and!; [done|done|done|by rewrite lookup_insert_eq|done].
Qed.

Lemma erase_spec h s c l x k r :
  wf key_of h s (plug c (Node l x k r)) ->
  exists t' h', erase x h = Some (x, h') /\ elements t' = elements l ++ elements r /\
    wf key_of h' s (plug c t') /\ h' !! x = Some null_node /\
    (forall y, y ∉ s :: locs (plug c (Node l x k r)) -> h' !! y = h !! y).
Proof.
  intros Hwf. pose proof Hwf as (sn & Hs & _ & _ & Hrep & _).
  pose proof (rep_plug_sub _ _ _ _ _ _ Hrep) as (_ & _ & nx & Hx & _ & Hl & Hr).
  unfold erase. st_seq (load_Some _ _ _ Hx).
  destruct (lchild nx) as [ll|] eqn:Hll; [destruct (rchild nx) as [rr|] eqn:Hrr|];
    cbv beta iota.
  2:{ destruct r; [|by destruct Hr].
      rewrite (rep_root _ _ _ _ _ Hl).
      destruct (erase_one_spec h s c l x k Leaf nx l) as (h' & Hrun & Hwf' & Hx' & Hfr);
        [done|done|by rewrite app_nil_r|by rewrite <-(rep_root _ _ _ _ _ Hl)|].
      exists l, h'. split_and!; [done|by rewrite app_nil_r|done|done|done]. }
  2:{ destruct l; [|by destruct Hl]. rewrite (rep_root _ _ _ _ _ Hr).
      destruct (erase_one_spec h s c Leaf x k r nx r) as (h' & Hrun & Hwf' & Hx' & Hfr);
        [done|done|done|by rewrite <-(rep_root _ _ _ _ _ Hr)|].
      exists r, h'. split_and!; [done|done|done|done|done]. }
  exact (erase_two_spec h s c l x k r nx ll rr Hwf Hx Hll Hrr).
Qed.

(** [erase] of the iterator of an entry removes exactly that entry from
    the in-order sequence. *)
Lemma erase_seq h s t A x k B :
  wf key_of h s t -> elements t = A ++ (x, k) :: B ->
  exists t' h', erase x h = Some (x, h') /\ wf key_of h' s t' /\ elements t' = A ++ B /\
    h' !! x = Some null_node /\ (forall y, y ∉ s :: locs t -> h' !! y = h !! y).
Proof.
  intros Hwf Ht.
  destruct (plug_locate DL t (x, k)) as (c & l & r & Hc).
  { rewrite Ht. apply elem_of_app. right. by left. }
  simpl in Hc. subst t.
  destruct (erase_spec h s c l x k r Hwf) as (t' & h' & Hrun & Ht' & Hwf' & Hx & Hfr).
  exists (plug c t'), h'. split_and!; [done|done| |done|done].
  destruct (plug_remove c l x k r t' Ht') as (A' & B' & HA & ->).
  pose proof Hwf as (_ & _ & _ & _ & _ & Hnd & _). unfold locs in Hnd. rewrite HA in Hnd.
  rewrite Ht in HA. by destruct (NoDup_fst_split _ _ _ _ _ _ _ Hnd (eq_sym HA)) as (-> & _ & ->).
Qed.

(** C5: [erase(it)] on the iterator of a node of a well-formed set returns
    the node with its three links cleared, and leaves a well-formed set
    whose in-order sequence is the old one without the node; no node
    outside the set changes. *)
Theorem erase_correct h s t A x k B :
  wf key_of h s t -> elements t = A ++ (x, k) :: B ->
  exists t' h', erase x h = Some (x, h') /\ wf key_of h' s t' /\ elements t' = A ++ B /\
    h' !! x = Some null_node /\ (forall y, y ∉ s :: locs t -> h' !! y = h !! y).
Proof. apply erase_seq. Qed.

End SetErase.

(** ** A concrete run

    In the set of [IntrusiveSet] holding 2, 5, 6, 8 (the root, at location
    2, holds 5 and has two children), erasing the root leaves 2, 6, 8. *)
Lemma erase_correct_witness :
  exists t' h', erase 2 ex_heap = Some (2%positive, h') /\ wf ex_key h' 1 t' /\
    elements t' = [(3%positive, 2%Z); (5%positive, 6%Z); (4%positive, 8%Z)].
Proof.
  destruct (erase_correct ex_key ex_heap 1 ex_tree [(3%positive, 2%Z)] 2 5%Z
              [(5%positive, 6%Z); (4%positive, 8%Z)]) as (t' & h' & Hrun & Hwf & Hel & _).
  - apply wf_check_sound. vm_compute. reflexivity.
  - vm_compute. reflexivity.
  - exists t', h'. split_and!; [exact Hrun|exact Hwf|exact Hel].
Defined.
