(* ===== verification/SetMove.v ===== *)
(** * [intrusive_set::swap], the move constructor and the move assignment
    (src/intrusive_set.h, lines 95-120)

    [swap] exchanges the trees of two sets whose sentinels live in the
    same node memory (as the two sets of one tag of two [bimap]s do): the
    sentinels' left pointers are exchanged and each root is pointed back
    to its new sentinel.  The theorem is stated for two well-formed sets
    with disjoint nodes.  The move constructor initialises its sentinel
    pointer to null and then writes through it: it has undefined
    behaviour on every memory, and so has the move assignment operator
    built on it, a self-move apart. *)

From S2P Require Import Prelude Node Tree Repr IntrusiveSet.

Open Scope st_scope.

Section SetMove.
Context {K : Type} `{Compare K}.
Variable key_of : loc -> option K.
Implicit Types (t : tree K) (s y : loc) (h : heap).

(** [if (sentinel->left) sentinel->left->parent = sentinel;] on a
    sentinel whose left pointer holds the tree [t]. *)
Lemma relink_root_spec h s sn t par :
  h !! s = Some sn -> rep key_of h t par (lchild sn) -> NoDup (locs t) ->
  exists h', relink_root s h = Some (tt, h') /\ rep key_of h' t s (lchild sn) /\
    (forall y, lchild sn <> Some y -> h' !! y = h !! y).
Proof.
  intros Hs Hrep Hnd. unfold relink_root. st_seq (load_Some _ _ _ Hs).
  destruct (lchild sn) as [r|] eqn:Hr.
  - assert (r ∈ locs t) as Hrt by (apply root_in_locs; by rewrite <-(rep_root _ _ _ _ _ Hrep)).
    destruct (rep_in_heap _ _ _ _ _ _ Hrep Hrt) as [nr Hnr].
    rewrite (store_parent_Some h r (Some s) nr Hnr). eexists. split; [done|]. split.
    + apply (rep_reparent _ h _ t par s (Some r)); [done|done| |].
      * intros y _ Hy. rewrite lookup_insert_ne; [done|]. intros ->. by apply Hy.
      * intros n nn [= <-] Hn. rewrite lookup_insert_eq. congruence.
    + intros y Hy. rewrite lookup_insert_ne; [done|]. intros ->. by apply Hy.
  - exists h. split; [done|]. split; [|done]. destruct t; [done|by destruct Hrep as [? _]].
Qed.

(** [swap] exchanges the trees of two well-formed sets with distinct
    sentinels and disjoint nodes. *)
Lemma swap_spec h s1 s2 t1 t2 :
  wf key_of h s1 t1 -> wf key_of h s2 t2 -> s1 <> s2 ->
  s1 ∉ locs t2 -> s2 ∉ locs t1 -> (forall y, y ∈ locs t1 -> y ∉ locs t2) ->
  exists h', swap s1 s2 h = Some (tt, h') /\ wf key_of h' s1 t2 /\ wf key_of h' s2 t1 /\
    (forall y, y ∉ s1 :: s2 :: locs t1 ++ locs t2 -> h' !! y = h !! y).
Proof.
  intros (n1 & Hs1 & Hp1 & Hr1 & Hrep1 & Hnd1 & Hs1t1 & Hbst1)
         (n2 & Hs2 & Hp2 & Hr2 & Hrep2 & Hnd2 & Hs2t2 & Hbst2) Hs12 Hs1t2 Hs2t1 Hdis.
  assert (forall y, lchild n1 = Some y -> y ∈ locs t1) as Hroot1.
  { intros y Hy. apply root_in_locs. by rewrite <-(rep_root _ _ _ _ _ Hrep1). }
  assert (forall y, lchild n2 = Some y -> y ∈ locs t2) as Hroot2.
  { intros y Hy. apply root_in_locs. by rewrite <-(rep_root _ _ _ _ _ Hrep2). }
  set (m1 := with_child DL (lchild n2) n1). set (m2 := with_child DL (lchild n1) n2).
  set (h2 := <[s2 := m2]> (<[s1 := m1]> h)).
  assert (forall y, y <> s1 -> y <> s2 -> h2 !! y = h !! y) as Hh2.
  { intros y Hy1 Hy2. unfold h2. by rewrite !lookup_insert_ne by congruence. }
  assert (h2 !! s1 = Some m1) as Hm1.
  { unfold h2. by rewrite lookup_insert_ne, lookup_insert_eq by done. }
  assert (h2 !! s2 = Some m2) as Hm2 by (unfold h2; by rewrite lookup_insert_eq).
  assert (rep key_of h2 t2 s2 (lchild m1)) as Hrep2'.
  { eapply rep_frame; [done|]. intros y Hy. apply Hh2; intros ->; contradiction. }
  destruct (relink_root_spec h2 s1 m1 t2 s2 Hm1 Hrep2' Hnd2) as (h3 & Hrun3 & Hrep3 & Hh3).
  assert (h3 !! s2 = Some m2) as Hm2'.
  { rewrite Hh3; [done|]. intros Hr. apply Hs2t2, Hroot2, Hr. }
  assert (rep key_of h3 t1 s1 (lchild m2)) as Hrep1'.
  { eapply rep_frame; [done|]. intros y Hy. rewrite Hh3, Hh2; [done| | |].
    - intros ->. contradiction.
    - intros ->. contradiction.
    - intros Hr. by apply (Hdis y Hy), Hroot2. }
  destruct (relink_root_spec h3 s2 m2 t1 s1 Hm2' Hrep1' Hnd1) as (h4 & Hrun4 & Hrep4 & Hh4).
  assert (forall y, y ∉ locs t1 -> h4 !! y = h3 !! y) as Hh4'.
  { intros y Hy. apply Hh4. intros Hr. by apply Hy, Hroot1. }
  assert (forall y, y ∉ locs t2 -> h3 !! y = h2 !! y) as Hh3'.
  { intros y Hy. apply Hh3. intros Hr. by apply Hy, Hroot2. }
  exists h4. split_and!.
  - unfold swap. st_seq (load_Some _ _ _ Hs1). cbv zeta.
    st_seq (load_Some _ _ _ Hs2).
    st_seq (store_child_Some DL h s1 (lchild n2) n1 Hs1).
    st_seq (store_child_Some DL (<[s1 := with_child DL (lchild n2) n1]> h) s2 (lchild n1) n2
              ltac:(by rewrite lookup_insert_ne)).
    fold m1 m2 h2. st_seq Hrun3. exact Hrun4.
  - exists m1. rewrite Hh4', Hh3', Hm1 by done. split_and!; try done.
    eapply rep_frame; [done|]. intros y Hy. apply Hh4'. intros ?. by apply (Hdis y).
  - exists m2. rewrite Hh4', Hm2' by done. split_and!; done.
  - intros y (Hy1 & (Hy2 & Hy)%not_elem_of_cons)%not_elem_of_cons.
    rewrite elem_of_app in Hy. rewrite Hh4', Hh3', Hh2; [done|done|done|..]; tauto.
Qed.

(** C10: [swap] of two well-formed sets with distinct sentinels and
    disjoint nodes, in one node memory, leaves each sentinel holding the
    other's tree, both well formed, and changes no other node. *)
Theorem swap_correct h s1 s2 t1 t2 :
  wf key_of h s1 t1 -> wf key_of h s2 t2 -> s1 <> s2 ->
  s1 ∉ locs t2 -> s2 ∉ locs t1 -> (forall y, y ∈ locs t1 -> y ∉ locs t2) ->
  exists h', swap s1 s2 h = Some (tt, h') /\ wf key_of h' s1 t2 /\ wf key_of h' s2 t1 /\
    (forall y, y ∉ s1 :: s2 :: locs t1 ++ locs t2 -> h' !! y = h !! y).
Proof. apply swap_spec. Qed.

End SetMove.

Lemma move_construct_fails (other : loc) (h : heap) : move_construct other h = None.
Proof. unfold move_construct, st_bind, load, st_lift. by destruct (h !! other). Qed.

(** C33: the move constructor writes through the null pointer it has
    just initialised its sentinel with: on every node memory and for every
    source set it has undefined behaviour; so has the move assignment
    operator, which builds its temporary with it, unless it is a self-move,
    which changes nothing. *)
Theorem move_construct_null_deref (s other : loc) (h : heap) :
  move_construct other h = None /\ move_assign false s other h = None /\
  move_assign true s other h = Some (tt, h).
Proof.
  split_and!; [apply move_construct_fails| |done].
  unfold move_assign, st_bind at 1. by rewrite move_construct_fails.
Qed.

(** ** A concrete run

    Two sets of [Z] keys in one node memory: the set of [IntrusiveSet]
    (sentinel 1, nodes 2-5 holding 5, 2, 8, 6) and a set holding 1 and 9
    (sentinel 6, nodes 7 and 8). *)
Definition ex2_keys : gmap loc Z := <[7%positive := 1%Z]> (<[8%positive := 9%Z]> ex_keys).
Definition ex2_key (l : loc) : option Z := ex2_keys !! l.
Definition ex2_heap : heap := Eval vm_compute in
  match (insert ex2_key 6 7 false ;;; insert ex2_key 6 8 false)
          (<[6%positive := null_node]> (<[7%positive := null_node]>
             (<[8%positive := null_node]> ex_heap))) with
  | Some (_, h) => h
  | None => ∅
  end.
Definition ex1_tree : tree Z := Eval vm_compute in set_tree ex2_key ex2_heap 1.
Definition ex2_tree : tree Z := Eval vm_compute in set_tree ex2_key ex2_heap 6.

Lemma swap_correct_witness :
  exists h', swap 1 6 ex2_heap = Some (tt, h') /\
    wf ex2_key h' 1 ex2_tree /\ wf ex2_key h' 6 ex1_tree.
Proof.
  destruct (swap_correct ex2_key ex2_heap 1 6 ex1_tree ex2_tree) as (h' & Hrun & Hw1 & Hw2 & _).
  - apply wf_check_sound. vm_compute. reflexivity.
  - apply wf_check_sound. vm_compute. reflexivity.
  - discriminate.
  - decide_by_compute.
  - decide_by_compute.
  - apply Forall_forall. decide_by_compute.
  - exists h'. split_and!; [exact Hrun|exact Hw1|exact Hw2].
Defined.
