(* ===== verification/SetInterface.v ===== *)
(** * What [bimap] needs of [intrusive_set]

    [bimap] uses its two sets only through their public members:
    [find], [lower_bound], [upper_bound], [begin], [end], the iterator's
    prefix [++] and [--] and its [==]/[!=], [insert(obj, true)] and
    [erase(it)].  The class [OrderedSet] states these operations with the
    promises they make on a well-formed set ([set_wf]): the answers of the
    ordered-set specification read off the in-order sequence ([Tree]),
    the effect of [insert] and [erase] on that sequence, and the frame of
    their heap effects.  Iterators are node locations and [end()] is the
    sentinel's.

    [Bimap] and the files after it take an [OrderedSet] as a section
    context and are proved against its laws only; [intrusive_set_ordered]
    is the instance of the code, each law discharged by a theorem of
    [Repr], [IntrusiveSet] or [SetErase]. *)

From S2P Require Import Prelude Node Tree Repr IntrusiveSet SetErase.

Open Scope st_scope.

Class OrderedSet := {
  set_wf : forall {K : Type} {HK : Compare K}, (loc -> option K) -> heap -> loc -> tree K -> Prop;
  set_find : forall {K : Type} {HK : Compare K}, (loc -> option K) -> heap -> loc -> K -> option loc;
  set_lower_bound : forall {K : Type} {HK : Compare K}, (loc -> option K) -> heap -> loc -> K -> option loc;
  set_upper_bound : forall {K : Type} {HK : Compare K}, (loc -> option K) -> heap -> loc -> K -> option loc;
  set_begin : heap -> loc -> option loc;
  set_end : loc -> loc;
  set_incr : heap -> loc -> option loc;
  set_decr : heap -> loc -> option loc;
  set_iter_eq : loc -> loc -> bool;
  set_iter_neq : loc -> loc -> bool;
  set_insert : forall {K : Type} {HK : Compare K}, (loc -> option K) -> loc -> loc -> bool -> st heap loc;
  set_erase : loc -> st heap loc;

  (** A sentinel whose links are null anchors the empty set. *)
  set_wf_empty {K} {HK : Compare K} (key_of : loc -> option K) h s :
    h !! s = Some null_node -> set_wf key_of h s Leaf;
  (** The nodes of a well-formed set are distinct, other than the
      sentinel, sorted by key, and carry the keys of its sequence. *)
  set_wf_nodup {K} {HK : Compare K} (key_of : loc -> option K) h s t :
    set_wf key_of h s t -> NoDup (locs t);
  set_wf_sentinel {K} {HK : Compare K} (key_of : loc -> option K) h s t :
    set_wf key_of h s t -> s ∉ locs t;
  set_wf_bst {K} {HK : Compare K} (key_of : loc -> option K) h s t :
    set_wf key_of h s t -> bst t;
  set_wf_keys {K} {HK : Compare K} (key_of : loc -> option K) h s t x k :
    set_wf key_of h s t -> (x, k) ∈ elements t -> key_of x = Some k;
  (** Well-formedness reads the keys of the set's nodes and the heap at
      the sentinel and the nodes only. *)
  set_wf_frame {K} {HK : Compare K} (key_of key_of' : loc -> option K) h h' s t :
    set_wf key_of h s t ->
    (forall y, y ∈ locs t -> key_of' y = key_of y) ->
    (forall y, y = s \/ y ∈ locs t -> h' !! y = h !! y) ->
    set_wf key_of' h' s t;

  set_end_spec s : set_end s = s;
  set_iter_eq_spec it other : set_iter_eq it other = bool_decide (it = other);
  set_iter_neq_spec it other : set_iter_neq it other = bool_decide (it ≠ other);
  set_find_spec {K} {HK : Compare K} (key_of : loc -> option K) h s t k :
    set_wf key_of h s t ->
    set_find key_of h s k = Some (default s (fst <$> find_list k (elements t)));
  set_lower_bound_spec {K} {HK : Compare K} (key_of : loc -> option K) h s t k :
    set_wf key_of h s t ->
    set_lower_bound key_of h s k = Some (default s (fst <$> lb_list k (elements t)));
  set_upper_bound_spec {K} {HK : Compare K} (key_of : loc -> option K) h s t k :
    set_wf key_of h s t ->
    set_upper_bound key_of h s k = Some (default s (fst <$> ub_list k (elements t)));
  set_begin_spec {K} {HK : Compare K} (key_of : loc -> option K) h s t :
    set_wf key_of h s t -> set_begin h s = Some (default s (fst <$> head (elements t)));
  set_incr_spec {K} {HK : Compare K} (key_of : loc -> option K) h s t A x k B :
    set_wf key_of h s t -> elements t = A ++ (x, k) :: B ->
    set_incr h x = Some (default s (fst <$> head B));
  set_decr_spec {K} {HK : Compare K} (key_of : loc -> option K) h s t A x k B :
    set_wf key_of h s t -> elements t = A ++ (x, k) :: B ->
    set_decr h x = fst <$> last A;
  (** [insert(obj, hint)] of a fresh unlinked node with a new key. *)
  set_insert_spec {K} {HK : Compare K} (key_of : loc -> option K) h s t obj k on (hint : bool) :
    set_wf key_of h s t -> key_of obj = Some k ->
    h !! obj = Some on -> lchild on = None -> rchild on = None ->
    obj <> s -> obj ∉ locs t -> (forall e, e ∈ elements t -> equals k e.2 = false) ->
    exists h', set_insert key_of s obj hint h = Some (obj, h') /\
      set_wf key_of h' s (ins obj k t) /\
      elements (ins obj k t) = insert_before (obj, k) (elements t) /\
      (forall y, y ∉ s :: obj :: locs t -> h' !! y = h !! y);
  (** [erase(it)] of the iterator of a node of the set. *)
  set_erase_spec {K} {HK : Compare K} (key_of : loc -> option K) h s t A x k B :
    set_wf key_of h s t -> elements t = A ++ (x, k) :: B ->
    exists t' h', set_erase x h = Some (x, h') /\ set_wf key_of h' s t' /\
      elements t' = A ++ B /\ h' !! x = Some null_node /\
      (forall y, y ∉ s :: locs t -> h' !! y = h !! y)
}.

(** ** Derived laws *)

Section Derived.
Context `{OS : OrderedSet} {K : Type} `{Compare K}.
Implicit Types (key_of : loc -> option K) (t : tree K) (h : heap) (s : loc).

(** A node added at a fresh location leaves a set well formed. *)
Lemma set_wf_insert_fresh (key_of key_of' : loc -> option K) h s t l n :
  set_wf key_of h s t -> l <> s -> l ∉ locs t ->
  (forall y, y ∈ locs t -> key_of' y = key_of y) -> set_wf key_of' (<[l := n]> h) s t.
Proof.
  intros Hwf Hls Hl Hk. apply (set_wf_frame key_of key_of' h _ s t Hwf Hk).
  intros y [->|Hy]; apply lookup_insert_ne; [done|]. intros ->. by apply Hl.
Qed.


End Derived.

(** ** The instance of the code *)

Lemma wf_empty {K} `{Compare K} (key_of : loc -> option K) h s :
  h !! s = Some null_node -> wf key_of h s Leaf.
Proof.
  intros Hs. exists null_node. split_and!; try done;
    [by constructor|by apply not_elem_of_nil|constructor].
Qed.

Section WfFacts.
Context {K : Type} `{Compare K} (key_of : loc -> option K).
Implicit Types (t : tree K) (h : heap) (s : loc).

Lemma wf_nodup h s t : wf key_of h s t -> NoDup (locs t).
Proof. by intros (sn & _ & _ & _ & _ & Hnd & _). Qed.
Lemma wf_sentinel h s t : wf key_of h s t -> s ∉ locs t.
Proof. by intros (sn & _ & _ & _ & _ & _ & Hsn & _). Qed.
Lemma wf_bst h s t : wf key_of h s t -> bst t.
Proof. by intros (sn & _ & _ & _ & _ & _ & _ & Hbst). Qed.
Lemma wf_keys h s t x k : wf key_of h s t -> (x, k) ∈ elements t -> key_of x = Some k.
Proof. intros (sn & _ & _ & _ & Hrep & _) Hin. exact (rep_keys _ _ _ _ _ _ _ Hrep Hin). Qed.
Lemma upper_bound_spec h s t k :
  wf key_of h s t -> upper_bound key_of h s k = Some (default s (fst <$> ub_list k (elements t))).
Proof. intros Hwf. exact (proj2 (bounds_spec key_of h s t k Hwf)). Qed.

End WfFacts.

#[export] Instance intrusive_set_ordered : OrderedSet := {|
  set_wf := @wf;
  set_find := @intrusive_set.find;
  set_lower_bound := @intrusive_set.lower_bound;
  set_upper_bound := @intrusive_set.upper_bound;
  set_begin := intrusive_set.begin;
  set_end := intrusive_set.end_;
  set_incr := intrusive_set.incr;
  set_decr := intrusive_set.decr;
  set_iter_eq := intrusive_set.iter_eq;
  set_iter_neq := intrusive_set.iter_neq;
  set_insert := @intrusive_set.insert;
  set_erase := intrusive_set.erase;
  set_wf_empty := @wf_empty;
  set_wf_nodup := @wf_nodup;
  set_wf_sentinel := @wf_sentinel;
  set_wf_bst := @wf_bst;
  set_wf_keys := @wf_keys;
  set_wf_frame := @wf_frame;
  set_end_spec s := eq_refl;
  set_iter_eq_spec := iter_eq_spec;
  set_iter_neq_spec := iter_neq_spec;
  set_find_spec := @find_spec;
  set_lower_bound_spec := @lower_bound_spec;
  set_upper_bound_spec := @upper_bound_spec;
  set_begin_spec := @begin_spec;
  set_incr_spec := @incr_spec;
  set_decr_spec := @decr_spec;
  set_insert_spec := @insert_spec;
  set_erase_spec := @erase_seq
|}.
