(* ===== verification/Bimap.v ===== *)
(** * [bimap<Left, Right>] (src/bimap.h)

    The container's memory is the map [records] from a record's location to
    its [storage_node] payload (left key, right key), and two node heaps:
    [lnodes] holds the [intrusive::node<tag_for_left>] base of every
    record and of the sentinel, [rnodes] the [tag_for_right] base.  Both
    trees use the same location for the same record, so [flip] is the
    identity on locations: the cast between the two bases of one
    [bimap_based_node].  [m_size] is a [std::size_t], a 64-bit unsigned
    integer kept with its wrap-around.

    The left set is an [OrderedSet] (the interface of [SetInterface],
    whose instance is [intrusive_set]) run on [lnodes] with the key
    reader [left_key] (the [getter] of [left_struct]); the right set
    likewise on [rnodes] with [right_key].  The definitions and theorems
    of this file and of the files after it use the set through the class
    only; the concrete runs at the end take its instance.  Allocation picks a location unused by any of
    the three maps; [delete] removes the record and both of its nodes.
    [swap] is three steps on two container states, one per statement. *)

From S2P Require Import Prelude Node Tree Repr IntrusiveSet SetInterface.

Open Scope st_scope.

(** The exceptions the container lets through: [std::out_of_range] from
    [at_left]/[at_right], and [std::bad_alloc] from [new storage_node]
    (modelled in [BimapAlloc]). *)
Inductive exn := out_of_range (what : string) | bad_alloc.

(** [T{}]: value initialisation, for the [at_*_or_default] accessors. *)
Class Default (A : Type) := default_value : A.
#[export] Instance Z_default : Default Z := 0%Z.
#[export] Instance string_default : Default string := EmptyString.

(** [std::size_t]. *)
Definition size_t_modulus : Z := 2 ^ 64.
Definition size_t_wrap (z : Z) : Z := z mod size_t_modulus.

Section Bimap.
Context `{OS : OrderedSet}.
Context {Left Right : Type} `{CompareLeft : Compare Left} `{CompareRight : Compare Right}.

Record bimap := mk_bimap {
  records : gmap loc (Left * Right);
  lnodes : heap;
  rnodes : heap;
  m_size : Z
}.

(** The location of the member [bimap_based_node sentinel]. *)
Definition sentinel : loc := 1%positive.

(** [left_struct::getter::get] and [right_struct::getter::get] of the
    record a node belongs to; the sentinel has no key. *)
Definition left_key (b : bimap) (l : loc) : option Left := fst <$> records b !! l.
Definition right_key (b : bimap) (l : loc) : option Right := snd <$> records b !! l.

(** [bimap()]: an empty container whose sentinel's links are null. *)
Definition empty : bimap :=
  mk_bimap ∅ {[sentinel := null_node]} {[sentinel := null_node]} 0%Z.

(** ** Iterators *)

(** [template_iterator::flip]: the same record seen from the other base. *)
Definition flip (it : loc) : loc := it.

(** [*it] on a left / right iterator. *)
Definition deref_left (b : bimap) (it : loc) : option Left := left_key b it.
Definition deref_right (b : bimap) (it : loc) : option Right := right_key b it.

Definition end_left : loc := set_end sentinel.
Definition end_right : loc := set_end sentinel.
(** [operator==] and [operator!=] of [template_iterator]:
    [left.it == right.it] on the underlying set iterators. *)
Definition it_eq (a b : loc) : bool := set_iter_eq a b.
Definition it_neq (a b : loc) : bool := set_iter_neq a b.

Definition begin_left (b : bimap) : option loc := set_begin (lnodes b) sentinel.
Definition begin_right (b : bimap) : option loc := set_begin (rnodes b) sentinel.
Definition next_left (b : bimap) (it : loc) : option loc := set_incr (lnodes b) it.
Definition next_right (b : bimap) (it : loc) : option loc := set_incr (rnodes b) it.
(** [template_iterator::operator--] (prefix and postfix): [--it] on the
    underlying set iterator. *)
Definition prev_left (b : bimap) (it : loc) : option loc := set_decr (lnodes b) it.
Definition prev_right (b : bimap) (it : loc) : option loc := set_decr (rnodes b) it.

(** ** Lookups *)

Definition find_left (b : bimap) (x : Left) : option loc :=
  set_find (left_key b) (lnodes b) sentinel x.
Definition find_right (b : bimap) (y : Right) : option loc :=
  set_find (right_key b) (rnodes b) sentinel y.

Definition lower_bound_left (b : bimap) (x : Left) : option loc :=
  set_lower_bound (left_key b) (lnodes b) sentinel x.
Definition upper_bound_left (b : bimap) (x : Left) : option loc :=
  set_upper_bound (left_key b) (lnodes b) sentinel x.
Definition lower_bound_right (b : bimap) (y : Right) : option loc :=
  set_lower_bound (right_key b) (rnodes b) sentinel y.
Definition upper_bound_right (b : bimap) (y : Right) : option loc :=
  set_upper_bound (right_key b) (rnodes b) sentinel y.

(** [at_left(key)]: the paired right key, or [out_of_range]. *)
Definition at_left (b : bimap) (x : Left) : option (exn + Right) :=
  it ← find_left b x;
  if it_eq it end_left then Some (inl (out_of_range "element doesn't exist"))
  else y ← deref_right b (flip it); Some (inr y).

Definition at_right (b : bimap) (y : Right) : option (exn + Left) :=
  it ← find_right b y;
  if it_eq it end_right then Some (inl (out_of_range "element doesn't exist"))
  else x ← deref_left b (flip it); Some (inr x).

Definition size (b : bimap) : Z := m_size b.
Definition empty_ (b : bimap) : bool := bool_decide (m_size b = 0%Z).

(** ** Running a set operation on one side *)

Definition run_left {A} (f : (loc -> option Left) -> st heap A) : st bimap A :=
  fun b => match f (left_key b) (lnodes b) with
           | Some (a, h) => Some (a, mk_bimap (records b) h (rnodes b) (m_size b))
           | None => None
           end.

Definition run_right {A} (f : (loc -> option Right) -> st heap A) : st bimap A :=
  fun b => match f (right_key b) (rnodes b) with
           | Some (a, h) => Some (a, mk_bimap (records b) (lnodes b) h (m_size b))
           | None => None
           end.

(** ** Memory *)

Definition in_use (b : bimap) : gset loc :=
  {[sentinel]} ∪ dom (records b) ∪ dom (lnodes b) ∪ dom (rnodes b).

(** [new storage_node(left, right)]: both bases default-constructed. *)
Definition new_storage (x : Left) (y : Right) : st bimap loc :=
  fun b => let l := fresh (in_use b) in
    Some (l, mk_bimap (<[l := (x, y)]> (records b)) (<[l := null_node]> (lnodes b))
                      (<[l := null_node]> (rnodes b)) (m_size b)).

(** [delete static_cast<storage_node*>(p)]. *)
Definition delete_storage (l : loc) : st bimap unit :=
  fun b => match records b !! l with
           | Some _ => Some (tt, mk_bimap (delete l (records b)) (delete l (lnodes b))
                                          (delete l (rnodes b)) (m_size b))
           | None => None
           end.

Definition add_size (z : Z) : st bimap unit :=
  fun b => Some (tt, mk_bimap (records b) (lnodes b) (rnodes b)
                              (size_t_wrap (m_size b + z))).

(** ** Mutators *)

(** [perfect_forwarding_insert(left, right)]: rejected (returns
    [end_left()]) unless both keys are absent; [find_right] is only called
    when [find_left] found nothing.  The record is linked into the right
    tree first, then [m_size] grows, then it is linked into the left
    tree, whose iterator is returned. *)
(** [find_left(left) == end_left() && find_right(right) == end_right()],
    short-circuited. *)
Definition insert_absent (x : Left) (y : Right) : st bimap bool :=
  fl <- st_lift (fun b => find_left b x) ;;
  if it_eq fl end_left then
    fr <- st_lift (fun b => find_right b y) ;;
    st_ret (it_eq fr end_right)
  else st_ret false.

(** [right_set.insert( *storage, true); m_size++;
    return left_iterator(left_set.insert( *storage, true));] *)
Definition link_storage (storage : loc) : st bimap loc :=
  run_right (fun kr => set_insert kr sentinel storage true) ;;;
  add_size 1%Z ;;;
  run_left (fun kl => set_insert kl sentinel storage true).

Definition insert (x : Left) (y : Right) : st bimap loc :=
  absent <- insert_absent x y ;;
  if negb absent then st_ret end_left
  else
    storage <- new_storage x y ;;
    link_storage storage.

(** [erase_left(left_iterator it)]: unlink the record from the right tree
    (through [flip]), step the iterator, unlink it from the left tree,
    free it, and return the successor. *)
Definition erase_left_it (it : loc) : st bimap loc :=
  run_right (fun _ => set_erase (flip it)) ;;;
  next <- st_lift (fun b => next_left b it) ;;
  p <- run_left (fun _ => set_erase it) ;;
  delete_storage p ;;;
  add_size (-1)%Z ;;;
  st_ret next.

Definition erase_right_it (it : loc) : st bimap loc :=
  run_left (fun _ => set_erase (flip it)) ;;;
  next <- st_lift (fun b => next_right b it) ;;
  p <- run_right (fun _ => set_erase it) ;;
  delete_storage p ;;;
  add_size (-1)%Z ;;;
  st_ret next.

(** [erase_left(const left_t&)]: [true] iff a record was erased. *)
Definition erase_left (x : Left) : st bimap bool :=
  it <- st_lift (fun b => find_left b x) ;;
  if it_neq it end_left then erase_left_it it ;;; st_ret true
  else st_ret false.

Definition erase_right (y : Right) : st bimap bool :=
  it <- st_lift (fun b => find_right b y) ;;
  if it_neq it end_right then erase_right_it it ;;; st_ret true
  else st_ret false.

(** [erase_left(first, last)]: [for (it = first; it != last; it =
    erase_left(it)) {}].  Each round frees a record, so [S] of the number
    of records bounds the rounds. *)
Fixpoint erase_left_range_loop (fuel : nat) (it last : loc) : st bimap loc :=
  match fuel with
  | O => st_fail
  | S fuel =>
      if it_neq it last then
        nxt <- erase_left_it it ;; erase_left_range_loop fuel nxt last
      else st_ret last
  end.

Definition erase_left_range (first last : loc) : st bimap loc :=
  b <- st_get ;; erase_left_range_loop (S (stdpp.base.size (records b))) first last.

Fixpoint erase_right_range_loop (fuel : nat) (it last : loc) : st bimap loc :=
  match fuel with
  | O => st_fail
  | S fuel =>
      if it_neq it last then
        nxt <- erase_right_it it ;; erase_right_range_loop fuel nxt last
      else st_ret last
  end.

Definition erase_right_range (first last : loc) : st bimap loc :=
  b <- st_get ;; erase_right_range_loop (S (stdpp.base.size (records b))) first last.

(** [~bimap()]: [erase_left(begin_left(), end_left())]. *)
Definition destroy : st bimap unit :=
  first <- st_lift begin_left ;;
  erase_left_range first end_left ;;;
  st_ret tt.

(** [at_left_or_default(key)]: the paired value if [key] is present;
    otherwise the default right value is detached from the left key it
    is paired with, if any, and paired with [key]. *)
Definition at_left_or_default `{Default Right} (x : Left) : st bimap Right :=
  it <- st_lift (fun b => find_left b x) ;;
  if it_neq it end_left then st_lift (fun b => deref_right b (flip it))
  else
    let tmp := default_value in
    it2 <- st_lift (fun b => find_right b tmp) ;;
    (if it_neq it2 end_right then erase_right_it it2 ;;; st_ret tt
     else st_ret tt) ;;;
    it3 <- insert x tmp ;;
    st_lift (fun b => deref_right b (flip it3)).

Definition at_right_or_default `{Default Left} (y : Right) : st bimap Left :=
  it <- st_lift (fun b => find_right b y) ;;
  if it_neq it end_right then st_lift (fun b => deref_left b (flip it))
  else
    let tmp := default_value in
    it2 <- st_lift (fun b => find_left b tmp) ;;
    (if it_neq it2 end_left then erase_left_it it2 ;;; st_ret tt
     else st_ret tt) ;;;
    it3 <- insert tmp y ;;
    st_lift (fun b => deref_left b it3).

(** ** Copy, assignment and comparison *)

(** The body of the copy constructor [bimap(const bimap& other)], run on
    the container under construction: [for (auto it = other.begin_left();
    it != other.end_left(); it++) insert( *it, *it.flip());].  Each round
    visits one record of [other], so [S] of their number bounds the
    rounds. *)
Fixpoint copy_loop (fuel : nat) (other : bimap) (it : loc) : st bimap unit :=
  match fuel with
  | O => st_fail
  | S fuel =>
      if it_neq it end_left then
        x <- st_lift (fun _ => deref_left other it) ;;
        y <- st_lift (fun _ => deref_right other (flip it)) ;;
        insert x y ;;;
        nxt <- st_lift (fun _ => next_left other it) ;;
        copy_loop fuel other nxt
      else st_ret tt
  end.

(** [bimap(const bimap& other)]: both sets start empty on the new
    sentinel (the comparators are copied; they carry no state here). *)
Definition copy_construct (other : bimap) : option bimap :=
  first ← begin_left other;
  snd <$> copy_loop (S (stdpp.base.size (records other))) other first empty.

(** [swap(bimap& other)]: [left_set.swap(other.left_set)] exchanges the
    left trees, [right_set.swap(other.right_set)] the right trees, then
    [std::swap(m_size, other.m_size)] the counters.  Each container has
    node memories of its own here, so exchanging two trees exchanges
    their node heaps; the records go with the left trees (between the two
    set swaps each container's right tree reaches the other's records, as
    in the code). *)
Definition swap_left_sets (a b : bimap) : bimap * bimap :=
  (mk_bimap (records b) (lnodes b) (rnodes a) (m_size a),
   mk_bimap (records a) (lnodes a) (rnodes b) (m_size b)).

Definition swap_right_sets (a b : bimap) : bimap * bimap :=
  (mk_bimap (records a) (lnodes a) (rnodes b) (m_size a),
   mk_bimap (records b) (lnodes b) (rnodes a) (m_size b)).

Definition swap_sizes (a b : bimap) : bimap * bimap :=
  (mk_bimap (records a) (lnodes a) (rnodes a) (m_size b),
   mk_bimap (records b) (lnodes b) (rnodes b) (m_size a)).

Definition bimap_swap (a b : bimap) : bimap * bimap :=
  let '(a1, b1) := swap_left_sets a b in
  let '(a2, b2) := swap_right_sets a1 b1 in
  swap_sizes a2 b2.

(** [operator=(const bimap& other)]: unless [other] is this container
    ([self_assign], that is [&other == this]), the temporary
    [bimap(other)] is swapped with this container, so that it holds the
    old contents, and is destroyed at the end of the statement. *)
Definition assign (self_assign : bool) (other : bimap) : st bimap unit :=
  if self_assign then st_ret tt
  else fun self =>
    tmp ← copy_construct other;
    let '(tmp', self') := bimap_swap tmp self in
    match destroy tmp' with
    | Some _ => Some (tt, self')
    | None => None
    end.

(** The loop of [operator==(a, b)]: both containers are walked in left
    order in lock step until [it2] reaches [b.end_left()]; the pair under
    the iterators is compared with [comp_left] both ways, then with
    [comp_right] both ways, short-circuited. *)
Fixpoint eq_loop (fuel : nat) (a b : bimap) (it1 it2 : loc) : option bool :=
  match fuel with
  | O => None
  | S fuel =>
      if it_neq it2 end_left then
        x1 ← deref_left a it1; x2 ← deref_left b it2;
        if less x1 x2 || less x2 x1 then Some false else
        y1 ← deref_right a (flip it1); y2 ← deref_right b (flip it2);
        if less y1 y2 || less y2 y1 then Some false else
        n1 ← next_left a it1; n2 ← next_left b it2;
        eq_loop fuel a b n1 n2
      else Some true
  end.

(** [operator==(a, b)]: containers of different sizes differ; otherwise
    the lock-step walk decides. *)
Definition bimap_eq (a b : bimap) : option bool :=
  if bool_decide (size a ≠ size b) then Some false
  else
    it1 ← begin_left a; it2 ← begin_left b;
    eq_loop (S (stdpp.base.size (records b))) a b it1 it2.

(** [operator!=(a, b)]: [!(a == b)]. *)
Definition bimap_neq (a b : bimap) : option bool := negb <$> bimap_eq a b.
End Bimap.

(** The iterator of the first entry of a sequence, [end_left()] when it
    is empty. *)
Notation it_of s := (default end_left (fst <$> head s)).

Arguments bimap Left Right : clear implicits.
Arguments empty {Left Right}.

(** ** The container invariant *)

(** The container's iterator comparisons compare the locations. *)
Lemma it_eq_spec `{OrderedSet} a c : it_eq a c = bool_decide (a = c).
Proof. apply set_iter_eq_spec. Qed.
Lemma it_neq_spec `{OrderedSet} a c : it_neq a c = bool_decide (a ≠ c).
Proof. apply set_iter_neq_spec. Qed.
(** [end_left()] and [end_right()] are the sentinel's iterator. *)
Lemma end_left_sentinel `{OrderedSet} : end_left = sentinel.
Proof. apply set_end_spec. Qed.
Lemma end_right_sentinel `{OrderedSet} : end_right = sentinel.
Proof. apply set_end_spec. Qed.

Lemma it_eq_refl `{OrderedSet} a : it_eq a a = true.
Proof. rewrite it_eq_spec. by apply bool_decide_eq_true_2. Qed.
Lemma it_neq_refl `{OrderedSet} a : it_neq a a = false.
Proof. rewrite it_neq_spec. apply bool_decide_eq_false_2. by intros Hn. Qed.
#[export] Hint Rewrite it_eq_spec it_neq_spec : bimap_st.

Section BimapProofs.
Context `{OS : OrderedSet}.
Context {Left Right : Type} `{CompareLeft : Compare Left} `{CompareRight : Compare Right}.
Implicit Types (b : bimap Left Right) (tl : tree Left) (tr : tree Right) (x : Left)
  (y : Right) (l : loc).

(** Both trees are well formed, each holds exactly the live records, and
    [m_size] is their number, which fits a [size_t]. *)
Definition bimap_inv b tl tr : Prop :=
  set_wf (left_key b) (lnodes b) sentinel tl /\ set_wf (right_key b) (rnodes b) sentinel tr /\
  (forall l, l ∈ locs tl <-> is_Some (records b !! l)) /\
  (forall l, l ∈ locs tr <-> is_Some (records b !! l)) /\
  m_size b = Z.of_nat (stdpp.base.size (records b)) /\
  (Z.of_nat (stdpp.base.size (records b)) < size_t_modulus)%Z.

(** The empty container satisfies the invariant with two empty trees. *)
Lemma empty_bimap_inv : bimap_inv empty Leaf Leaf.
Proof.
  split_and!.
  - by apply set_wf_empty.
  - by apply set_wf_empty.
  - intros l. simpl. rewrite lookup_empty. split; [by intros ?%elem_of_nil|by intros []].
  - intros l. simpl. rewrite lookup_empty. split; [by intros ?%elem_of_nil|by intros []].
  - simpl. by rewrite map_size_empty.
  - simpl. rewrite map_size_empty. unfold size_t_modulus. lia.
Qed.

Lemma inv_left_elements b tl tr l x :
  bimap_inv b tl tr -> (l, x) ∈ elements tl -> exists y, records b !! l = Some (x, y).
Proof.
  intros (Hwf & _) Hin.
  pose proof (set_wf_keys _ _ _ _ _ _ Hwf Hin) as Hk. unfold left_key in Hk.
  destruct (records b !! l) as [[x' y]|]; simpl in Hk; [|done].
  injection Hk as ->. by exists y.
Qed.

Lemma inv_right_elements b tl tr l y :
  bimap_inv b tl tr -> (l, y) ∈ elements tr -> exists x, records b !! l = Some (x, y).
Proof.
  intros (_ & Hwf & _) Hin.
  pose proof (set_wf_keys _ _ _ _ _ _ Hwf Hin) as Hk. unfold right_key in Hk.
  destruct (records b !! l) as [[x y']|]; simpl in Hk; [|done].
  injection Hk as ->. by exists x.
Qed.

Lemma inv_records_left b tl tr l x y :
  bimap_inv b tl tr -> records b !! l = Some (x, y) -> (l, x) ∈ elements tl.
Proof.
  intros Hinv Hl. pose proof Hinv as (Hwf & _ & Hlocs & _).
  assert (l ∈ locs tl) as Hin by (apply Hlocs; by eexists).
  apply list_elem_of_fmap in Hin as ([l' x'] & -> & Hin). simpl in *.
  destruct (inv_left_elements b tl tr l' x') as (y' & Hy'); [done|done|].
  rewrite Hl in Hy'. by injection Hy' as -> ->.
Qed.

Lemma inv_records_right b tl tr l x y :
  bimap_inv b tl tr -> records b !! l = Some (x, y) -> (l, y) ∈ elements tr.
Proof.
  intros Hinv Hl. pose proof Hinv as (_ & Hwf & _ & Hlocs & _).
  assert (l ∈ locs tr) as Hin by (apply Hlocs; by eexists).
  apply list_elem_of_fmap in Hin as ([l' y'] & -> & Hin). simpl in *.
  destruct (inv_right_elements b tl tr l' y') as (x' & Hx'); [done|done|].
  rewrite Hl in Hx'. by injection Hx' as -> ->.
Qed.

#[local] Arguments find_left : simpl never.
#[local] Arguments find_right : simpl never.

Lemma sentinel_not_record b tl tr : bimap_inv b tl tr -> records b !! sentinel = None.
Proof.
  intros (Hwl & _ & Hlocs & _). pose proof (set_wf_sentinel _ _ _ _ Hwl) as Hs.
  destruct (records b !! sentinel) eqn:E; [|done]. exfalso. apply Hs, Hlocs. by eexists.
Qed.

(** [find_left(key)] returns the record whose left key is equivalent
    to [key]. *)
Lemma find_left_hit b tl tr l x x' y :
  bimap_inv b tl tr -> records b !! l = Some (x', y) -> equals x x' = true ->
  find_left b x = Some l.
Proof.
  intros Hinv Hl Heq. pose proof Hinv as (Hwf & _).
  unfold find_left. rewrite (set_find_spec _ _ _ _ x Hwf).
  pose proof (inv_records_left _ _ _ _ _ _ Hinv Hl) as Hin.
  destruct (find_list_Some x _ _ Hin Heq) as (e & Hf & He & Heqe). rewrite Hf. simpl.
  pose proof (set_wf_bst _ _ _ _ Hwf) as Hbst.
  rewrite (sorted_equals_unique (elements tl) e (l, x')); [done|done|done|done|].
  simpl. rewrite equals_sym in Heqe. by eapply equals_trans.
Qed.

(** [find_left(key)] returns [end_left()] when no left key is
    equivalent to [key]. *)
Lemma find_left_miss b tl tr x :
  bimap_inv b tl tr ->
  (forall l x' y, records b !! l = Some (x', y) -> equals x x' = false) ->
  find_left b x = Some end_left.
Proof.
  intros Hinv Hne. pose proof Hinv as (Hwf & _).
  unfold find_left. rewrite (set_find_spec _ _ _ _ x Hwf), find_list_None; [by rewrite end_left_sentinel|].
  intros [l x'] He. destruct (inv_left_elements _ _ _ _ _ Hinv He) as [y Hy]. by eapply Hne.
Qed.

(** [find_right(key)] returns the record whose right key is equivalent
    to [key]. *)
Lemma find_right_hit b tl tr l x y y' :
  bimap_inv b tl tr -> records b !! l = Some (x, y') -> equals y y' = true ->
  find_right b y = Some l.
Proof.
  intros Hinv Hl Heq. pose proof Hinv as (_ & Hwf & _).
  unfold find_right. rewrite (set_find_spec _ _ _ _ y Hwf).
  pose proof (inv_records_right _ _ _ _ _ _ Hinv Hl) as Hin.
  destruct (find_list_Some y _ _ Hin Heq) as (e & Hf & He & Heqe). rewrite Hf. simpl.
  pose proof (set_wf_bst _ _ _ _ Hwf) as Hbst.
  rewrite (sorted_equals_unique (elements tr) e (l, y')); [done|done|done|done|].
  simpl. rewrite equals_sym in Heqe. by eapply equals_trans.
Qed.

(** [find_right(key)] returns [end_right()] when no right key is
    equivalent to [key]. *)
Lemma find_right_miss b tl tr y :
  bimap_inv b tl tr ->
  (forall l x y', records b !! l = Some (x, y') -> equals y y' = false) ->
  find_right b y = Some end_right.
Proof.
  intros Hinv Hne. pose proof Hinv as (_ & Hwf & _).
  unfold find_right. rewrite (set_find_spec _ _ _ _ y Hwf), find_list_None; [by rewrite end_right_sentinel|].
  intros [l y'] He. destruct (inv_right_elements _ _ _ _ _ Hinv He) as [x Hx]. by eapply Hne.
Qed.

(** [at_left(key)] returns the right key paired with the left key
    equivalent to [key]. *)
Lemma at_left_hit b tl tr l x x' y :
  bimap_inv b tl tr -> records b !! l = Some (x', y) -> equals x x' = true ->
  at_left b x = Some (inr y).
Proof.
  intros Hinv Hl Heq. unfold at_left.
  rewrite (find_left_hit b tl tr l x x' y Hinv Hl Heq). simpl.
  rewrite it_eq_spec, bool_decide_eq_false_2.
  - unfold deref_right, right_key, flip. by rewrite Hl.
  - rewrite end_left_sentinel. intros ->. by rewrite (sentinel_not_record _ _ _ Hinv) in Hl.
Qed.

(** [at_left(key)] of an absent key throws [std::out_of_range]. *)
Lemma at_left_miss b tl tr x :
  bimap_inv b tl tr ->
  (forall l x' y, records b !! l = Some (x', y) -> equals x x' = false) ->
  at_left b x = Some (inl (out_of_range "element doesn't exist")).
Proof.
  intros Hinv Hne. unfold at_left. rewrite (find_left_miss b tl tr x Hinv Hne). simpl.
  by rewrite it_eq_refl.
Qed.

(** [at_right(key)] returns the left key paired with the right key
    equivalent to [key]. *)
Lemma at_right_hit b tl tr l x y y' :
  bimap_inv b tl tr -> records b !! l = Some (x, y') -> equals y y' = true ->
  at_right b y = Some (inr x).
Proof.
  intros Hinv Hl Heq. unfold at_right.
  rewrite (find_right_hit b tl tr l x y y' Hinv Hl Heq). simpl.
  rewrite it_eq_spec, bool_decide_eq_false_2.
  - unfold deref_left, left_key, flip. by rewrite Hl.
  - rewrite end_right_sentinel. intros ->. by rewrite (sentinel_not_record _ _ _ Hinv) in Hl.
Qed.

(** [at_right(key)] of an absent key throws [std::out_of_range]. *)
Lemma at_right_miss b tl tr y :
  bimap_inv b tl tr ->
  (forall l x y', records b !! l = Some (x, y') -> equals y y' = false) ->
  at_right b y = Some (inl (out_of_range "element doesn't exist")).
Proof.
  intros Hinv Hne. unfold at_right. rewrite (find_right_miss b tl tr y Hinv Hne). simpl.
  by rewrite it_eq_refl.
Qed.

(** C7: [find_left(key)] returns the record whose left key is equivalent
    to [key], and [end_left()] when there is none; [find_right(key)]
    likewise with the right key and [end_right()]. *)
Theorem bimap_find_correct b tl tr x y :
  bimap_inv b tl tr ->
  ((forall l x' y', records b !! l = Some (x', y') -> equals x x' = true ->
      find_left b x = Some l) /\
   ((forall l x' y', records b !! l = Some (x', y') -> equals x x' = false) ->
      find_left b x = Some end_left)) /\
  ((forall l x' y', records b !! l = Some (x', y') -> equals y y' = true ->
      find_right b y = Some l) /\
   ((forall l x' y', records b !! l = Some (x', y') -> equals y y' = false) ->
      find_right b y = Some end_right)).
Proof.
  intros Hinv. split_and!; intros *.
  - by apply (find_left_hit b tl tr).
  - by apply (find_left_miss b tl tr).
  - by apply (find_right_hit b tl tr).
  - by apply (find_right_miss b tl tr).
Qed.

(** C24: [at_left(key)] returns the right key paired with the left key
    equivalent to [key], and throws [std::out_of_range] when there is
    none; [at_right(key)] returns the left key paired with the right key
    equivalent to [key], or throws likewise. *)
Theorem bimap_at_correct b tl tr x y :
  bimap_inv b tl tr ->
  ((forall l x' y', records b !! l = Some (x', y') -> equals x x' = true ->
      at_left b x = Some (inr y')) /\
   ((forall l x' y', records b !! l = Some (x', y') -> equals x x' = false) ->
      at_left b x = Some (inl (out_of_range "element doesn't exist")))) /\
  ((forall l x' y', records b !! l = Some (x', y') -> equals y y' = true ->
      at_right b y = Some (inr x')) /\
   ((forall l x' y', records b !! l = Some (x', y') -> equals y y' = false) ->
      at_right b y = Some (inl (out_of_range "element doesn't exist")))).
Proof.
  intros Hinv. split_and!; intros *.
  - by apply (at_left_hit b tl tr).
  - by apply (at_left_miss b tl tr).
  - by apply (at_right_hit b tl tr).
  - by apply (at_right_miss b tl tr).
Qed.

(** Keys are unique on each side, up to equivalence. *)
Lemma left_key_unique b tl tr l1 l2 x1 y1 x2 y2 :
  bimap_inv b tl tr -> records b !! l1 = Some (x1, y1) -> records b !! l2 = Some (x2, y2) ->
  equals x1 x2 = true -> l1 = l2.
Proof.
  intros Hinv H1 H2 Heq. pose proof (set_wf_bst _ _ _ _ (proj1 Hinv)) as Hbst.
  assert ((l1, x1) = (l2, x2)) as [= ->]; [|done].
  apply (sorted_equals_unique (elements tl)); [done|by eapply inv_records_left..|done].
Qed.

Lemma right_key_unique b tl tr l1 l2 x1 y1 x2 y2 :
  bimap_inv b tl tr -> records b !! l1 = Some (x1, y1) -> records b !! l2 = Some (x2, y2) ->
  equals y1 y2 = true -> l1 = l2.
Proof.
  intros Hinv H1 H2 Heq. pose proof (set_wf_bst _ _ _ _ (proj1 (proj2 Hinv))) as Hbst.
  assert ((l1, y1) = (l2, y2)) as [= ->]; [|done].
  apply (sorted_equals_unique (elements tr)); [done|by eapply inv_records_right..|done].
Qed.

(** [find_left] either finds a record with an equivalent key or returns
    [end_left()] when there is none. *)
Lemma find_left_cases b tl tr x :
  bimap_inv b tl tr ->
  (find_left b x = Some end_left /\
     forall l x' y, records b !! l = Some (x', y) -> equals x x' = false) \/
  (exists l x' y, find_left b x = Some l /\ records b !! l = Some (x', y) /\
     equals x x' = true).
Proof.
  intros Hinv. pose proof Hinv as (Hwf & _). unfold find_left.
  rewrite (set_find_spec _ _ _ _ x Hwf).
  destruct (find_list x (elements tl)) as [[l x']|] eqn:Hf; simpl.
  - right. apply find_list_Some_inv in Hf as [Hin Heq].
    destruct (inv_left_elements _ _ _ _ _ Hinv Hin) as [y Hy]. eauto 10.
  - left. split; [by rewrite end_left_sentinel|]. intros l x' y Hl.
    apply (find_list_None_inv _ _ (l, x') Hf). by eapply inv_records_left.
Qed.

Lemma find_right_cases b tl tr y :
  bimap_inv b tl tr ->
  (find_right b y = Some end_right /\
     forall l x y', records b !! l = Some (x, y') -> equals y y' = false) \/
  (exists l x y', find_right b y = Some l /\ records b !! l = Some (x, y') /\
     equals y y' = true).
Proof.
  intros Hinv. pose proof Hinv as (_ & Hwf & _). unfold find_right.
  rewrite (set_find_spec _ _ _ _ y Hwf).
  destruct (find_list y (elements tr)) as [[l y']|] eqn:Hf; simpl.
  - right. apply find_list_Some_inv in Hf as [Hin Heq].
    destruct (inv_right_elements _ _ _ _ _ Hinv Hin) as [x Hx]. eauto 10.
  - left. split; [by rewrite end_right_sentinel|]. intros l x y' Hl.
    apply (find_list_None_inv _ _ (l, y') Hf). by eapply inv_records_right.
Qed.

(** The four bound functions of the container, read off the two orders. *)
Lemma bimap_bounds_spec b tl tr x y :
  bimap_inv b tl tr ->
  lower_bound_left b x = Some (default end_left (fst <$> lb_list x (elements tl))) /\
  upper_bound_left b x = Some (default end_left (fst <$> ub_list x (elements tl))) /\
  lower_bound_right b y = Some (default end_right (fst <$> lb_list y (elements tr))) /\
  upper_bound_right b y = Some (default end_right (fst <$> ub_list y (elements tr))).
Proof.
  intros (Hwl & Hwr & _).
  unfold lower_bound_left, upper_bound_left, lower_bound_right, upper_bound_right.
  rewrite (set_lower_bound_spec _ _ _ _ x Hwl), (set_upper_bound_spec _ _ _ _ x Hwl).
  rewrite (set_lower_bound_spec _ _ _ _ y Hwr), (set_upper_bound_spec _ _ _ _ y Hwr).
  by rewrite end_left_sentinel, end_right_sentinel.
Qed.

(** C25: on a container satisfying the invariant, [lower_bound_left(x)]
    and [upper_bound_left(x)] are the first records of the left order
    whose left key is not less than, respectively greater than, [x]; the
    right-side bounds are the same in the right order; each is the end
    iterator when there is no such record. *)
Theorem bimap_bounds_correct b tl tr x y :
  bimap_inv b tl tr ->
  lower_bound_left b x = Some (default end_left (fst <$> lb_list x (elements tl))) /\
  upper_bound_left b x = Some (default end_left (fst <$> ub_list x (elements tl))) /\
  lower_bound_right b y = Some (default end_right (fst <$> lb_list y (elements tr))) /\
  upper_bound_right b y = Some (default end_right (fst <$> ub_list y (elements tr))).
Proof. apply bimap_bounds_spec. Qed.

(** C26: on a container satisfying the invariant, the left iterator of a
    record steps forward ([operator++]) to the next record of the left
    order, or to [end_left()] from the last one, and backward
    ([operator--]) to the previous record, or to the null iterator from
    the first one; the right iterators walk the right order the same way. *)
Theorem bimap_iter_correct b tl tr AL l x BL AR y BR :
  bimap_inv b tl tr ->
  elements tl = AL ++ (l, x) :: BL -> elements tr = AR ++ (l, y) :: BR ->
  next_left b l = Some (it_of BL) /\ prev_left b l = fst <$> last AL /\
  next_right b l = Some (default end_right (fst <$> head BR)) /\ prev_right b l = fst <$> last AR.
Proof.
  intros (Hwl & Hwr & _) Hl Hr. unfold next_left, prev_left, next_right, prev_right.
  rewrite (set_incr_spec _ _ _ _ _ _ _ _ Hwl Hl), (set_incr_spec _ _ _ _ _ _ _ _ Hwr Hr).
  rewrite (set_decr_spec _ _ _ _ _ _ _ _ Hwl Hl), (set_decr_spec _ _ _ _ _ _ _ _ Hwr Hr).
  by rewrite end_left_sentinel, end_right_sentinel.
Qed.

(** ** Insertion *)

(** A record's iterator is not [end_left()] (nor [end_right()]). *)
Lemma record_not_end b tl tr l p : bimap_inv b tl tr -> records b !! l = Some p -> l ≠ end_left.
Proof.
  intros Hinv Hl ->. rewrite end_left_sentinel in Hl.
  by rewrite (sentinel_not_record _ _ _ Hinv) in Hl.
Qed.

Lemma not_end_left b tl tr l p :
  bimap_inv b tl tr -> records b !! l = Some p -> it_eq l end_left = false.
Proof. intros Hinv Hl. rewrite it_eq_spec. exact (bool_decide_eq_false_2 _ (record_not_end _ _ _ _ _ Hinv Hl)). Qed.

Lemma record_it_neq b tl tr l p :
  bimap_inv b tl tr -> records b !! l = Some p -> it_neq l end_left = true.
Proof. intros Hinv Hl. rewrite it_neq_spec. exact (bool_decide_eq_true_2 _ (record_not_end _ _ _ _ _ Hinv Hl)). Qed.

Lemma record_it_neq_right b tl tr l p :
  bimap_inv b tl tr -> records b !! l = Some p -> it_neq l end_right = true.
Proof. exact (record_it_neq b tl tr l p). Qed.

(** [insert] when a key is already present. *)
Lemma insert_rejected_spec b tl tr x y l x' y' :
  bimap_inv b tl tr -> records b !! l = Some (x', y') ->
  equals x x' = true \/ equals y y' = true ->
  insert x y b = Some (end_left, b).
Proof.
  intros Hinv Hl Heq. unfold insert, insert_absent, link_storage. st_unfold.
  destruct (find_left b x) as [fl|] eqn:Hfl.
  2:{ destruct Heq as [Heq|Heq].
      - by rewrite (find_left_hit _ _ _ _ _ _ _ Hinv Hl Heq) in Hfl.
      - pose proof Hinv as (Hwf & _). unfold find_left in Hfl.
        by rewrite (set_find_spec _ _ _ _ x Hwf) in Hfl. }
  simpl. rewrite it_eq_spec. destruct (bool_decide (fl = end_left)) eqn:Hend; simpl; [|done].
  apply bool_decide_eq_true_1 in Hend as ->.
  destruct Heq as [Heq|Heq].
  { rewrite (find_left_hit _ _ _ _ _ _ _ Hinv Hl Heq) in Hfl. injection Hfl as Hle.
    rewrite end_left_sentinel in Hle. subst l.
    by rewrite (sentinel_not_record _ _ _ Hinv) in Hl. }
  rewrite (find_right_hit _ _ _ _ _ _ _ Hinv Hl Heq). simpl.
  pose proof (not_end_left _ _ _ _ _ Hinv Hl) as Hne. unfold end_left in Hne.
  unfold end_right. by rewrite Hne.
Qed.

(** A tree holding exactly the live records still does after a new
    record is linked into it. *)
Lemma locs_ins_records {K} `{Compare K} (recs : gmap loc (Left * Right)) (t : tree K) l k
    (p : Left * Right) :
  (forall z, z ∈ locs t <-> is_Some (recs !! z)) -> recs !! l = None ->
  forall z, z ∈ locs (ins l k t) <-> is_Some (<[l := p]> recs !! z).
Proof.
  intros Hlocs Hl z. rewrite elem_of_locs_ins, Hlocs, lookup_insert_is_Some. split.
  - intros [->|Hz]; [by left|]. right. split; [|done]. intros ->. rewrite Hl in Hz. by destruct Hz.
  - intros [->|[_ ?]]; [by left|by right].
Qed.

(** [insert] of two absent keys. *)
Lemma insert_new_spec b tl tr x y :
  bimap_inv b tl tr ->
  (forall l x' y', records b !! l = Some (x', y') ->
     equals x x' = false /\ equals y y' = false) ->
  (Z.of_nat (stdpp.base.size (records b)) + 1 < size_t_modulus)%Z ->
  let l := fresh (in_use b) in
  exists b', insert x y b = Some (l, b') /\
    bimap_inv b' (ins l x tl) (ins l y tr) /\
    records b' = <[l := (x, y)]> (records b) /\ records b !! l = None /\
    elements (ins l x tl) = insert_before (l, x) (elements tl) /\
    elements (ins l y tr) = insert_before (l, y) (elements tr) /\
    m_size b' = (m_size b + 1)%Z.
Proof.
  intros Hinv Hne Hbound l.
  pose proof Hinv as (Hwfl & Hwfr & Hlocsl & Hlocsr & Hsize & Hsmall).
  pose proof (is_fresh (in_use b)) as Hfresh. fold l in Hfresh. unfold in_use in Hfresh.
  rewrite !not_elem_of_union, not_elem_of_singleton, !not_elem_of_dom in Hfresh.
  destruct Hfresh as (((Hls & Hlr) & Hll) & Hlrn).
  assert (l ∉ locs tl) as Hltl by (rewrite Hlocsl, Hlr; by intros []).
  assert (l ∉ locs tr) as Hltr by (rewrite Hlocsr, Hlr; by intros []).
  set (recs := <[l := (x, y)]> (records b)).
  set (b1 := mk_bimap recs (<[l := null_node]> (lnodes b)) (<[l := null_node]> (rnodes b))
                      (m_size b)).
  destruct (set_insert_spec (right_key b1) (rnodes b1) sentinel tr l y
              null_node true) as (h2 & Hins2 & Hwf2 & Hel2 & _); try done.
  { apply (set_wf_insert_fresh (right_key b)); [done|done|done|].
    intros z Hz. unfold right_key, b1, recs. simpl. rewrite lookup_insert_ne; [done|].
    by intros ->. }
  { unfold right_key, b1, recs. simpl. by rewrite lookup_insert_eq. }
  { unfold b1. simpl. by rewrite lookup_insert_eq. }
  { intros [z y'] Hz. destruct (inv_right_elements _ _ _ _ _ Hinv Hz) as [x' Hx'].
    by destruct (Hne _ _ _ Hx'). }
  set (b3 := mk_bimap recs (<[l := null_node]> (lnodes b)) h2
                      (size_t_wrap (m_size b + 1))).
  destruct (set_insert_spec (left_key b3) (lnodes b3) sentinel tl l x
              null_node true) as (h4 & Hins4 & Hwf4 & Hel4 & _); try done.
  { apply (set_wf_insert_fresh (left_key b)); [done|done|done|].
    intros z Hz. unfold left_key, b3, recs. simpl. rewrite lookup_insert_ne; [done|].
    by intros ->. }
  { unfold left_key, b3, recs. simpl. by rewrite lookup_insert_eq. }
  { unfold b3. simpl. by rewrite lookup_insert_eq. }
  { intros [z x'] Hz. destruct (inv_left_elements _ _ _ _ _ Hinv Hz) as [y' Hy'].
    by destruct (Hne _ _ _ Hy'). }
  assert (size_t_wrap (m_size b + 1) = (m_size b + 1)%Z) as Hwrap.
  { unfold size_t_wrap. rewrite Hsize. apply Z.mod_small. lia. }
  unfold insert, insert_absent, link_storage. st_unfold.
  rewrite (find_left_miss b tl tr x Hinv) by (intros ? ? ? H; by destruct (Hne _ _ _ H)).
  simpl. rewrite it_eq_refl. simpl.
  rewrite (find_right_miss b tl tr y Hinv) by (intros ? ? ? H; by destruct (Hne _ _ _ H)).
  simpl. rewrite it_eq_refl. simpl. unfold new_storage. simpl. fold l. unfold run_right. fold recs. simpl.
  unfold b1 in Hins2. simpl in Hins2. rewrite Hins2. simpl. unfold add_size. simpl. unfold run_left. simpl.
  unfold b3 in Hins4. simpl in Hins4. rewrite Hins4. simpl.
  eexists. split; [reflexivity|]. rewrite Hwrap. split_and!; try done.
  unfold bimap_inv. simpl. split_and!.
  - exact Hwf4.
  - exact Hwf2.
  - by apply locs_ins_records.
  - by apply locs_ins_records.
  - unfold recs. rewrite map_size_insert_None by done. lia.
  - unfold recs. rewrite map_size_insert_None by done. lia.
Qed.

(** C3: [insert(left, right)] of two keys that are both absent allocates a
    fresh record, links it into both trees (into the sorted sequence of
    each), keeps the container invariant, adds one to [m_size] and returns
    the record's left iterator, provided [m_size + 1] fits a [size_t]. *)
Theorem insert_new b tl tr x y :
  bimap_inv b tl tr ->
  (forall l x' y', records b !! l = Some (x', y') ->
     equals x x' = false /\ equals y y' = false) ->
  (Z.of_nat (stdpp.base.size (records b)) + 1 < size_t_modulus)%Z ->
  let l := fresh (in_use b) in
  exists b', insert x y b = Some (l, b') /\
    bimap_inv b' (ins l x tl) (ins l y tr) /\
    records b' = <[l := (x, y)]> (records b) /\ records b !! l = None /\
    elements (ins l x tl) = insert_before (l, x) (elements tl) /\
    elements (ins l y tr) = insert_before (l, y) (elements tr) /\
    m_size b' = (m_size b + 1)%Z.
Proof. apply insert_new_spec. Qed.

(** [begin_left()] and [begin_right()]: the first record of each order,
    the end iterator of an empty container. *)
Lemma begin_left_spec b tl tr : bimap_inv b tl tr -> begin_left b = Some (it_of (elements tl)).
Proof. intros (Hwl & _). unfold begin_left. by rewrite (set_begin_spec _ _ _ _ Hwl), end_left_sentinel. Qed.

Lemma begin_right_spec b tl tr :
  bimap_inv b tl tr -> begin_right b = Some (default end_right (fst <$> head (elements tr))).
Proof. intros (_ & Hwr & _). unfold begin_right. by rewrite (set_begin_spec _ _ _ _ Hwr), end_right_sentinel. Qed.

End BimapProofs.

(** ** Deciding the invariant on a concrete container *)

Section BimapCheck.
Context {Left Right : Type} `{CompareLeft : Compare Left} `{CompareRight : Compare Right}.
Context `{EqDecision Left} `{EqDecision Right}.
Implicit Types (b : bimap Left Right) (tl : tree Left) (tr : tree Right).

Definition bimap_inv_check b tl tr : bool :=
  wf_check (left_key b) (lnodes b) sentinel tl &&
  wf_check (right_key b) (rnodes b) sentinel tr &&
  bool_decide (list_to_set (locs tl) = dom (records b)) &&
  bool_decide (list_to_set (locs tr) = dom (records b)) &&
  bool_decide (m_size b = Z.of_nat (stdpp.base.size (records b))) &&
  bool_decide (Z.of_nat (stdpp.base.size (records b)) < size_t_modulus)%Z.

Lemma bimap_inv_check_sound b tl tr : bimap_inv_check b tl tr = true -> bimap_inv b tl tr.
Proof.
  unfold bimap_inv_check. rewrite !andb_true_iff, !bool_decide_eq_true.
  intros (((((Hl & Hr) & Hdl) & Hdr) & Hs) & Hb). split_and!; try done.
  - by apply wf_check_sound.
  - by apply wf_check_sound.
  - intros z. rewrite <-elem_of_dom, <-Hdl. by rewrite elem_of_list_to_set.
  - intros z. rewrite <-elem_of_dom, <-Hdr. by rewrite elem_of_list_to_set.
Qed.

(** The abstract trees a container holds. *)
Definition left_tree b : tree Left := set_tree (left_key b) (lnodes b) sentinel.
Definition right_tree b : tree Right := set_tree (right_key b) (rnodes b) sentinel.
End BimapCheck.

(** ** The scenarios of the specification, run on the model *)

Definition run {A} (m : st (bimap Z string) A) : option A := fst <$> m empty.

(** Scenario A: insert (1,"one") and (2,"two"); the size is 2 and the left
    iterator of 1 flips to "one"; after [erase_left(1)] the size is 1 and
    "one" is no longer found on the right. *)
Example scenario_A :
  run (insert 1%Z "one" ;;; insert 2%Z "two" ;;;
       b1 <- st_get ;;
       erased <- erase_left 1%Z ;;
       b2 <- st_get ;;
       st_ret (size b1, find_left b1 1%Z ≫= (fun it => deref_right b1 (flip it)),
               erased, size b2, bool_decide (find_right b2 "one" = Some end_right)))
  = Some (2%Z, Some "one", true, 1%Z, true).
Proof. vm_compute. reflexivity. Qed.

(** Scenario B: [at_left(3)] on a container without 3 throws. *)
Example scenario_B :
  run (insert 1%Z "one" ;;; b <- st_get ;; st_ret (at_left b 3%Z))
  = Some (Some (inl (out_of_range "element doesn't exist"))).
Proof. vm_compute. reflexivity. Qed.

(** Scenario C: [at_left_or_default(3)] on an empty container inserts
    (3, the empty string) and returns the empty string. *)
Example scenario_C :
  run (v <- at_left_or_default 3%Z ;; b <- st_get ;;
       st_ret (v, size b, find_left b 3%Z ≫= (fun it => deref_right b (flip it))))
  = Some (EmptyString, 1%Z, Some EmptyString).
Proof. vm_compute. reflexivity. Qed.

(** Scenario D: with 3 paired with the empty string,
    [at_left_or_default(5)] erases that pair, pairs 5 with the empty string
    and returns it; 3 is then absent. *)
Example scenario_D :
  run (insert 3%Z EmptyString ;;; v <- at_left_or_default 5%Z ;; b <- st_get ;;
       st_ret (v, size b, bool_decide (find_left b 3%Z = Some end_left),
               find_left b 5%Z ≫= (fun it => deref_right b (flip it))))
  = Some (EmptyString, 1%Z, true, Some EmptyString).
Proof. vm_compute. reflexivity. Qed.

(** ** Witnesses *)

Definition ex_bimap : bimap Z string := Eval vm_compute in
  default empty (snd <$> (insert 5%Z "e" ;;; insert 2%Z "b" ;;; insert 8%Z "h" ;;;
                          insert 1%Z "a") empty).
Definition ex_ltree : tree Z := Eval vm_compute in left_tree ex_bimap.
Definition ex_rtree : tree string := Eval vm_compute in right_tree ex_bimap.

Lemma ex_bimap_inv : bimap_inv ex_bimap ex_ltree ex_rtree.
Proof. apply bimap_inv_check_sound. vm_compute. reflexivity. Qed.

(** Discharge a hypothesis that quantifies over the records of a concrete
    container by deciding it as a [map_Forall]. *)
Ltac records_forall P :=
  let l := fresh "l" in let x := fresh "x" in let y := fresh "y" in
  let H := fresh "H" in
  intros l x y H;
  match type of H with
  | ?m !! _ = _ => apply (map_Forall_lookup_1 P m l (x, y)); [decide_by_compute|exact H]
  end.

Lemma insert_new_witness :
  exists b', insert 3%Z "c" ex_bimap = Some (fresh (in_use ex_bimap), b') /\
             records b' !! fresh (in_use ex_bimap) = Some (3%Z, "c"%string).
Proof.
  destruct (insert_new ex_bimap ex_ltree ex_rtree 3%Z "c") as (b' & Hins & _ & Hrec & _).
  - apply bimap_inv_check_sound. vm_compute. reflexivity.
  - intros l x y H. split.
    + apply (map_Forall_lookup_1 (fun (_ : loc) (p : Z * string) => equals 3%Z p.1 = false)
               (records ex_bimap) l (x, y)); [decide_by_compute|exact H].
    + apply (map_Forall_lookup_1
               (fun (_ : loc) (p : Z * string) => equals "c"%string p.2 = false)
               (records ex_bimap) l (x, y)); [decide_by_compute|exact H].
  - vm_compute. reflexivity.
  - exists b'. split; [exact Hins|]. rewrite Hrec. apply lookup_insert_eq.
Defined.


Lemma bimap_find_correct_witness :
  find_left ex_bimap 2%Z = Some 3%positive /\ find_left ex_bimap 7%Z = Some end_left /\
  find_right ex_bimap "h"%string = Some 4%positive /\
  find_right ex_bimap "z"%string = Some end_right.
Proof.
  destruct (bimap_find_correct ex_bimap ex_ltree ex_rtree 2%Z "h" ex_bimap_inv) as [[Hl _] [Hr _]].
  destruct (bimap_find_correct ex_bimap ex_ltree ex_rtree 7%Z "z" ex_bimap_inv) as [[_ Hml] [_ Hmr]].
  split_and!.
  - by apply (Hl 3%positive 2%Z "b").
  - apply Hml. records_forall (fun (_ : loc) (p : Z * string) => equals 7%Z p.1 = false).
  - by apply (Hr 4%positive 8%Z "h").
  - apply Hmr. records_forall (fun (_ : loc) (p : Z * string) => equals "z"%string p.2 = false).
Defined.

Lemma bimap_at_correct_witness :
  at_left ex_bimap 8%Z = Some (inr "h"%string) /\
  at_left ex_bimap 7%Z = Some (inl (out_of_range "element doesn't exist")) /\
  at_right ex_bimap "a"%string = Some (inr 1%Z) /\
  at_right ex_bimap "z"%string = Some (inl (out_of_range "element doesn't exist")).
Proof.
  destruct (bimap_at_correct ex_bimap ex_ltree ex_rtree 8%Z "a" ex_bimap_inv) as [[Hl _] [Hr _]].
  destruct (bimap_at_correct ex_bimap ex_ltree ex_rtree 7%Z "z" ex_bimap_inv) as [[_ Hml] [_ Hmr]].
  split_and!.
  - by apply (Hl 4%positive 8%Z "h").
  - apply Hml. records_forall (fun (_ : loc) (p : Z * string) => equals 7%Z p.1 = false).
  - by apply (Hr 5%positive 1%Z "a").
  - apply Hmr. records_forall (fun (_ : loc) (p : Z * string) => equals "z"%string p.2 = false).
Defined.

Lemma bimap_bounds_correct_witness :
  lower_bound_left ex_bimap 3%Z = Some 2%positive /\ upper_bound_left ex_bimap 5%Z = Some 4%positive /\
  lower_bound_right ex_bimap "c"%string = Some 2%positive /\
  upper_bound_right ex_bimap "h"%string = Some end_right.
Proof.
  destruct (bimap_bounds_correct ex_bimap ex_ltree ex_rtree 3%Z "c" ex_bimap_inv) as (H1 & _ & H3 & _).
  destruct (bimap_bounds_correct ex_bimap ex_ltree ex_rtree 5%Z "h" ex_bimap_inv) as (_ & H2 & _ & H4).
  rewrite H1, H2, H3, H4. vm_compute. split_and!; reflexivity.
Defined.

Lemma bimap_iter_correct_witness :
  next_left ex_bimap 3 = Some 2%positive /\ prev_left ex_bimap 3 = Some 5%positive /\
  next_right ex_bimap 3 = Some 2%positive /\ prev_right ex_bimap 5 = None.
Proof.
  destruct (bimap_iter_correct ex_bimap ex_ltree ex_rtree [(5%positive, 1%Z)] 3 2%Z
              [(2%positive, 5%Z); (4%positive, 8%Z)] [(5%positive, "a"%string)] "b"
              [(2%positive, "e"%string); (4%positive, "h"%string)] ex_bimap_inv)
    as (H1 & H2 & H3 & _); [vm_compute; reflexivity..|].
  destruct (bimap_iter_correct ex_bimap ex_ltree ex_rtree [] 5 1%Z
              [(3%positive, 2%Z); (2%positive, 5%Z); (4%positive, 8%Z)] [] "a"
              [(3%positive, "b"%string); (2%positive, "e"%string); (4%positive, "h"%string)]
              ex_bimap_inv) as (_ & _ & _ & H4); [vm_compute; reflexivity..|].
  split_and!; [exact H1|exact H2|exact H3|exact H4].
Defined.

