(* ===== verification/BimapErase.v ===== *)
(** * Erasure in [bimap] (src/bimap.h, lines 199-244 and 269-299)

    [erase_left(it)] and [erase_right(it)] unlink a record from both trees
    (first from the other side's tree, through [flip]), step the iterator,
    free the record and decrement [m_size].  The core lemma
    [erase_record_inv] says that erasing the record's entry from both
    trees and deleting it keeps the container invariant; the theorems of
    the operations follow the code's steps and apply it. *)

From S2P Require Import Prelude Node Tree Repr IntrusiveSet SetInterface SetErase Bimap.

Open Scope st_scope.

Section BimapErase.
Context `{OS : OrderedSet}.
Context {Left Right : Type} `{CompareLeft : Compare Left} `{CompareRight : Compare Right}.
Implicit Types (b : bimap Left Right) (tl : tree Left) (tr : tree Right) (x : Left)
  (y : Right) (l : loc).

(** Deleting a record whose entries have been erased from both trees. *)
Lemma erase_record_inv b tl tr l x y hl hr tl' tr' AL BL AR BR :
  bimap_inv b tl tr -> records b !! l = Some (x, y) ->
  elements tl = AL ++ (l, x) :: BL -> elements tr = AR ++ (l, y) :: BR ->
  set_wf (left_key b) hl sentinel tl' -> elements tl' = AL ++ BL ->
  set_wf (right_key b) hr sentinel tr' -> elements tr' = AR ++ BR ->
  bimap_inv (mk_bimap (delete l (records b)) (delete l hl) (delete l hr)
                      (size_t_wrap (m_size b + -1))) tl' tr'.
Proof.
  intros Hinv Hl HtlA HtrA Hwfl Htl' Hwfr Htr'.
  pose proof Hinv as (Hwl & Hwr & Hlocsl & Hlocsr & Hsize & Hsmall).
  pose proof (set_wf_nodup _ _ _ _ Hwl) as Hndl.
  pose proof (set_wf_nodup _ _ _ _ Hwr) as Hndr.
  unfold locs in Hndl, Hndr, Hlocsl, Hlocsr. rewrite HtlA in Hndl, Hlocsl.
  rewrite HtrA in Hndr, Hlocsr.
  assert (forall z, z ∈ locs tl' <-> z ∈ locs tl /\ z <> l) as Hinl.
  { intros z. unfold locs. rewrite Htl', HtlA. by apply elem_of_fst_remove. }
  assert (forall z, z ∈ locs tr' <-> z ∈ locs tr /\ z <> l) as Hinr.
  { intros z. unfold locs. rewrite Htr', HtrA. by apply elem_of_fst_remove. }
  assert (sentinel <> l) as Hsl.
  { intros <-. by rewrite (sentinel_not_record _ _ _ Hinv) in Hl. }
  assert (stdpp.base.size (records b) <> 0) as Hne0.
  { by apply (map_size_ne_0_lookup_2 _ l). }
  unfold bimap_inv. simpl. split_and!.
  - apply (set_wf_frame (left_key b) _ hl); [done| |].
    + intros z [_ Hz]%Hinl. unfold left_key. simpl. by rewrite lookup_delete_ne.
    + intros z [->|[_ Hz]%Hinl]; by rewrite lookup_delete_ne.
  - apply (set_wf_frame (right_key b) _ hr); [done| |].
    + intros z [_ Hz]%Hinr. unfold right_key. simpl. by rewrite lookup_delete_ne.
    + intros z [->|[_ Hz]%Hinr]; by rewrite lookup_delete_ne.
  - intros z. rewrite Hinl, lookup_delete_is_Some. unfold locs. rewrite HtlA, Hlocsl.
    naive_solver.
  - intros z. rewrite Hinr, lookup_delete_is_Some. unfold locs. rewrite HtrA, Hlocsr.
    naive_solver.
  - rewrite map_size_delete_Some by (by eexists). unfold size_t_wrap.
    rewrite Hsize, Z.mod_small; lia.
  - rewrite map_size_delete_Some by (by eexists). lia.
Qed.

(** The container after [erase_left(it)] / [erase_right(it)]. *)
Lemma erased_size b tl tr l xy :
  bimap_inv b tl tr -> records b !! l = Some xy ->
  size_t_wrap (m_size b + -1) = (m_size b - 1)%Z.
Proof.
  intros (_ & _ & _ & _ & Hsize & Hsmall) Hl.
  pose proof (map_size_ne_0_lookup_2 (records b) l ltac:(by eexists)).
  unfold size_t_wrap. rewrite Hsize, Z.mod_small; lia.
Qed.

(** [erase_left(it)] on the left iterator of a record. *)
Lemma erase_left_it_spec b tl tr l x y AL BL :
  bimap_inv b tl tr -> records b !! l = Some (x, y) -> elements tl = AL ++ (l, x) :: BL ->
  exists b' tl' tr' AR BR,
    erase_left_it l b = Some (default end_left (fst <$> head BL), b') /\
    bimap_inv b' tl' tr' /\ records b' = delete l (records b) /\
    elements tl' = AL ++ BL /\ elements tr = AR ++ (l, y) :: BR /\
    elements tr' = AR ++ BR /\ m_size b' = (m_size b - 1)%Z.
Proof.
  intros Hinv Hl HtlA. pose proof Hinv as (Hwl & Hwr & _).
  destruct (list_elem_of_split _ _ (inv_records_right _ _ _ _ _ _ Hinv Hl)) as (AR & BR & HtrA).
  destruct (set_erase_spec (right_key b) (rnodes b) sentinel tr AR l y BR Hwr HtrA)
    as (tr' & hr & Hrun_r & Hwfr & Htr' & _).
  destruct (set_erase_spec (left_key b) (lnodes b) sentinel tl AL l x BL Hwl HtlA)
    as (tl' & hl & Hrun_l & Hwfl & Htl' & _).
  exists (mk_bimap (delete l (records b)) (delete l hl) (delete l hr)
                   (size_t_wrap (m_size b + -1))), tl', tr', AR, BR.
  unfold erase_left_it.
  assert (run_right (fun _ => set_erase (flip l)) b =
          Some (l, mk_bimap (records b) (lnodes b) hr (m_size b))) as Hr1.
  { unfold run_right, flip. by rewrite Hrun_r. }
  st_seq Hr1.
  assert (st_lift (fun b0 => next_left b0 l) (mk_bimap (records b) (lnodes b) hr (m_size b)) =
          Some (default end_left (fst <$> head BL),
                mk_bimap (records b) (lnodes b) hr (m_size b))) as Hn.
  { apply st_lift_Some. unfold next_left. simpl. by rewrite (set_incr_spec _ _ _ _ _ _ _ _ Hwl HtlA), end_left_sentinel. }
  st_seq Hn.
  assert (run_left (fun _ => set_erase l) (mk_bimap (records b) (lnodes b) hr (m_size b))
          = Some (l, mk_bimap (records b) hl hr (m_size b))) as Hl1.
  { unfold run_left. simpl. by rewrite Hrun_l. }
  st_seq Hl1.
  assert (delete_storage l (mk_bimap (records b) hl hr (m_size b)) =
          Some (tt, mk_bimap (delete l (records b)) (delete l hl) (delete l hr) (m_size b))) as Hd.
  { unfold delete_storage. simpl. by rewrite Hl. }
  st_seq Hd. split_and!; [reflexivity| |done|done|done|done|by eapply erased_size].
  by eapply erase_record_inv.
Qed.

(** [erase_right(it)] on the right iterator of a record. *)
Lemma erase_right_it_spec b tl tr l x y AR BR :
  bimap_inv b tl tr -> records b !! l = Some (x, y) -> elements tr = AR ++ (l, y) :: BR ->
  exists b' tl' tr' AL BL,
    erase_right_it l b = Some (default end_right (fst <$> head BR), b') /\
    bimap_inv b' tl' tr' /\ records b' = delete l (records b) /\
    elements tr' = AR ++ BR /\ elements tl = AL ++ (l, x) :: BL /\
    elements tl' = AL ++ BL /\ m_size b' = (m_size b - 1)%Z.
Proof.
  intros Hinv Hl HtrA. pose proof Hinv as (Hwl & Hwr & _).
  destruct (list_elem_of_split _ _ (inv_records_left _ _ _ _ _ _ Hinv Hl)) as (AL & BL & HtlA).
  destruct (set_erase_spec (left_key b) (lnodes b) sentinel tl AL l x BL Hwl HtlA)
    as (tl' & hl & Hrun_l & Hwfl & Htl' & _).
  destruct (set_erase_spec (right_key b) (rnodes b) sentinel tr AR l y BR Hwr HtrA)
    as (tr' & hr & Hrun_r & Hwfr & Htr' & _).
  exists (mk_bimap (delete l (records b)) (delete l hl) (delete l hr)
                   (size_t_wrap (m_size b + -1))), tl', tr', AL, BL.
  unfold erase_right_it.
  assert (run_left (fun _ => set_erase (flip l)) b =
          Some (l, mk_bimap (records b) hl (rnodes b) (m_size b))) as Hl1.
  { unfold run_left, flip. by rewrite Hrun_l. }
  st_seq Hl1.
  assert (st_lift (fun b0 => next_right b0 l) (mk_bimap (records b) hl (rnodes b) (m_size b)) =
          Some (default end_right (fst <$> head BR),
                mk_bimap (records b) hl (rnodes b) (m_size b))) as Hn.
  { apply st_lift_Some. unfold next_right. simpl. by rewrite (set_incr_spec _ _ _ _ _ _ _ _ Hwr HtrA), end_right_sentinel. }
  st_seq Hn.
  assert (run_right (fun _ => set_erase l) (mk_bimap (records b) hl (rnodes b) (m_size b))
          = Some (l, mk_bimap (records b) hl hr (m_size b))) as Hr1.
  { unfold run_right. simpl. by rewrite Hrun_r. }
  st_seq Hr1.
  assert (delete_storage l (mk_bimap (records b) hl hr (m_size b)) =
          Some (tt, mk_bimap (delete l (records b)) (delete l hl) (delete l hr) (m_size b))) as Hd.
  { unfold delete_storage. simpl. by rewrite Hl. }
  st_seq Hd. split_and!; [reflexivity| |done|done|done|done|by eapply erased_size].
  by eapply erase_record_inv.
Qed.

Lemma not_end_record b tl tr l xy :
  bimap_inv b tl tr -> records b !! l = Some xy -> l <> end_left /\ l <> end_right.
Proof.
  intros Hinv Hl. rewrite end_left_sentinel, end_right_sentinel.
  split; intros ->; by rewrite (sentinel_not_record _ _ _ Hinv) in Hl.
Qed.

(** [erase_left(key)] on both of its branches. *)
Lemma erase_left_spec b tl tr x :
  bimap_inv b tl tr ->
  (forall l x' y, records b !! l = Some (x', y) -> equals x x' = true ->
     exists b' tl' tr', erase_left x b = Some (true, b') /\ bimap_inv b' tl' tr' /\
       records b' = delete l (records b) /\ m_size b' = (m_size b - 1)%Z) /\
  ((forall l x' y, records b !! l = Some (x', y) -> equals x x' = false) ->
     erase_left x b = Some (false, b)).
Proof.
  intros Hinv. split.
  - intros l x' y Hl Heq.
    destruct (list_elem_of_split _ _ (inv_records_left _ _ _ _ _ _ Hinv Hl)) as (AL & BL & HtlA).
    destruct (erase_left_it_spec b tl tr l x' y AL BL Hinv Hl HtlA)
      as (b' & tl' & tr' & _ & _ & Hrun & Hinv' & Hrec & _ & _ & _ & Hsz).
    exists b', tl', tr'. split_and!; [|done|done|done].
    unfold erase_left.
    st_seq (st_lift_Some (fun b0 => find_left b0 x) b l (find_left_hit _ _ _ _ _ _ _ Hinv Hl Heq)).
    rewrite (record_it_neq _ _ _ _ _ Hinv Hl).
    st_seq Hrun. reflexivity.
  - intros Hne. unfold erase_left.
    st_seq (st_lift_Some (fun b0 => find_left b0 x) b end_left (find_left_miss _ _ _ _ Hinv Hne)).
    by rewrite it_neq_refl.
Qed.

(** [erase_right(key)] on both of its branches. *)
Lemma erase_right_spec b tl tr y :
  bimap_inv b tl tr ->
  (forall l x y', records b !! l = Some (x, y') -> equals y y' = true ->
     exists b' tl' tr', erase_right y b = Some (true, b') /\ bimap_inv b' tl' tr' /\
       records b' = delete l (records b) /\ m_size b' = (m_size b - 1)%Z) /\
  ((forall l x y', records b !! l = Some (x, y') -> equals y y' = false) ->
     erase_right y b = Some (false, b)).
Proof.
  intros Hinv. split.
  - intros l x y' Hl Heq.
    destruct (list_elem_of_split _ _ (inv_records_right _ _ _ _ _ _ Hinv Hl)) as (AR & BR & HtrA).
    destruct (erase_right_it_spec b tl tr l x y' AR BR Hinv Hl HtrA)
      as (b' & tl' & tr' & _ & _ & Hrun & Hinv' & Hrec & _ & _ & _ & Hsz).
    exists b', tl', tr'. split_and!; [|done|done|done].
    unfold erase_right.
    st_seq (st_lift_Some (fun b0 => find_right b0 y) b l (find_right_hit _ _ _ _ _ _ _ Hinv Hl Heq)).
    rewrite (record_it_neq_right _ _ _ _ _ Hinv Hl).
    st_seq Hrun. reflexivity.
  - intros Hne. unfold erase_right.
    st_seq (st_lift_Some (fun b0 => find_right b0 y) b end_right (find_right_miss _ _ _ _ Hinv Hne)).
    by rewrite it_neq_refl.
Qed.

(** C28: [erase_left(key)] erases the record whose left key is equivalent
    to [key] and returns [true], or returns [false] and changes nothing
    when there is none; [erase_right(key)] does the same with the right
    key.  An erase keeps the invariant and decrements [m_size]. *)
Theorem erase_key_correct b tl tr x y :
  bimap_inv b tl tr ->
  ((forall l x' y', records b !! l = Some (x', y') -> equals x x' = true ->
      exists b' tl' tr', erase_left x b = Some (true, b') /\ bimap_inv b' tl' tr' /\
        records b' = delete l (records b) /\ m_size b' = (m_size b - 1)%Z) /\
   ((forall l x' y', records b !! l = Some (x', y') -> equals x x' = false) ->
      erase_left x b = Some (false, b))) /\
  ((forall l x' y', records b !! l = Some (x', y') -> equals y y' = true ->
      exists b' tl' tr', erase_right y b = Some (true, b') /\ bimap_inv b' tl' tr' /\
        records b' = delete l (records b) /\ m_size b' = (m_size b - 1)%Z) /\
   ((forall l x' y', records b !! l = Some (x', y') -> equals y y' = false) ->
      erase_right y b = Some (false, b))).
Proof. intros Hinv. split; [exact (erase_left_spec b tl tr x Hinv)|exact (erase_right_spec b tl tr y Hinv)]. Qed.

(** The records after the default value is detached from its record, if
    any, and paired with a new key at [l]: the other records are those
    that pass [P], and [l] held no record that passes [P]. *)
Definition replaced_default {A B} (P : A * B -> bool) (recs recs' : gmap loc (A * B))
    (l : loc) : Prop :=
  (forall xy, recs !! l = Some xy -> P xy = false) /\
  forall l' xy, l' <> l -> recs' !! l' = Some xy <-> recs !! l' = Some xy /\ P xy = true.

(** [insert] of two absent keys, seen from the records. *)
Lemma insert_new_records b tl tr x y :
  bimap_inv b tl tr ->
  (forall l x' y', records b !! l = Some (x', y') -> equals x x' = false /\ equals y y' = false) ->
  (Z.of_nat (stdpp.base.size (records b)) + 1 < size_t_modulus)%Z ->
  exists b' tl' tr' l, insert x y b = Some (l, b') /\ bimap_inv b' tl' tr' /\
    records b' !! l = Some (x, y) /\ records b !! l = None /\
    forall l', l' <> l -> records b' !! l' = records b !! l'.
Proof.
  intros Hinv Hne Hbound.
  destruct (insert_new_spec b tl tr x y Hinv Hne Hbound) as (b' & Hrun & Hinv' & Hrec & Hfresh & _).
  do 4 eexists. split_and!; [exact Hrun|exact Hinv'|by rewrite Hrec, lookup_insert_eq|exact Hfresh|].
  intros l' Hl'. by rewrite Hrec, lookup_insert_ne by done.
Qed.

Lemma replaced_none {A B} (P : A * B -> bool) recs recs' l :
  (forall l' q, recs !! l' = Some q -> P q = true) -> recs !! l = None ->
  (forall l', l' <> l -> recs' !! l' = recs !! l') -> replaced_default P recs recs' l.
Proof.
  intros HP Hl Hrest. split; [intros xy Hxy; congruence|].
  intros l' q Hl'. rewrite Hrest by done. split; [|tauto].
  intros Hq. split; [done|]. by eapply HP.
Qed.

(** The only record that fails [P] is at [l2]. *)
Lemma delete_unique_sub {A B} (P : A * B -> bool) (recs : gmap loc (A * B)) l2 :
  (forall l q, recs !! l = Some q -> P q = false -> l = l2) ->
  forall l q, delete l2 recs !! l = Some q -> recs !! l = Some q /\ P q = true.
Proof.
  intros Huniq l q. rewrite lookup_delete_Some. intros [Hne Hq]. split; [done|].
  destruct (P q) eqn:E; [done|]. exfalso. apply Hne. symmetry. by eapply Huniq.
Qed.

Lemma replaced_one {A B} (P : A * B -> bool) recs recs' l l2 q2 :
  recs !! l2 = Some q2 -> P q2 = false -> (forall l' q, recs !! l' = Some q -> P q = false -> l' = l2) ->
  delete l2 recs !! l = None ->
  (forall l', l' <> l -> recs' !! l' = delete l2 recs !! l') -> replaced_default P recs recs' l.
Proof.
  intros Hl2 HP2 Huniq Hl Hrest. split.
  { intros xy Hxy. destruct (decide (l = l2)) as [->|Hne]; [congruence|].
    rewrite lookup_delete_ne in Hl by done. congruence. }
  intros l' q Hl'. rewrite Hrest by done. split.
  - intros Hq. by apply (delete_unique_sub P recs l2 Huniq).
  - intros [Hq HP]. apply lookup_delete_Some. split; [|done]. intros ->. congruence.
Qed.

(** The end of [at_left_or_default(key)]: [*insert(key,
    std::move(tmp)).flip()] once no record holds [key] or the default
    right value. *)
Lemma insert_default_right `{Default Right} b x :
  (forall l x' y, records b !! l = Some (x', y) -> equals x x' = false) ->
  forall b1 tl1 tr1, bimap_inv b1 tl1 tr1 ->
  (forall l q, records b1 !! l = Some q ->
     records b !! l = Some q /\ negb (equals default_value q.2) = true) ->
  (Z.of_nat (stdpp.base.size (records b1)) + 1 < size_t_modulus)%Z ->
  exists b' tl' tr' l,
    (it3 <- insert x default_value ;;
     st_lift (fun b0 => deref_right b0 (flip it3))) b1 = Some (default_value, b') /\
    bimap_inv b' tl' tr' /\ records b' !! l = Some (x, default_value) /\
    records b1 !! l = None /\ forall l', l' <> l -> records b' !! l' = records b1 !! l'.
Proof.
  intros Hne b1 tl1 tr1 Hinv1 Hsub Hbound1.
  destruct (insert_new_records b1 tl1 tr1 x default_value Hinv1)
    as (b' & tl' & tr' & l & Hrun & Hinv' & Hl & Hfresh & Hrest); [|done|].
  { intros l x' y' Hl. destruct (Hsub l (x', y') Hl) as [Hl0 HP].
    split; [by eapply Hne|by apply negb_true_iff]. }
  exists b', tl', tr', l. st_seq Hrun. split_and!; [|done|done|done|done].
  apply st_lift_Some. unfold deref_right, right_key, flip. by rewrite Hl.
Qed.

(** The end of [at_right_or_default(key)]: [*insert(std::move(tmp), key)]
    once no record holds [key] or the default left value. *)
Lemma insert_default_left `{Default Left} b y :
  (forall l x y', records b !! l = Some (x, y') -> equals y y' = false) ->
  forall b1 tl1 tr1, bimap_inv b1 tl1 tr1 ->
  (forall l q, records b1 !! l = Some q ->
     records b !! l = Some q /\ negb (equals default_value q.1) = true) ->
  (Z.of_nat (stdpp.base.size (records b1)) + 1 < size_t_modulus)%Z ->
  exists b' tl' tr' l,
    (it3 <- insert default_value y ;;
     st_lift (fun b0 => deref_left b0 it3)) b1 = Some (default_value, b') /\
    bimap_inv b' tl' tr' /\ records b' !! l = Some (default_value, y) /\
    records b1 !! l = None /\ forall l', l' <> l -> records b' !! l' = records b1 !! l'.
Proof.
  intros Hne b1 tl1 tr1 Hinv1 Hsub Hbound1.
  destruct (insert_new_records b1 tl1 tr1 default_value y Hinv1)
    as (b' & tl' & tr' & l & Hrun & Hinv' & Hl & Hfresh & Hrest); [|done|].
  { intros l x' y' Hl. destruct (Hsub l (x', y') Hl) as [Hl0 HP].
    split; [by apply negb_true_iff|by eapply Hne]. }
  exists b', tl', tr', l. st_seq Hrun. split_and!; [|done|done|done|done].
  apply st_lift_Some. unfold deref_left, left_key. by rewrite Hl.
Qed.

(** [at_left_or_default(key)] on both of its branches. *)
Lemma at_left_or_default_spec `{Default Right} b tl tr x :
  bimap_inv b tl tr ->
  (forall l x' y, records b !! l = Some (x', y) -> equals x x' = true ->
     at_left_or_default x b = Some (y, b)) /\
  ((forall l x' y, records b !! l = Some (x', y) -> equals x x' = false) ->
   (Z.of_nat (stdpp.base.size (records b)) + 1 < size_t_modulus)%Z ->
   exists b' tl' tr' l, at_left_or_default x b = Some (default_value, b') /\
     bimap_inv b' tl' tr' /\ records b' !! l = Some (x, default_value) /\
     replaced_default (fun xy => negb (equals default_value xy.2)) (records b) (records b') l).
Proof.
  intros Hinv. split.
  - intros l x' y Hl Heq. unfold at_left_or_default.
    st_seq (st_lift_Some (fun b0 => find_left b0 x) b l (find_left_hit _ _ _ _ _ _ _ Hinv Hl Heq)).
    rewrite (record_it_neq _ _ _ _ _ Hinv Hl).
    apply st_lift_Some. unfold deref_right, right_key, flip. by rewrite Hl.
  - intros Hne Hbound. unfold at_left_or_default.
    st_seq (st_lift_Some (fun b0 => find_left b0 x) b end_left (find_left_miss _ _ _ _ Hinv Hne)).
    rewrite it_neq_refl. cbv zeta.
    pose proof (insert_default_right b x Hne) as Hins.
    set (P := fun xy : Left * Right => negb (equals default_value xy.2)) in *.
    destruct (find_right_cases b tl tr default_value Hinv)
      as [[Hfr Hnone]|(l2 & x2 & y2 & Hfr & Hl2 & Heq2)].
    + st_seq (st_lift_Some (fun b0 => find_right b0 default_value) b end_right Hfr).
      rewrite it_neq_refl. st_seq (st_ret_Some tt b).
      assert (forall l q, records b !! l = Some q -> P q = true) as HP.
      { intros l [x' y'] Hl. unfold P. simpl. by rewrite (Hnone _ _ _ Hl). }
      destruct (Hins b tl tr Hinv) as (b' & tl' & tr' & l & Hrun & Hinv' & Hl & Hfresh & Hrest);
        [intros l q Hl; split; [done|by eapply HP]|done|].
      exists b', tl', tr', l. split_and!; [done|done|done|by apply replaced_none].
    + st_seq (st_lift_Some (fun b0 => find_right b0 default_value) b l2 Hfr).
      rewrite (record_it_neq_right _ _ _ _ _ Hinv Hl2).
      destruct (list_elem_of_split _ _ (inv_records_right _ _ _ _ _ _ Hinv Hl2)) as (AR & BR & HtrA).
      destruct (erase_right_it_spec b tl tr l2 x2 y2 AR BR Hinv Hl2 HtrA)
        as (b1 & tl1 & tr1 & _ & _ & Hrun1 & Hinv1 & Hrec1 & _).
      st_seq Hrun1. st_seq (st_ret_Some tt b1).
      assert (forall l q, records b !! l = Some q -> P q = false -> l = l2) as Huniq.
      { intros l [x' y'] Hl Heq. apply negb_false_iff in Heq.
        apply (right_key_unique b tl tr l l2 x' y' x2 y2 Hinv Hl Hl2).
        rewrite equals_sym in Heq. by eapply equals_trans. }
      destruct (Hins b1 tl1 tr1 Hinv1) as (b' & tl' & tr' & l & Hrun & Hinv' & Hl & Hfresh & Hrest).
      { rewrite Hrec1. by apply delete_unique_sub. }
      { rewrite Hrec1, map_size_delete_Some by (by eexists). lia. }
      exists b', tl', tr', l. split_and!; [done|done|done|].
      apply (replaced_one _ _ _ _ l2 (x2, y2)); [done|unfold P; simpl; by rewrite Heq2|done|by rewrite <-Hrec1|].
      intros l' Hl'. by rewrite Hrest, Hrec1.
Qed.

(** [at_right_or_default(key)] on both of its branches. *)
Lemma at_right_or_default_spec `{Default Left} b tl tr y :
  bimap_inv b tl tr ->
  (forall l x y', records b !! l = Some (x, y') -> equals y y' = true ->
     at_right_or_default y b = Some (x, b)) /\
  ((forall l x y', records b !! l = Some (x, y') -> equals y y' = false) ->
   (Z.of_nat (stdpp.base.size (records b)) + 1 < size_t_modulus)%Z ->
   exists b' tl' tr' l, at_right_or_default y b = Some (default_value, b') /\
     bimap_inv b' tl' tr' /\ records b' !! l = Some (default_value, y) /\
     replaced_default (fun xy => negb (equals default_value xy.1)) (records b) (records b') l).
Proof.
  intros Hinv. split.
  - intros l x y' Hl Heq. unfold at_right_or_default.
    st_seq (st_lift_Some (fun b0 => find_right b0 y) b l (find_right_hit _ _ _ _ _ _ _ Hinv Hl Heq)).
    rewrite (record_it_neq_right _ _ _ _ _ Hinv Hl).
    apply st_lift_Some. unfold deref_left, left_key, flip. by rewrite Hl.
  - intros Hne Hbound. unfold at_right_or_default.
    st_seq (st_lift_Some (fun b0 => find_right b0 y) b end_right (find_right_miss _ _ _ _ Hinv Hne)).
    rewrite it_neq_refl. cbv zeta.
    pose proof (insert_default_left b y Hne) as Hins.
    set (P := fun xy : Left * Right => negb (equals default_value xy.1)) in *.
    destruct (find_left_cases b tl tr default_value Hinv)
      as [[Hfl Hnone]|(l2 & x2 & y2 & Hfl & Hl2 & Heq2)].
    + st_seq (st_lift_Some (fun b0 => find_left b0 default_value) b end_left Hfl).
      rewrite it_neq_refl. st_seq (st_ret_Some tt b).
      assert (forall l q, records b !! l = Some q -> P q = true) as HP.
      { intros l [x' y'] Hl. unfold P. simpl. by rewrite (Hnone _ _ _ Hl). }
      destruct (Hins b tl tr Hinv) as (b' & tl' & tr' & l & Hrun & Hinv' & Hl & Hfresh & Hrest);
        [intros l q Hl; split; [done|by eapply HP]|done|].
      exists b', tl', tr', l. split_and!; [done|done|done|by apply replaced_none].
    + st_seq (st_lift_Some (fun b0 => find_left b0 default_value) b l2 Hfl).
      rewrite (record_it_neq _ _ _ _ _ Hinv Hl2).
      destruct (list_elem_of_split _ _ (inv_records_left _ _ _ _ _ _ Hinv Hl2)) as (AL & BL & HtlA).
      destruct (erase_left_it_spec b tl tr l2 x2 y2 AL BL Hinv Hl2 HtlA)
        as (b1 & tl1 & tr1 & _ & _ & Hrun1 & Hinv1 & Hrec1 & _).
      st_seq Hrun1. st_seq (st_ret_Some tt b1).
      assert (forall l q, records b !! l = Some q -> P q = false -> l = l2) as Huniq.
      { intros l [x' y'] Hl Heq. apply negb_false_iff in Heq.
        apply (left_key_unique b tl tr l l2 x' y' x2 y2 Hinv Hl Hl2).
        rewrite equals_sym in Heq. by eapply equals_trans. }
      destruct (Hins b1 tl1 tr1 Hinv1) as (b' & tl' & tr' & l & Hrun & Hinv' & Hl & Hfresh & Hrest).
      { rewrite Hrec1. by apply delete_unique_sub. }
      { rewrite Hrec1, map_size_delete_Some by (by eexists). lia. }
      exists b', tl', tr', l. split_and!; [done|done|done|].
      apply (replaced_one _ _ _ _ l2 (x2, y2)); [done|unfold P; simpl; by rewrite Heq2|done|by rewrite <-Hrec1|].
      intros l' Hl'. by rewrite Hrest, Hrec1.
Qed.

(** C29: [at_left_or_default(key)] returns the right key paired with
    [key] when it is present and changes nothing; otherwise it detaches
    the default right value from the record holding it, if any, pairs it
    with [key] in a new record, and returns it, keeping the invariant.
    [at_right_or_default(key)] does the same with the sides exchanged. *)
Theorem at_or_default_correct `{Default Left} `{Default Right} b tl tr x y :
  bimap_inv b tl tr ->
  ((forall l x' y', records b !! l = Some (x', y') -> equals x x' = true ->
      at_left_or_default x b = Some (y', b)) /\
   ((forall l x' y', records b !! l = Some (x', y') -> equals x x' = false) ->
    (Z.of_nat (stdpp.base.size (records b)) + 1 < size_t_modulus)%Z ->
    exists b' tl' tr' l, at_left_or_default x b = Some (default_value, b') /\
      bimap_inv b' tl' tr' /\ records b' !! l = Some (x, default_value) /\
      replaced_default (fun xy => negb (equals default_value xy.2)) (records b) (records b') l)) /\
  ((forall l x' y', records b !! l = Some (x', y') -> equals y y' = true ->
      at_right_or_default y b = Some (x', b)) /\
   ((forall l x' y', records b !! l = Some (x', y') -> equals y y' = false) ->
    (Z.of_nat (stdpp.base.size (records b)) + 1 < size_t_modulus)%Z ->
    exists b' tl' tr' l, at_right_or_default y b = Some (default_value, b') /\
      bimap_inv b' tl' tr' /\ records b' !! l = Some (default_value, y) /\
      replaced_default (fun xy => negb (equals default_value xy.1)) (records b) (records b') l)).
Proof.
  intros Hinv.
  split; [exact (at_left_or_default_spec b tl tr x Hinv)|exact (at_right_or_default_spec b tl tr y Hinv)].
Qed.

(** C6: [erase_left(it)] on the left iterator of a record returns the
    iterator that follows it in the left order ([end_left()] after the
    last), removes the record from both trees and from the container,
    keeps the invariant and decrements [m_size]. *)
Theorem erase_left_it_correct b tl tr l x y AL BL :
  bimap_inv b tl tr -> records b !! l = Some (x, y) -> elements tl = AL ++ (l, x) :: BL ->
  exists b' tl' tr' AR BR,
    erase_left_it l b = Some (default end_left (fst <$> head BL), b') /\
    bimap_inv b' tl' tr' /\ records b' = delete l (records b) /\
    elements tl' = AL ++ BL /\ elements tr = AR ++ (l, y) :: BR /\
    elements tr' = AR ++ BR /\ m_size b' = (m_size b - 1)%Z.
Proof. apply erase_left_it_spec. Qed.

(** C23: [erase_right(it)] on the right iterator of a record returns the
    iterator that follows it in the right order ([end_right()] after the
    last), removes the record from both trees and from the container,
    keeps the invariant and decrements [m_size]. *)
Theorem erase_right_it_correct b tl tr l x y AR BR :
  bimap_inv b tl tr -> records b !! l = Some (x, y) -> elements tr = AR ++ (l, y) :: BR ->
  exists b' tl' tr' AL BL,
    erase_right_it l b = Some (default end_right (fst <$> head BR), b') /\
    bimap_inv b' tl' tr' /\ records b' = delete l (records b) /\
    elements tr' = AR ++ BR /\ elements tl = AL ++ (l, x) :: BL /\
    elements tl' = AL ++ BL /\ m_size b' = (m_size b - 1)%Z.
Proof. apply erase_right_it_spec. Qed.

(** Each round of the loop of [erase_left(first, last)] erases the record
    at the iterator and steps to the next one. *)
(** The records after a range erase that starts at [l]. *)
Lemma range_records_cons (r r1 r' : gmap loc (Left * Right)) l (ls : list loc) :
  r1 = delete l r -> (forall l0, r' !! l0 = if bool_decide (l0 ∈ ls) then None else r1 !! l0) ->
  forall l0, r' !! l0 = if bool_decide (l0 ∈ l :: ls) then None else r !! l0.
Proof.
  intros -> Hr' l0. rewrite Hr'. destruct (decide (l0 = l)) as [->|Hne].
  - rewrite lookup_delete_eq, (bool_decide_true (l ∈ _ :: _)) by set_solver.
    by case_bool_decide.
  - rewrite lookup_delete_ne by done.
    destruct (decide (l0 ∈ ls));
      [rewrite !bool_decide_true by set_solver|rewrite !bool_decide_false by set_solver]; done.
Qed.

(** A range of a sequence of distinct live records has at most as many
    entries as there are records. *)
Lemma range_length {K} (r : gmap loc (Left * Right)) (A M B : list (loc * K)) :
  NoDup (A ++ M ++ B).*1 -> (forall l, l ∈ (A ++ M ++ B).*1 -> is_Some (r !! l)) ->
  length M <= stdpp.base.size r.
Proof.
  intros Hnd Hlocs. assert (length M.*1 <= stdpp.base.size r); [|by rewrite length_fmap in *].
  apply NoDup_lookup_length.
  - rewrite !fmap_app, !NoDup_app in Hnd. tauto.
  - intros y Hy. apply Hlocs. rewrite !fmap_app, !elem_of_app. auto.
Qed.

Lemma erase_left_range_loop_spec fuel b tl tr A M B :
  bimap_inv b tl tr -> elements tl = A ++ M ++ B -> length M < fuel ->
  exists b' tl' tr',
    erase_left_range_loop fuel (it_of (M ++ B)) (it_of B) b = Some (it_of B, b') /\
    bimap_inv b' tl' tr' /\ elements tl' = A ++ B /\
    (forall l, records b' !! l = if bool_decide (l ∈ M.*1) then None else records b !! l) /\
    m_size b' = (m_size b - Z.of_nat (length M))%Z.
Proof.
  revert fuel b tl tr A. induction M as [|[l x] M IH]; intros fuel b tl tr A Hinv Htl Hfuel.
  - destruct fuel as [|fuel]; [simpl in Hfuel; lia|]. simpl.
    rewrite it_neq_refl.
    exists b, tl, tr. split_and!; [done|done|done| |simpl; lia].
    done.
  - destruct fuel as [|fuel]; [simpl in Hfuel; lia|]. simpl in Hfuel |- *.
    pose proof (set_wf_nodup _ _ _ _ (proj1 Hinv)) as Hnd.
    unfold locs in Hnd. rewrite Htl in Hnd.
    destruct (inv_left_elements b tl tr l x) as [y Hl]; [done|rewrite Htl; set_solver|].
    rewrite it_neq_spec, bool_decide_true.
    2:{ destruct B as [|[l' x'] B]; simpl.
        - apply (not_end_record _ _ _ _ _ Hinv Hl).
        - intros ->. rewrite !fmap_app in Hnd. simpl in Hnd.
          apply NoDup_app in Hnd as (_ & _ & Hnd). apply NoDup_cons in Hnd as [Hnd _].
          apply Hnd. apply elem_of_app. right. by left. }
    destruct (erase_left_it_spec b tl tr l x y A (M ++ B) Hinv Hl Htl)
      as (b1 & tl1 & tr1 & _ & _ & Hrun & Hinv1 & Hrec1 & Htl1 & _ & _ & Hsz1).
    st_seq Hrun.
    destruct (IH fuel b1 tl1 tr1 A Hinv1 Htl1 ltac:(lia))
      as (b' & tl' & tr' & Hrun' & Hinv' & Htl' & Hrec' & Hsz').
    exists b', tl', tr'. split_and!; [done|done|done| |rewrite Hsz', Hsz1; lia].
    by apply (range_records_cons _ (records b1)).
Qed.

(** [erase_left(first, last)] on the iterators of a range of the left
    order. *)
Lemma erase_left_range_spec b tl tr A M B :
  bimap_inv b tl tr -> elements tl = A ++ M ++ B ->
  exists b' tl' tr',
    erase_left_range (it_of (M ++ B)) (it_of B) b = Some (it_of B, b') /\
    bimap_inv b' tl' tr' /\ elements tl' = A ++ B /\
    (forall l, records b' !! l = if bool_decide (l ∈ M.*1) then None else records b !! l) /\
    m_size b' = (m_size b - Z.of_nat (length M))%Z.
Proof.
  intros Hinv Htl. unfold erase_left_range. st_seq (st_ret_Some b b : st_get b = Some (b, b)).
  apply (erase_left_range_loop_spec _ _ tl tr A); [done|done|].
  pose proof (set_wf_nodup _ _ _ _ (proj1 Hinv)) as Hnd. pose proof Hinv as (_ & _ & Hlocs & _).
  unfold locs in Hnd, Hlocs. rewrite Htl in Hnd, Hlocs.
  pose proof (range_length (records b) A M B Hnd (fun l Hl => proj1 (Hlocs l) Hl)). lia.
Qed.

(** The right iterator of the first entry of a sequence, [end_right()]
    when it is empty. *)
Notation rit_of s := (default end_right (fst <$> head s)).

Lemma erase_right_range_loop_spec fuel b tl tr A M B :
  bimap_inv b tl tr -> elements tr = A ++ M ++ B -> length M < fuel ->
  exists b' tl' tr',
    erase_right_range_loop fuel (rit_of (M ++ B)) (rit_of B) b = Some (rit_of B, b') /\
    bimap_inv b' tl' tr' /\ elements tr' = A ++ B /\
    (forall l, records b' !! l = if bool_decide (l ∈ M.*1) then None else records b !! l) /\
    m_size b' = (m_size b - Z.of_nat (length M))%Z.
Proof.
  revert fuel b tl tr A. induction M as [|[l y] M IH]; intros fuel b tl tr A Hinv Htr Hfuel.
  - destruct fuel as [|fuel]; [simpl in Hfuel; lia|]. simpl.
    rewrite it_neq_refl.
    exists b, tl, tr. split_and!; [done|done|done|done|simpl; lia].
  - destruct fuel as [|fuel]; [simpl in Hfuel; lia|]. simpl in Hfuel |- *.
    pose proof (set_wf_nodup _ _ _ _ (proj1 (proj2 Hinv))) as Hnd.
    unfold locs in Hnd. rewrite Htr in Hnd.
    destruct (inv_right_elements b tl tr l y) as [x Hl]; [done|rewrite Htr; set_solver|].
    rewrite it_neq_spec, bool_decide_true.
    2:{ destruct B as [|[l' y'] B]; simpl.
        - apply (not_end_record _ _ _ _ _ Hinv Hl).
        - intros ->. rewrite !fmap_app in Hnd. simpl in Hnd.
          apply NoDup_app in Hnd as (_ & _ & Hnd). apply NoDup_cons in Hnd as [Hnd _].
          apply Hnd. apply elem_of_app. right. by left. }
    destruct (erase_right_it_spec b tl tr l x y A (M ++ B) Hinv Hl Htr)
      as (b1 & tl1 & tr1 & _ & _ & Hrun & Hinv1 & Hrec1 & Htr1 & _ & _ & Hsz1).
    st_seq Hrun.
    destruct (IH fuel b1 tl1 tr1 A Hinv1 Htr1 ltac:(lia))
      as (b' & tl' & tr' & Hrun' & Hinv' & Htr' & Hrec' & Hsz').
    exists b', tl', tr'. split_and!; [done|done|done| |rewrite Hsz', Hsz1; lia].
    by apply (range_records_cons _ (records b1)).
Qed.

(** [erase_right(first, last)] over a range of the right order. *)
Lemma erase_right_range_spec b tl tr A M B :
  bimap_inv b tl tr -> elements tr = A ++ M ++ B ->
  exists b' tl' tr',
    erase_right_range (rit_of (M ++ B)) (rit_of B) b = Some (rit_of B, b') /\
    bimap_inv b' tl' tr' /\ elements tr' = A ++ B /\
    (forall l, records b' !! l = if bool_decide (l ∈ M.*1) then None else records b !! l) /\
    m_size b' = (m_size b - Z.of_nat (length M))%Z.
Proof.
  intros Hinv Htr. unfold erase_right_range. st_seq (st_ret_Some b b : st_get b = Some (b, b)).
  apply (erase_right_range_loop_spec _ _ tl tr A); [done|done|].
  pose proof (set_wf_nodup _ _ _ _ (proj1 (proj2 Hinv))) as Hnd. pose proof Hinv as (_ & _ & _ & Hlocs & _).
  unfold locs in Hnd, Hlocs. rewrite Htr in Hnd, Hlocs.
  pose proof (range_length (records b) A M B Hnd (fun l Hl => proj1 (Hlocs l) Hl)). lia.
Qed.

(** C30: [erase_left(first, last)] on the iterators of a range of the
    left order erases exactly the records of the range, keeps the
    invariant, decreases [m_size] by their number and returns [last];
    [erase_right(first, last)] does the same on a range of the right
    order. *)
Theorem erase_range_correct b tl tr A M B A' M' B' :
  bimap_inv b tl tr ->
  (elements tl = A ++ M ++ B ->
   exists b' tl' tr',
     erase_left_range (it_of (M ++ B)) (it_of B) b = Some (it_of B, b') /\
     bimap_inv b' tl' tr' /\ elements tl' = A ++ B /\
     (forall l, records b' !! l = if bool_decide (l ∈ M.*1) then None else records b !! l) /\
     m_size b' = (m_size b - Z.of_nat (length M))%Z) /\
  (elements tr = A' ++ M' ++ B' ->
   exists b' tl' tr',
     erase_right_range (rit_of (M' ++ B')) (rit_of B') b = Some (rit_of B', b') /\
     bimap_inv b' tl' tr' /\ elements tr' = A' ++ B' /\
     (forall l, records b' !! l = if bool_decide (l ∈ M'.*1) then None else records b !! l) /\
     m_size b' = (m_size b - Z.of_nat (length M'))%Z).
Proof.
  intros Hinv. split; [exact (erase_left_range_spec b tl tr A M B Hinv)|].
  exact (erase_right_range_spec b tl tr A' M' B' Hinv).
Qed.

(** The destructor on a container satisfying the invariant. *)
Lemma destroy_spec b tl tr :
  bimap_inv b tl tr ->
  exists b', destroy b = Some (tt, b') /\ records b' = ∅ /\ m_size b' = 0%Z /\
    bimap_inv b' Leaf Leaf.
Proof.
  intros Hinv. pose proof Hinv as (Hwl & _ & Hlocsl & _).
  pose proof (set_wf_nodup _ _ _ _ Hwl) as Hnd.
  destruct (erase_left_range_loop_spec (S (stdpp.base.size (records b))) b tl tr []
              (elements tl) [] Hinv ltac:(by rewrite app_nil_r))
    as (b' & tl' & tr' & Hrun & Hinv' & Htl' & Hrec' & _).
  { assert (length (locs tl) <= stdpp.base.size (records b)) as Hlen.
    { apply NoDup_lookup_length; [done|]. intros y. apply Hlocsl. }
    unfold locs in Hlen. rewrite length_fmap in Hlen. lia. }
  rewrite app_nil_r in Hrun. rewrite end_left_sentinel in Hrun.
  assert (records b' = ∅) as Hemp.
  { apply map_eq. intros l. rewrite Hrec', lookup_empty.
    case_bool_decide as Hl; [done|]. destruct (records b !! l) eqn:E; [|done].
    exfalso. apply Hl, Hlocsl. by eexists. }
  exists b'. unfold destroy.
  st_seq (st_lift_Some begin_left b _ (set_begin_spec _ _ _ _ Hwl)).
  unfold erase_left_range. st_seq (st_ret_Some b b : st_get b = Some (b, b)).
  rewrite end_left_sentinel. st_seq Hrun. split_and!; [done|done| |].
  - destruct Hinv' as (_ & _ & _ & _ & -> & _). by rewrite Hemp, map_size_empty.
  - simpl in Htl'. apply elements_nil in Htl' as ->.
    pose proof Hinv' as (_ & _ & _ & Hlocsr' & _).
    assert (tr' = Leaf) as ->; [|done].
    apply elements_nil. destruct (elements tr') as [|e es] eqn:E; [done|].
    exfalso. destruct (proj1 (Hlocsr' e.1)) as [? Hs].
    { unfold locs. rewrite E. by left. }
    by rewrite Hemp, lookup_empty in Hs.
Qed.

(** C31: the destructor [~bimap()] frees every record: the container it
    leaves holds no record, [m_size] is 0 and both trees are empty. *)
Theorem destroy_correct b tl tr :
  bimap_inv b tl tr ->
  exists b', destroy b = Some (tt, b') /\ records b' = ∅ /\ m_size b' = 0%Z /\
    bimap_inv b' Leaf Leaf.
Proof. apply destroy_spec. Qed.

End BimapErase.

(** ** Concrete runs

    On the container [ex_bimap] of [Bimap] (1-a at location 5, 2-b at 3,
    5-e at 2, 8-h at 4). *)

Lemma erase_left_it_correct_witness :
  exists b', erase_left_it 3 ex_bimap = Some (2%positive, b') /\
             records b' = delete 3%positive (records ex_bimap).
Proof.
  destruct (erase_left_it_correct ex_bimap ex_ltree ex_rtree 3 2%Z "b"
              [(5%positive, 1%Z)] [(2%positive, 5%Z); (4%positive, 8%Z)])
    as (b' & _ & _ & _ & _ & Hrun & _ & Hrec & _).
  - apply bimap_inv_check_sound. vm_compute. reflexivity.
  - reflexivity.
  - vm_compute. reflexivity.
  - exists b'. split; [exact Hrun|exact Hrec].
Defined.

Lemma erase_right_it_correct_witness :
  exists b', erase_right_it 3 ex_bimap = Some (2%positive, b') /\
             records b' = delete 3%positive (records ex_bimap).
Proof.
  destruct (erase_right_it_correct ex_bimap ex_ltree ex_rtree 3 2%Z "b"
              [(5%positive, "a"%string)] [(2%positive, "e"%string); (4%positive, "h"%string)])
    as (b' & _ & _ & _ & _ & Hrun & _ & Hrec & _).
  - apply bimap_inv_check_sound. vm_compute. reflexivity.
  - reflexivity.
  - vm_compute. reflexivity.
  - exists b'. split; [exact Hrun|exact Hrec].
Defined.

Lemma erase_key_correct_witness :
  (exists b', erase_left 2%Z ex_bimap = Some (true, b') /\
              records b' = delete 3%positive (records ex_bimap)) /\
  erase_left 7%Z ex_bimap = Some (false, ex_bimap) /\
  (exists b', erase_right "b" ex_bimap = Some (true, b') /\
              records b' = delete 3%positive (records ex_bimap)) /\
  erase_right "z" ex_bimap = Some (false, ex_bimap).
Proof.
  destruct (erase_key_correct ex_bimap ex_ltree ex_rtree 2%Z "b") as [[Hl _] [Hr _]];
    [exact ex_bimap_inv|].
  destruct (erase_key_correct ex_bimap ex_ltree ex_rtree 7%Z "z") as [[_ Hml] [_ Hmr]];
    [exact ex_bimap_inv|].
  split_and!.
  - destruct (Hl 3%positive 2%Z "b") as (b' & _ & _ & Hrun & _ & Hrec & _);
      [reflexivity|reflexivity|].
    exists b'. split; [exact Hrun|exact Hrec].
  - apply Hml. records_forall (fun (_ : loc) (p : Z * string) => equals 7%Z p.1 = false).
  - destruct (Hr 3%positive 2%Z "b") as (b' & _ & _ & Hrun & _ & Hrec & _);
      [reflexivity|reflexivity|].
    exists b'. split; [exact Hrun|exact Hrec].
  - apply Hmr.
    records_forall (fun (_ : loc) (p : Z * string) => equals "z"%string p.2 = false).
Defined.

Lemma at_or_default_correct_witness :
  at_left_or_default 5%Z ex_bimap = Some ("e"%string, ex_bimap) /\
  (exists b' l, at_left_or_default 7%Z ex_bimap = Some (EmptyString, b') /\
                records b' !! l = Some (7%Z, EmptyString)) /\
  at_right_or_default "e" ex_bimap = Some (5%Z, ex_bimap) /\
  (exists b' l, at_right_or_default "z" ex_bimap = Some (0%Z, b') /\
                records b' !! l = Some (0%Z, "z"%string)).
Proof.
  destruct (at_or_default_correct ex_bimap ex_ltree ex_rtree 5%Z "e") as [[Hl _] [Hr _]];
    [exact ex_bimap_inv|].
  destruct (at_or_default_correct ex_bimap ex_ltree ex_rtree 7%Z "z") as [[_ Hal] [_ Har]];
    [exact ex_bimap_inv|].
  split_and!; [by apply (Hl 2%positive 5%Z)| |by apply (Hr 2%positive 5%Z "e")|].
  - destruct Hal as (b' & _ & _ & l & Hrun & _ & Hl' & _).
    + records_forall (fun (_ : loc) (p : Z * string) => equals 7%Z p.1 = false).
    + vm_compute. reflexivity.
    + exists b', l. split; [exact Hrun|exact Hl'].
  - destruct Har as (b' & _ & _ & l & Hrun & _ & Hr' & _).
    + records_forall (fun (_ : loc) (p : Z * string) => equals "z"%string p.2 = false).
    + vm_compute. reflexivity.
    + exists b', l. split; [exact Hrun|exact Hr'].
Defined.

Lemma erase_range_correct_witness :
  (exists b', erase_left_range 3 4 ex_bimap = Some (4%positive, b') /\
    records b' !! 3%positive = None /\ records b' !! 2%positive = None /\
    records b' !! 5%positive = Some (1%Z, "a"%string)) /\
  (exists b', erase_right_range 3 4 ex_bimap = Some (4%positive, b') /\
    records b' !! 3%positive = None /\ records b' !! 2%positive = None /\
    records b' !! 4%positive = Some (8%Z, "h"%string)).
Proof.
  destruct (erase_range_correct ex_bimap ex_ltree ex_rtree [(5%positive, 1%Z)]
              [(3%positive, 2%Z); (2%positive, 5%Z)] [(4%positive, 8%Z)]
              [(5%positive, "a"%string)] [(3%positive, "b"%string); (2%positive, "e"%string)]
              [(4%positive, "h"%string)] ex_bimap_inv) as [Hl Hr].
  split.
  - destruct Hl as (b' & _ & _ & Hrun & _ & _ & Hrec & _); [vm_compute; reflexivity|].
    exists b'. rewrite !Hrec. split_and!; [exact Hrun|reflexivity|reflexivity|reflexivity].
  - destruct Hr as (b' & _ & _ & Hrun & _ & _ & Hrec & _); [vm_compute; reflexivity|].
    exists b'. rewrite !Hrec. split_and!; [exact Hrun|reflexivity|reflexivity|reflexivity].
Defined.

Lemma destroy_correct_witness :
  exists b', destroy ex_bimap = Some (tt, b') /\ records b' = ∅.
Proof.
  destruct (destroy_correct ex_bimap ex_ltree ex_rtree) as (b' & Hrun & Hrec & _);
    [apply bimap_inv_check_sound; vm_compute; reflexivity|].
  exists b'. split; [exact Hrun|exact Hrec].
Defined.

