(* ===== verification/BimapCopy.v ===== *)
(** * Copy, assignment, swap and comparison of [bimap]
    (src/bimap.h, lines 147-166 and 341-362)

    The content a client observes is [left_pairs]: the records in the
    order of the left tree.  The copy constructor rebuilds that sequence
    in a new container by inserting the records of its source in left
    order; each insertion is accepted because the source's keys are
    unique, and appends, because each left key is above every key copied
    so far.  [operator==] walks both containers in lock step and is
    proved to decide element-wise equivalence of the two sequences
    ([pairs_equiv]).  [swap] is taken as the exchange of the two left
    sets, the two right sets and the counters (see the root header for
    this abstraction of [intrusive_set::swap]); the assignment
    operator swaps a copy of its source in and destroys the temporary,
    which then holds the old contents. *)

From S2P Require Import Prelude Node Tree Repr IntrusiveSet SetInterface Bimap BimapErase.

Open Scope st_scope.

Section BimapCopy.
Context `{OS : OrderedSet}.
Context {Left Right : Type} `{CompareLeft : Compare Left} `{CompareRight : Compare Right}.
Implicit Types (b : bimap Left Right) (tl : tree Left) (tr : tree Right) (x : Left)
  (y : Right) (l : loc) (recs : gmap loc (Left * Right)) (E : list (loc * Left)).

(** The records at the locations of a sequence of left entries. *)
Definition pairs_of recs E : list (Left * Right) := omap (fun e => recs !! e.1) E.

(** The content of a container: its records in left order. *)
Definition left_pairs b tl : list (Left * Right) := pairs_of (records b) (elements tl).

(** Element-wise equivalence of two sequences of records. *)
Definition pairs_equiv (P Q : list (Left * Right)) : Prop :=
  Forall2 (fun p q => equals p.1 q.1 = true /\ equals p.2 q.2 = true) P Q.

Lemma pairs_of_app recs E1 E2 : pairs_of recs (E1 ++ E2) = pairs_of recs E1 ++ pairs_of recs E2.
Proof. apply omap_app. Qed.

Lemma pairs_of_cons recs l k E p :
  recs !! l = Some p -> pairs_of recs ((l, k) :: E) = p :: pairs_of recs E.
Proof. intros Hl. unfold pairs_of. simpl. by rewrite Hl. Qed.

Lemma pairs_of_insert recs l p E : l ∉ E.*1 -> pairs_of (<[l := p]> recs) E = pairs_of recs E.
Proof.
  induction E as [|[l' k] E IH]; intros Hl; [done|].
  apply not_elem_of_cons in Hl as [Hl Hl']. unfold pairs_of in *. simpl.
  rewrite lookup_insert_ne by done. destruct (recs !! l'); [f_equal|]; by apply IH.
Qed.

Lemma pairs_of_length recs E :
  (forall e, e ∈ E -> is_Some (recs !! e.1)) -> length (pairs_of recs E) = length E.
Proof.
  induction E as [|[l k] E IH]; intros HE; [done|].
  destruct (HE (l, k)) as [p Hp]; [by left|]. rewrite (pairs_of_cons _ _ _ _ _ Hp). simpl.
  rewrite IH; [done|]. intros e He. apply HE. by right.
Qed.

Lemma elem_of_pairs_of recs E p :
  p ∈ pairs_of recs E -> exists l k, (l, k) ∈ E /\ recs !! l = Some p.
Proof. intros ([l k] & He & Hp)%list_elem_of_omap. by exists l, k. Qed.

Lemma pairs_equiv_cons (x1 x2 : Left) (y1 y2 : Right) (P Q : list (Left * Right)) :
  pairs_equiv ((x1, y1) :: P) ((x2, y2) :: Q) <->
  (equals x1 x2 = true /\ equals y1 y2 = true) /\ pairs_equiv P Q.
Proof. unfold pairs_equiv. by rewrite Forall2_cons. Qed.

Lemma pairs_equiv_refl (P : list (Left * Right)) : pairs_equiv P P.
Proof. induction P; constructor; [split; apply equals_refl|done]. Qed.

Lemma inv_length b tl tr :
  bimap_inv b tl tr -> length (elements tl) = stdpp.base.size (records b).
Proof.
  intros (Hwl & _ & Hlocs & _). pose proof (set_wf_nodup _ _ _ _ Hwl) as Hnd.
  rewrite <-size_dom. assert (dom (records b) = list_to_set (C := gset loc) (locs tl)) as ->.
  { apply set_eq. intros z. by rewrite elem_of_dom, elem_of_list_to_set, Hlocs. }
  rewrite size_list_to_set by done. unfold locs. by rewrite length_fmap.
Qed.

Lemma left_pairs_length b tl tr :
  bimap_inv b tl tr -> length (left_pairs b tl) = length (elements tl).
Proof.
  intros Hinv. apply pairs_of_length. intros [z k] Hz. simpl.
  destruct (inv_left_elements _ _ _ _ _ Hinv Hz) as [y Hy]. by rewrite Hy.
Qed.

(** [size()] is the length of the content. *)
Lemma size_left_pairs b tl tr :
  bimap_inv b tl tr -> size b = Z.of_nat (length (left_pairs b tl)).
Proof.
  intros Hinv. rewrite (left_pairs_length _ _ _ Hinv), (inv_length _ _ _ Hinv).
  by destruct Hinv as (_ & _ & _ & _ & Hs & _).
Qed.

Lemma elem_of_left_pairs b tl tr l p :
  bimap_inv b tl tr -> records b !! l = Some p -> p ∈ left_pairs b tl.
Proof.
  intros Hinv Hl. destruct p as [x y]. apply list_elem_of_omap.
  exists (l, x). split; [by eapply inv_records_left|done].
Qed.


Lemma next_left_spec b tl tr A l x B :
  bimap_inv b tl tr -> elements tl = A ++ (l, x) :: B -> next_left b l = Some (it_of B).
Proof.
  intros (Hwl & _) Ht. unfold next_left.
  by rewrite (set_incr_spec _ _ _ _ _ _ _ _ Hwl Ht), end_left_sentinel.
Qed.

Lemma deref_left_record b l x y : records b !! l = Some (x, y) -> deref_left b l = Some x.
Proof. intros Hl. unfold deref_left, left_key. by rewrite Hl. Qed.

Lemma deref_right_record b l x y : records b !! l = Some (x, y) -> deref_right b l = Some y.
Proof. intros Hl. unfold deref_right, right_key. by rewrite Hl. Qed.


(** ** The copy constructor *)

(** While the loop copies [other] in left order, every record of the copy
    is a record of [other] at an already visited location, with a key
    below the key under the iterator. *)
Lemma copied_below other tlo tro c tlc trc P l x R l' p :
  bimap_inv other tlo tro -> elements tlo = P ++ (l, x) :: R ->
  bimap_inv c tlc trc -> left_pairs c tlc = pairs_of (records other) P ->
  records c !! l' = Some p ->
  less p.1 x = true /\ exists l0, l0 ∈ P.*1 /\ records other !! l0 = Some p.
Proof.
  intros Hio Ho Hic Hpairs Hl'.
  pose proof (elem_of_left_pairs _ _ _ _ _ Hic Hl') as Hp. rewrite Hpairs in Hp.
  destruct (elem_of_pairs_of _ _ _ Hp) as (l0 & k0 & Hl0 & Hrec0).
  destruct p as [x' y']. split; [|exists l0; split; [by apply (list_elem_of_fmap_2 fst _ (l0, k0))|done]].
  assert ((l0, k0) ∈ elements tlo) as Hin by (rewrite Ho; apply elem_of_app; by left).
  destruct (inv_left_elements _ _ _ _ _ Hio Hin) as [y0 Hy0].
  rewrite Hrec0 in Hy0. injection Hy0 as <- _.
  pose proof (set_wf_bst _ _ _ _ (proj1 Hio)) as Hbst. unfold bst in Hbst. rewrite Ho in Hbst.
  apply (proj1 (StronglySorted_middle _ _ _ _ Hbst) (l0, x') Hl0).
Qed.

(** The pair under the iterator clashes with no record copied so far. *)
Lemma copy_round_absent other tlo tro c tlc trc P l x R y :
  bimap_inv other tlo tro -> elements tlo = P ++ (l, x) :: R ->
  bimap_inv c tlc trc -> left_pairs c tlc = pairs_of (records other) P ->
  records other !! l = Some (x, y) ->
  forall l' x' y', records c !! l' = Some (x', y') -> equals x x' = false /\ equals y y' = false.
Proof.
  intros Hio Ho Hic Hpairs Hly.
  pose proof (set_wf_nodup _ _ _ _ (proj1 Hio)) as Hnd.
  unfold locs in Hnd. rewrite Ho, fmap_app in Hnd. simpl in Hnd.
  apply NoDup_app in Hnd as (_ & HlP & _).
  intros l' x' y' Hl'. destruct (copied_below _ _ _ _ _ _ _ _ _ _ _ _ Hio Ho Hic Hpairs Hl')
    as [Hlt (l0 & Hl0 & Hrec0)]. simpl in Hlt. split.
  - destruct (equals x x') eqn:E; [|done]. apply equals_spec in E as [_ E]. congruence.
  - destruct (equals y y') eqn:E; [|done].
    rewrite (right_key_unique _ _ _ _ _ _ _ _ _ Hio Hly Hrec0 E) in HlP.
    exfalso. apply (HlP l0); [done|by left].
Qed.

(** One round of the copy loop: the record under the iterator is
    inserted, accepted, and appended to the left order of the copy. *)
Lemma copy_round other tlo tro c tlc trc P l x R :
  bimap_inv other tlo tro -> elements tlo = P ++ (l, x) :: R ->
  bimap_inv c tlc trc -> left_pairs c tlc = pairs_of (records other) P ->
  exists y c1 tlc1 trc1 lf, records other !! l = Some (x, y) /\
    insert x y c = Some (lf, c1) /\ bimap_inv c1 tlc1 trc1 /\
    left_pairs c1 tlc1 = pairs_of (records other) (P ++ [(l, x)]).
Proof.
  intros Hio Ho Hic Hpairs.
  assert ((l, x) ∈ elements tlo) as Hin by (rewrite Ho; apply elem_of_app; right; by left).
  destruct (inv_left_elements _ _ _ _ _ Hio Hin) as [y Hly].
  pose proof Hio as (_ & _ & _ & _ & _ & Hsmall).
  pose proof (copy_round_absent _ _ _ _ _ _ _ _ _ _ _ Hio Ho Hic Hpairs Hly) as Hne.
  assert (length (elements tlc) = length P) as Hlen.
  { rewrite <-(left_pairs_length _ _ _ Hic), Hpairs. apply pairs_of_length.
    intros [z k] Hz. simpl. destruct (inv_left_elements other tlo tro z k Hio) as [? ->]; [|done].
    rewrite Ho. apply elem_of_app. by left. }
  assert (Z.of_nat (stdpp.base.size (records c)) + 1 < size_t_modulus)%Z as Hbound.
  { rewrite <-(inv_length _ _ _ Hic), Hlen, <-(inv_length _ _ _ Hio), Ho, length_app in *.
    simpl in Hsmall. lia. }
  destruct (insert_new_spec c tlc trc x y Hic Hne Hbound)
    as (c1 & Hins & Hic1 & Hrec1 & Hfresh & Hel1 & _ & _).
  set (lf := fresh (in_use c)) in *.
  (* it goes to the end of the left order *)
  assert (elements (ins lf x tlc) = elements tlc ++ [(lf, x)]) as Hend.
  { rewrite Hel1. apply insert_before_end. intros [z k] Hz. simpl.
    destruct (inv_left_elements _ _ _ _ _ Hic Hz) as [y' Hz'].
    destruct (copied_below _ _ _ _ _ _ _ _ _ _ _ _ Hio Ho Hic Hpairs Hz') as [Hlt _].
    by apply less_asym. }
  assert (left_pairs c1 (ins lf x tlc) = pairs_of (records other) (P ++ [(l, x)])) as Hpairs1.
  { unfold left_pairs in Hpairs |- *. rewrite Hend, Hrec1, !pairs_of_app, pairs_of_insert, Hpairs.
    - rewrite (pairs_of_cons _ _ _ _ _ (lookup_insert_eq _ _ _)), (pairs_of_cons _ _ _ _ _ Hly).
      done.
    - intros Hz. pose proof Hic as (_ & _ & Hlocs & _). apply Hlocs in Hz.
      rewrite Hfresh in Hz. by destruct Hz. }
  by exists y, c1, (ins lf x tlc), (ins lf y trc), lf.
Qed.

(** Each round inserts the record under the iterator, which [insert]
    accepts and appends to the left order. *)
Lemma copy_loop_spec fuel other tlo tro c tlc trc P R :
  bimap_inv other tlo tro -> elements tlo = P ++ R ->
  bimap_inv c tlc trc -> left_pairs c tlc = pairs_of (records other) P ->
  length R < fuel ->
  exists c' tlc' trc', copy_loop fuel other (it_of R) c = Some (tt, c') /\
    bimap_inv c' tlc' trc' /\ left_pairs c' tlc' = left_pairs other tlo.
Proof.
  revert fuel P c tlc trc.
  induction R as [|[l x] R IH]; intros [|fuel] P c tlc trc Hio Ho Hic Hpairs Hfuel;
    simpl in Hfuel; try lia.
  { exists c, tlc, trc. unfold left_pairs at 2. rewrite Ho, app_nil_r. split_and!; [|done|done].
    simpl. by rewrite it_neq_refl. }
  destruct (copy_round other tlo tro c tlc trc P l x R Hio Ho Hic Hpairs)
    as (y & c1 & tlc1 & trc1 & lf & Hly & Hins & Hic1 & Hpairs1).
  destruct (IH fuel (P ++ [(l, x)]) c1 tlc1 trc1 Hio ltac:(by rewrite <-app_assoc) Hic1 Hpairs1
              ltac:(lia)) as (c' & tlc' & trc' & Hrun & Hic' & Hpairs').
  exists c', tlc', trc'. split_and!; [|done|done].
  simpl. rewrite (record_it_neq _ _ _ _ _ Hio Hly).
  st_seq (st_lift_Some (fun _ => deref_left other l) c x (deref_left_record _ _ _ _ Hly)).
  st_seq (st_lift_Some (fun _ => deref_right other (flip l)) c y (deref_right_record _ _ _ _ Hly)).
  st_seq Hins.
  st_seq (st_lift_Some (fun _ => next_left other l) c1 _ (next_left_spec _ _ _ _ _ _ _ Hio Ho)).
  exact Hrun.
Qed.

(** The copy constructor on a source satisfying the invariant. *)
Lemma copy_construct_spec other tl tr :
  bimap_inv other tl tr ->
  exists c tl' tr', copy_construct other = Some c /\ bimap_inv c tl' tr' /\
    left_pairs c tl' = left_pairs other tl.
Proof.
  intros Hinv. unfold copy_construct. rewrite (begin_left_spec _ _ _ Hinv). cbn [mbind option_bind].
  destruct (copy_loop_spec (S (stdpp.base.size (records other))) other tl tr empty Leaf Leaf
              [] (elements tl) Hinv eq_refl empty_bimap_inv eq_refl)
    as (c & tl' & tr' & Hrun & Hinv' & Hpairs).
  { rewrite (inv_length _ _ _ Hinv). lia. }
  rewrite Hrun. by exists c, tl', tr'.
Qed.

(** ** [operator==] *)

(** The lock-step walk from the iterators of two suffixes of equal length
    decides the equivalence of their records. *)
Lemma eq_loop_spec fuel a b tla tra tlb trb A1 R1 A2 R2 :
  bimap_inv a tla tra -> bimap_inv b tlb trb ->
  elements tla = A1 ++ R1 -> elements tlb = A2 ++ R2 ->
  length R1 = length R2 -> length R2 < fuel ->
  exists r, eq_loop fuel a b (it_of R1) (it_of R2) = Some r /\
    (r = true <-> pairs_equiv (pairs_of (records a) R1) (pairs_of (records b) R2)).
Proof.
  revert fuel A1 R1 A2.
  induction R2 as [|[l2 x2] R2 IH]; intros [|fuel] A1 [|[l1 x1] R1] A2 Ha Hb Ho1 Ho2 Hlen Hfuel;
    simpl in Hlen, Hfuel; try lia.
  { exists true. split; [simpl; by rewrite it_neq_refl|]. split; [intros _; constructor|done]. }
  assert ((l1, x1) ∈ elements tla) as Hin1 by (rewrite Ho1; apply elem_of_app; right; by left).
  assert ((l2, x2) ∈ elements tlb) as Hin2 by (rewrite Ho2; apply elem_of_app; right; by left).
  destruct (inv_left_elements _ _ _ _ _ Ha Hin1) as [y1 Hl1].
  destruct (inv_left_elements _ _ _ _ _ Hb Hin2) as [y2 Hl2].
  rewrite (pairs_of_cons _ _ _ _ _ Hl1), (pairs_of_cons _ _ _ _ _ Hl2).
  simpl. rewrite (record_it_neq _ _ _ _ _ Hb Hl2).
  rewrite (deref_left_record _ _ _ _ Hl1), (deref_left_record _ _ _ _ Hl2).
  cbn [mbind option_bind]. rewrite less_or_less.
  destruct (equals x1 x2) eqn:Ex; simpl; [|exists false; rewrite pairs_equiv_cons; split; [done|]; split; [done|]; intros [[? _] _]; congruence].
  unfold flip. rewrite (deref_right_record _ _ _ _ Hl1), (deref_right_record _ _ _ _ Hl2).
  cbn [mbind option_bind]. rewrite less_or_less.
  destruct (equals y1 y2) eqn:Ey; simpl; [|exists false; rewrite pairs_equiv_cons; split; [done|]; split; [done|]; intros [[_ ?] _]; congruence].
  rewrite (next_left_spec _ _ _ _ _ _ _ Ha Ho1), (next_left_spec _ _ _ _ _ _ _ Hb Ho2).
  cbn [mbind option_bind].
  destruct (IH fuel (A1 ++ [(l1, x1)]) R1 (A2 ++ [(l2, x2)]) Ha Hb)
    as (r & Hr & Hiff); [by rewrite <-app_assoc|by rewrite <-app_assoc|lia|lia|].
  exists r. rewrite pairs_equiv_cons, Hiff. tauto.
Qed.

(** [operator==] on two containers satisfying the invariant. *)
Lemma bimap_eq_spec a b tla tra tlb trb :
  bimap_inv a tla tra -> bimap_inv b tlb trb ->
  exists r, bimap_eq a b = Some r /\ (r = true <-> pairs_equiv (left_pairs a tla) (left_pairs b tlb)).
Proof.
  intros Ha Hb. unfold bimap_eq. rewrite (size_left_pairs _ _ _ Ha), (size_left_pairs _ _ _ Hb).
  case_bool_decide as Hsz.
  { exists false. split; [done|]. split; [done|]. intros Hf. exfalso. apply Hsz. f_equal.
    by apply Forall2_length in Hf. }
  rewrite (begin_left_spec _ _ _ Ha), (begin_left_spec _ _ _ Hb). cbn [mbind option_bind].
  apply (eq_loop_spec _ a b tla tra tlb trb [] _ [] _ Ha Hb eq_refl eq_refl).
  - rewrite <-(left_pairs_length _ _ _ Ha), <-(left_pairs_length _ _ _ Hb). lia.
  - rewrite (inv_length _ _ _ Hb). lia.
Qed.

(** ** Assignment *)

(** [operator=] on two containers satisfying the invariant. *)
(** [swap] after its three steps. *)
Lemma bimap_swap_spec (a b : bimap Left Right) : bimap_swap a b = (b, a).
Proof. by destruct a, b. Qed.

Lemma assign_spec self ts trs other tl tr :
  bimap_inv self ts trs -> bimap_inv other tl tr ->
  assign true other self = Some (tt, self) /\
  exists c tl' tr', assign false other self = Some (tt, c) /\ bimap_inv c tl' tr' /\
    left_pairs c tl' = left_pairs other tl.
Proof.
  intros Hself Hother. split; [done|].
  destruct (copy_construct_spec _ _ _ Hother) as (c & tl' & tr' & Hc & Hinv & Hpairs).
  destruct (destroy_spec _ _ _ Hself) as (b' & Hd & _).
  exists c, tl', tr'. unfold assign. rewrite Hc. cbn [mbind option_bind]. by rewrite bimap_swap_spec, Hd.
Qed.

(** ** The properties *)


(** C8: the copy constructor [bimap(const bimap&)] of a container that
    satisfies the invariant returns a container that satisfies it, holds
    the same records in the same left order, and has the same [size()]. *)
Theorem copy_construct_correct other tl tr :
  bimap_inv other tl tr ->
  exists c tl' tr', copy_construct other = Some c /\ bimap_inv c tl' tr' /\
    left_pairs c tl' = left_pairs other tl /\ size c = size other.
Proof.
  intros Hinv. destruct (copy_construct_spec _ _ _ Hinv) as (c & tl' & tr' & Hc & Hinv' & Hpairs).
  exists c, tl', tr'. split_and!; [done|done|done|].
  by rewrite (size_left_pairs _ _ _ Hinv), (size_left_pairs _ _ _ Hinv'), Hpairs.
Qed.

(** C9: [operator==] of two containers satisfying the invariant returns
    [true] exactly when their records, taken in left order, are
    equivalent one by one on both keys (containers of different sizes are
    unequal); [operator!=] returns the negation. *)
Theorem bimap_eq_correct a b tla tra tlb trb :
  bimap_inv a tla tra -> bimap_inv b tlb trb ->
  exists r, bimap_eq a b = Some r /\ bimap_neq a b = Some (negb r) /\
    (r = true <-> pairs_equiv (left_pairs a tla) (left_pairs b tlb)).
Proof.
  intros Ha Hb. destruct (bimap_eq_spec _ _ _ _ _ _ Ha Hb) as (r & Hr & Hiff).
  exists r. unfold bimap_neq. by rewrite Hr.
Qed.

(** A copy compares equal to its source, both ways. *)
Theorem copy_compares_equal other tl tr :
  bimap_inv other tl tr ->
  exists c, copy_construct other = Some c /\ bimap_eq c other = Some true /\
    bimap_eq other c = Some true.
Proof.
  intros Hinv. destruct (copy_construct_spec _ _ _ Hinv) as (c & tl' & tr' & Hc & Hinv' & Hpairs).
  exists c. split; [done|].
  destruct (bimap_eq_spec _ _ _ _ _ _ Hinv' Hinv) as (r1 & Hr1 & Hiff1).
  destruct (bimap_eq_spec _ _ _ _ _ _ Hinv Hinv') as (r2 & Hr2 & Hiff2).
  rewrite Hpairs in Hiff1, Hiff2. rewrite Hr1, Hr2.
  rewrite (proj2 Hiff1 (pairs_equiv_refl _)), (proj2 Hiff2 (pairs_equiv_refl _)). done.
Qed.

(** C32: [operator=] leaves a self-assignment unchanged; otherwise the
    copy of the source is swapped in and the temporary, holding the old
    contents, is destroyed: the container ends up satisfying the
    invariant and holding the records of the source in its left order. *)
Theorem assign_correct self ts trs other tl tr :
  bimap_inv self ts trs -> bimap_inv other tl tr ->
  assign true other self = Some (tt, self) /\
  exists c tl' tr', assign false other self = Some (tt, c) /\ bimap_inv c tl' tr' /\
    left_pairs c tl' = left_pairs other tl.
Proof. apply assign_spec. Qed.

End BimapCopy.

(** ** Concrete runs

    [ex_bimap] holds (1,"a"), (2,"b"), (5,"e"), (8,"h"), inserted as 5, 2,
    8, 1; [ex_bimap3] holds the same pairs inserted in increasing order,
    so its trees have another shape and its records other locations;
    [ex_bimap2] differs from it in the right key paired with 8. *)
Definition ex_bimap3 : bimap Z string := Eval vm_compute in
  default empty (snd <$> (insert 1%Z "a" ;;; insert 2%Z "b" ;;; insert 5%Z "e" ;;;
                          insert 8%Z "h") empty).
Definition ex_bimap2 : bimap Z string := Eval vm_compute in
  default empty (snd <$> (insert 1%Z "a" ;;; insert 2%Z "b" ;;; insert 5%Z "e" ;;;
                          insert 8%Z "z") empty).

Lemma copy_construct_correct_witness :
  exists c tl' tr', copy_construct ex_bimap = Some c /\ bimap_inv c tl' tr' /\
    left_pairs c tl' = [(1%Z, "a"%string); (2%Z, "b"%string); (5%Z, "e"%string); (8%Z, "h"%string)].
Proof.
  destruct (copy_construct_correct ex_bimap ex_ltree ex_rtree ex_bimap_inv)
    as (c & tl' & tr' & Hc & Hinv & Hpairs & _).
  exists c, tl', tr'. rewrite Hpairs. split_and!; [exact Hc|exact Hinv|vm_compute; reflexivity].
Defined.

Lemma bimap_eq_correct_witness :
  bimap_eq ex_bimap ex_bimap3 = Some true /\ bimap_neq ex_bimap ex_bimap2 = Some true.
Proof.
  destruct (bimap_eq_correct ex_bimap ex_bimap3 ex_ltree ex_rtree (left_tree ex_bimap3)
              (right_tree ex_bimap3) ex_bimap_inv) as (r & Hr & _ & Hiff);
    [apply bimap_inv_check_sound; vm_compute; reflexivity|].
  destruct (bimap_eq_correct ex_bimap ex_bimap2 ex_ltree ex_rtree (left_tree ex_bimap2)
              (right_tree ex_bimap2) ex_bimap_inv) as (r2 & _ & Hr2 & Hiff2);
    [apply bimap_inv_check_sound; vm_compute; reflexivity|].
  assert (r = true) as -> by (apply Hiff; vm_compute; repeat constructor).
  destruct r2; [|exact (conj Hr Hr2)].
  exfalso. pose proof (proj1 Hiff2 eq_refl) as Hf. vm_compute in Hf.
  repeat (apply Forall2_cons in Hf as [[? ?] Hf]). discriminate.
Defined.

Lemma copy_compares_equal_witness :
  exists c, copy_construct ex_bimap = Some c /\ bimap_eq c ex_bimap = Some true.
Proof.
  destruct (copy_compares_equal ex_bimap ex_ltree ex_rtree ex_bimap_inv) as (c & Hc & Heq & _).
  exists c. split; [exact Hc|exact Heq].
Defined.

Lemma assign_correct_witness :
  exists c tl' tr', assign false ex_bimap2 ex_bimap = Some (tt, c) /\ bimap_inv c tl' tr' /\
    left_pairs c tl' = [(1%Z, "a"%string); (2%Z, "b"%string); (5%Z, "e"%string); (8%Z, "z"%string)].
Proof.
  destruct (assign_correct ex_bimap ex_ltree ex_rtree ex_bimap2 (left_tree ex_bimap2)
              (right_tree ex_bimap2) ex_bimap_inv) as [_ (c & tl' & tr' & Hc & Hinv & Hpairs)];
    [apply bimap_inv_check_sound; vm_compute; reflexivity|].
  exists c, tl', tr'. rewrite Hpairs. split_and!; [exact Hc|exact Hinv|vm_compute; reflexivity].
Defined.
