(* ===== verification/BimapAlloc.v ===== *)
(** * Allocation failure: [new storage_node] throws [std::bad_alloc]

    The other files take every allocation to succeed.  Here the allocator
    may fail: [new storage_node(left, right)] in [perfect_forwarding_insert]
    (src/bimap.h, line 177) throws [std::bad_alloc], and so may the copies
    of the keys it makes.  A run carries, beside the container, the
    outcomes of the next allocations ([false] for one that throws; past
    the list every allocation succeeds), and an operation that lets the
    exception through returns [inl bad_alloc] in the small exception-state
    monad [xst]: the effects made before the throw are kept, the rest of
    the operation is skipped, as C++ unwinding does.

    The operations that allocate are modelled with it: [xinsert] (the same
    steps as [Bimap.insert], with [xnew_storage] for the allocation), the
    copy constructor's loop [xcopy_loop], [operator=] ([xassign]) and
    [at_left_or_default] ([xat_left_or_default]).  The theorems show the
    strong guarantee of [insert] (a throwing insert leaves the container
    as it was, the record in neither tree), that the copy constructor
    leaks the records it copied before an allocation throws (the object
    under construction is dropped without [~bimap], and its
    [intrusive_set] members free nothing) while [operator=] leaves this
    container as it was, and that [at_left_or_default] only keeps the
    invariant when its insert throws: the pair that held the default
    value is gone. *)

From S2P Require Import Prelude Node Tree Repr IntrusiveSet SetInterface Bimap BimapErase BimapCopy.

Open Scope st_scope.

(** ** The exception-state monad *)

Definition xst (S A : Type) : Type := S -> option ((exn + A) * S).

Definition xret {S A} (a : A) : xst S A := fun s => Some (inr a, s).
Definition xbind {S A B} (m : xst S A) (k : A -> xst S B) : xst S B :=
  fun s => match m s with
           | Some (inr a, s') => k a s'
           | Some (inl e, s') => Some (inl e, s')
           | None => None
           end.

Declare Scope xst_scope.
Delimit Scope xst_scope with xst.
Notation "x <-? m ;; k" := (xbind m (fun x => k))
  (at level 100, m at next level, right associativity) : xst_scope.
Notation "m ;;? k" := (xbind m (fun _ => k))
  (at level 100, right associativity) : xst_scope.

Lemma xbind_ok {S A B} (m : xst S A) (k : A -> xst S B) s a s' :
  m s = Some (inr a, s') -> xbind m k s = k a s'.
Proof. unfold xbind. by intros ->. Qed.

Lemma xbind_throw {S A B} (m : xst S A) (k : A -> xst S B) s e s' :
  m s = Some (inl e, s') -> xbind m k s = Some (inl e, s').
Proof. unfold xbind. by intros ->. Qed.

Section BimapAlloc.
Context `{OS : OrderedSet}.
Context {Left Right : Type} `{CompareLeft : Compare Left} `{CompareRight : Compare Right}.
Implicit Types (b c : bimap Left Right) (tl : tree Left) (tr : tree Right) (x : Left)
  (y : Right) (l : loc) (os : list bool).

Local Open Scope xst_scope.

(** The state of a run: the container and the outcomes of the next
    allocations. *)
Notation astate := (bimap Left Right * list bool)%type.

(** A step that cannot throw. *)
Definition xlift {A} (m : st (bimap Left Right) A) : xst astate A :=
  fun s => match m s.1 with
           | Some (a, b') => Some (inr a, (b', s.2))
           | None => None
           end.

(** [new storage_node(left, right)]: throws [std::bad_alloc] when the
    allocator fails, before anything is changed. *)
Definition xnew_storage x y : xst astate loc :=
  fun s => match s.2 with
           | false :: os => Some (inl bad_alloc, (s.1, os))
           | os => match new_storage x y s.1 with
                   | Some (l, b') => Some (inr l, (b', tail os))
                   | None => None
                   end
           end.

(** [perfect_forwarding_insert(left, right)] with an allocator that may
    fail. *)
Definition xinsert x y : xst astate loc :=
  absent <-? xlift (insert_absent x y) ;;
  if negb absent then xret end_left
  else
    storage <-? xnew_storage x y ;;
    xlift (link_storage storage).

(** The loop of [bimap(const bimap& other)] with that [insert]. *)
Fixpoint xcopy_loop (fuel : nat) (other : bimap Left Right) (it : loc) : xst astate unit :=
  match fuel with
  | O => fun _ => None
  | S fuel =>
      if it_neq it end_left then
        x <-? xlift (st_lift (fun _ => deref_left other it)) ;;
        y <-? xlift (st_lift (fun _ => deref_right other (flip it))) ;;
        xinsert x y ;;?
        nxt <-? xlift (st_lift (fun _ => next_left other it)) ;;
        xcopy_loop fuel other nxt
      else xret tt
  end.

(** [bimap(const bimap& other)]: the object under construction starts
    empty; the result is the exception or completion of the loop together
    with that object. *)
Definition xcopy_construct (other : bimap Left Right) (os : list bool)
    : option ((exn + unit) * astate) :=
  first ← begin_left other;
  xcopy_loop (S (stdpp.base.size (records other))) other first (empty, os).

(** [at_left_or_default(key)] with an allocator that may fail. *)
Definition xat_left_or_default `{Default Right} x : xst astate Right :=
  it <-? xlift (st_lift (fun b => find_left b x)) ;;
  if it_neq it end_left then xlift (st_lift (fun b => deref_right b (flip it)))
  else
    let tmp := default_value in
    it2 <-? xlift (st_lift (fun b => find_right b tmp)) ;;
    (if it_neq it2 end_right then xlift (erase_right_it it2 ;;; st_ret tt)
     else xret tt) ;;?
    it3 <-? xinsert x tmp ;;
    xlift (st_lift (fun b => deref_right b (flip it3))).

(** [operator=(const bimap& other)] with an allocator that may fail:
    [bimap(other)] is built first, so an exception from its construction
    leaves [operator=] with this container as it was (the temporary and
    the records it holds are dropped); otherwise the temporary is swapped
    with this container and destroyed, as in [assign]. *)
Definition xassign (self_assign : bool) (other : bimap Left Right) : xst astate unit :=
  fun s =>
    if self_assign then Some (inr tt, s)
    else match xcopy_construct other s.2 with
         | Some (inl e, (_, os)) => Some (inl e, (s.1, os))
         | Some (inr _, (tmp, os)) =>
             let '(tmp', self') := bimap_swap tmp s.1 in
             match destroy tmp' with
             | Some _ => Some (inr tt, (self', os))
             | None => None
             end
         | None => None
         end.

(** ** Lemmas *)

Lemma xlift_ok {A} (m : st (bimap Left Right) A) b os a b' :
  m b = Some (a, b') -> xlift m (b, os) = Some (inr a, (b', os)).
Proof. unfold xlift. simpl. by intros ->. Qed.

(** No record clashes with [(x, y)]. *)
Definition absent_keys b x y : Prop :=
  forall l x' y', records b !! l = Some (x', y') -> equals x x' = false /\ equals y y' = false.

Lemma insert_absent_true b tl tr x y :
  bimap_inv b tl tr -> absent_keys b x y -> insert_absent x y b = Some (true, b).
Proof.
  intros Hinv Hne. unfold insert_absent.
  st_seq (st_lift_Some (fun b0 => find_left b0 x) b _
            (find_left_miss b tl tr x Hinv (fun l x' y' H => proj1 (Hne _ _ _ H)))).
  rewrite it_eq_spec, bool_decide_true by done.
  st_seq (st_lift_Some (fun b0 => find_right b0 y) b _
            (find_right_miss b tl tr y Hinv (fun l x' y' H => proj2 (Hne _ _ _ H)))).
  by rewrite it_eq_spec, bool_decide_true.
Qed.

Lemma insert_absent_false b tl tr x y l x' y' :
  bimap_inv b tl tr -> records b !! l = Some (x', y') ->
  equals x x' = true \/ equals y y' = true -> insert_absent x y b = Some (false, b).
Proof.
  intros Hinv Hl Heq. unfold insert_absent.
  destruct (find_left_cases b tl tr x Hinv) as [[Hf _]|(l2 & x2 & y2 & Hf & Hl2 & _)].
  - st_seq (st_lift_Some (fun b0 => find_left b0 x) b _ Hf). rewrite it_eq_spec, bool_decide_true by done.
    destruct Heq as [Heq|Heq].
    + rewrite (find_left_hit _ _ _ _ _ _ _ Hinv Hl Heq) in Hf. injection Hf as ->.
      exfalso. rewrite end_left_sentinel in Hl. by rewrite (sentinel_not_record _ _ _ Hinv) in Hl.
    + st_seq (st_lift_Some (fun b0 => find_right b0 y) b _ (find_right_hit _ _ _ _ _ _ _ Hinv Hl Heq)).
      change end_right with end_left. by rewrite (not_end_left _ _ _ _ _ Hinv Hl).
  - st_seq (st_lift_Some (fun b0 => find_left b0 x) b _ Hf).
    by rewrite (not_end_left _ _ _ _ _ Hinv Hl2).
Qed.

Lemma xinsert_rejected b tl tr x y l x' y' os :
  bimap_inv b tl tr -> records b !! l = Some (x', y') ->
  equals x x' = true \/ equals y y' = true ->
  xinsert x y (b, os) = Some (inr end_left, (b, os)).
Proof.
  intros Hinv Hl Heq. unfold xinsert.
  by rewrite (xbind_ok _ _ _ false (b, os) (xlift_ok _ _ _ _ _ (insert_absent_false _ _ _ _ _ _ _ _ Hinv Hl Heq))).
Qed.

Lemma xinsert_throws b tl tr x y os :
  bimap_inv b tl tr -> absent_keys b x y ->
  xinsert x y (b, false :: os) = Some (inl bad_alloc, (b, os)).
Proof.
  intros Hinv Hne. unfold xinsert.
  rewrite (xbind_ok _ _ _ true (b, false :: os) (xlift_ok _ _ _ _ _ (insert_absent_true _ _ _ _ _ Hinv Hne))).
  simpl. by apply xbind_throw.
Qed.

Lemma xinsert_ok b tl tr x y os :
  bimap_inv b tl tr -> absent_keys b x y ->
  xinsert x y (b, true :: os) =
  match insert x y b with Some (l, b') => Some (inr l, (b', os)) | None => None end.
Proof.
  intros Hinv Hne. pose proof (insert_absent_true _ _ _ _ _ Hinv Hne) as Habs.
  unfold xinsert, insert.
  rewrite (xbind_ok _ _ _ true (b, true :: os) (xlift_ok _ _ _ _ _ Habs)), (st_bind_Some _ _ _ _ _ Habs).
  simpl. unfold xbind, xnew_storage, xlift, st_bind. simpl.
  destruct (new_storage x y b) as [[l b1]|]; [|done]. simpl.
  by destruct (link_storage l b1) as [[l' b']|].
Qed.

(** The content copied from the first [k] entries of a sequence whose
    entries are all records. *)
Lemma pairs_of_take (recs : gmap loc (Left * Right)) (E : list (loc * Left)) k :
  (forall e, e ∈ E -> is_Some (recs !! e.1)) -> pairs_of recs (take k E) = take k (pairs_of recs E).
Proof.
  revert k. induction E as [|[z kz] E IH]; intros [|k] HE; [done|done|done|].
  destruct (HE (z, kz)) as [p Hp]; [by left|]. simpl in Hp.
  rewrite firstn_cons, !(pairs_of_cons _ _ _ _ _ Hp), firstn_cons. f_equal.
  apply IH. intros e He. apply HE. by right.
Qed.

(** The copy loop when the allocation of round [k + 1] throws: the
    first [k] rounds insert their pairs, the last one throws before
    changing anything. *)
Lemma xcopy_loop_throws fuel other tlo tro c tlc trc P R k os :
  bimap_inv other tlo tro -> elements tlo = P ++ R ->
  bimap_inv c tlc trc -> left_pairs c tlc = pairs_of (records other) P ->
  length R < fuel -> k < length R ->
  exists c' tlc' trc',
    xcopy_loop fuel other (it_of R) (c, replicate k true ++ false :: os) = Some (inl bad_alloc, (c', os)) /\
    bimap_inv c' tlc' trc' /\ left_pairs c' tlc' = pairs_of (records other) (P ++ take k R).
Proof.
  revert fuel k P c tlc trc.
  induction R as [|[l x] R IH]; intros [|fuel] k P c tlc trc Hio Ho Hic Hpairs Hfuel Hk;
    simpl in Hfuel, Hk; try lia.
  destruct (copy_round other tlo tro c tlc trc P l x R Hio Ho Hic Hpairs)
    as (y & c1 & tlc1 & trc1 & lf & Hly & Hins & Hic1 & Hpairs1).
  pose proof (copy_round_absent _ _ _ _ _ _ _ _ _ _ _ Hio Ho Hic Hpairs Hly) as Hne.
  simpl. rewrite (record_it_neq _ _ _ _ _ Hio Hly).
  rewrite (xbind_ok _ _ _ x _ (xlift_ok _ _ _ _ _ (st_lift_Some _ c _ (deref_left_record _ _ _ _ Hly)))).
  rewrite (xbind_ok _ _ _ y _ (xlift_ok _ _ _ _ _ (st_lift_Some _ c _ (deref_right_record _ _ _ _ Hly)))).
  destruct k as [|k].
  - exists c, tlc, trc. rewrite app_nil_r. split_and!; [|done|done].
    exact (xbind_throw _ _ _ _ _ (xinsert_throws _ _ _ _ _ _ Hic Hne)).
  - destruct (IH fuel k (P ++ [(l, x)]) c1 tlc1 trc1 Hio ltac:(by rewrite <-app_assoc) Hic1 Hpairs1
                ltac:(lia) ltac:(lia)) as (c' & tlc' & trc' & Hrun & Hic' & Hpairs').
    exists c', tlc', trc'. split_and!; [|done|by rewrite Hpairs', <-app_assoc].
    simpl. rewrite (xbind_ok _ _ _ lf _ (eq_trans (xinsert_ok _ _ _ _ _ _ Hic Hne) ltac:(by rewrite Hins))).
    rewrite (xbind_ok _ _ _ _ _ (xlift_ok _ _ _ _ _
               (st_lift_Some _ c1 _ (next_left_spec _ _ _ _ _ _ _ Hio Ho)))).
    exact Hrun.
Qed.

(** [at_left_or_default(key)] when the pair holding the default value is
    erased and the allocation of the insert then throws. *)
Lemma xat_left_or_default_throws `{Default Right} b tl tr x l2 x2 os :
  bimap_inv b tl tr -> (forall l x' y', records b !! l = Some (x', y') -> equals x x' = false) ->
  records b !! l2 = Some (x2, default_value) ->
  exists b' tl' tr', xat_left_or_default x (b, false :: os) = Some (inl bad_alloc, (b', os)) /\
    bimap_inv b' tl' tr' /\ records b' = delete l2 (records b).
Proof.
  intros Hinv Hnl Hl2. unfold xat_left_or_default.
  rewrite (xbind_ok _ _ _ end_left _ (xlift_ok _ _ _ _ _ (st_lift_Some _ b _ (find_left_miss _ _ _ _ Hinv Hnl)))).
  rewrite it_neq_refl. cbv zeta.
  rewrite (xbind_ok _ _ _ l2 _ (xlift_ok _ _ _ _ _
             (st_lift_Some _ b _ (find_right_hit _ _ _ _ _ _ _ Hinv Hl2 (equals_refl _))))).
  change end_right with end_left.
  rewrite (record_it_neq _ _ _ _ _ Hinv Hl2).
  destruct (list_elem_of_split _ _ (inv_records_right _ _ _ _ _ _ Hinv Hl2)) as (AR & BR & HtrA).
  destruct (erase_right_it_spec b tl tr l2 x2 default_value AR BR Hinv Hl2 HtrA)
    as (b1 & tl1 & tr1 & _ & _ & Hrun1 & Hinv1 & Hrec1 & _).
  exists b1, tl1, tr1. split_and!; [|done|done].
  rewrite (xbind_ok _ _ _ tt _ (xlift_ok _ _ _ _ _ (st_then_tt _ _ _ _ Hrun1))).
  apply xbind_throw. apply (xinsert_throws _ tl1 tr1 _ _ _ Hinv1).
  intros l x' y' Hl. rewrite Hrec1 in Hl. apply lookup_delete_Some in Hl as [Hne Hl].
  split; [by eapply Hnl|]. destruct (equals default_value y') eqn:E; [|done].
  exfalso. apply Hne. exact (right_key_unique _ _ _ _ _ _ _ _ _ Hinv Hl2 Hl E).
Qed.

(** [at_left_or_default(key)] when no pair holds the default value and
    the allocation of the insert throws. *)
Lemma xat_left_or_default_throws_unchanged `{Default Right} b tl tr x os :
  bimap_inv b tl tr -> (forall l x' y', records b !! l = Some (x', y') -> equals x x' = false) ->
  (forall l x' y', records b !! l = Some (x', y') -> equals default_value y' = false) ->
  xat_left_or_default x (b, false :: os) = Some (inl bad_alloc, (b, os)).
Proof.
  intros Hinv Hnl Hnr. unfold xat_left_or_default.
  rewrite (xbind_ok _ _ _ end_left _ (xlift_ok _ _ _ _ _ (st_lift_Some _ b _ (find_left_miss _ _ _ _ Hinv Hnl)))).
  rewrite it_neq_refl. cbv zeta.
  rewrite (xbind_ok _ _ _ end_right _ (xlift_ok _ _ _ _ _ (st_lift_Some _ b _ (find_right_miss _ _ _ _ Hinv Hnr)))).
  rewrite it_neq_refl.
  rewrite (xbind_ok _ _ _ tt (b, false :: os) eq_refl).
  apply xbind_throw. apply (xinsert_throws _ tl tr _ _ _ Hinv).
  intros l x' y' Hl. split; [by eapply Hnl|by eapply Hnr].
Qed.

(** The copy constructor when allocation [k + 1] throws. *)
Lemma xcopy_construct_throws other tl tr k os :
  bimap_inv other tl tr -> k < length (elements tl) ->
  exists c tl' tr', xcopy_construct other (replicate k true ++ false :: os) = Some (inl bad_alloc, (c, os)) /\
    bimap_inv c tl' tr' /\ left_pairs c tl' = take k (left_pairs other tl) /\
    stdpp.base.size (records c) = k.
Proof.
  intros Hinv Hk. unfold xcopy_construct. rewrite (begin_left_spec _ _ _ Hinv). cbn [mbind option_bind].
  destruct (xcopy_loop_throws (S (stdpp.base.size (records other))) other tl tr empty Leaf Leaf
              [] (elements tl) k os Hinv eq_refl empty_bimap_inv eq_refl) as (c & tl' & tr' & Hrun & Hinv' & Hpairs);
    [rewrite (inv_length _ _ _ Hinv); lia|done|].
  exists c, tl', tr'. split_and!; [exact Hrun|exact Hinv'| |].
  - rewrite Hpairs. apply pairs_of_take. intros [z kz] Hz. simpl.
    destruct (inv_left_elements _ _ _ _ _ Hinv Hz) as [y Hy]. by rewrite Hy.
  - rewrite <-(inv_length _ _ _ Hinv'), <-(left_pairs_length _ _ _ Hinv'), Hpairs.
    rewrite (pairs_of_length _ (take k (elements tl))), length_take; [lia|].
    intros [z kz] Hz. simpl. apply elem_of_take in Hz as (i & Hz & _).
    apply list_elem_of_lookup_2 in Hz.
    destruct (inv_left_elements _ _ _ _ _ Hinv Hz) as [y ->]. done.
Qed.

(** ** The properties *)

(** [operator=] when allocation [k + 1] of the copy throws: this
    container is left as it was. *)
Lemma xassign_throws other tl tr k os self :
  bimap_inv other tl tr -> k < length (elements tl) ->
  xassign false other (self, replicate k true ++ false :: os) = Some (inl bad_alloc, (self, os)).
Proof.
  intros Hinv Hk. destruct (xcopy_construct_throws other tl tr k os Hinv Hk) as (c & _ & _ & Hrun & _).
  unfold xassign. simpl. by rewrite Hrun.
Qed.

(** C18: [insert(left, right)] gives the strong exception guarantee: an
    insert whose left or right key is already present (up to
    equivalence) returns [end_left()], leaves the container unchanged and
    allocates nothing; when both keys are absent and
    [new storage_node] throws [std::bad_alloc], the exception goes through
    and the container is exactly as it was, the record in neither tree;
    when the allocation succeeds, the insert is the one of [Bimap]. *)
Theorem insert_strong_guarantee b tl tr x y os :
  bimap_inv b tl tr ->
  (forall l x' y', records b !! l = Some (x', y') -> equals x x' = true \/ equals y y' = true ->
     insert x y b = Some (end_left, b) /\ xinsert x y (b, os) = Some (inr end_left, (b, os))) /\
  (absent_keys b x y -> xinsert x y (b, false :: os) = Some (inl bad_alloc, (b, os))) /\
  (absent_keys b x y ->
     xinsert x y (b, true :: os) =
     match insert x y b with Some (l, b') => Some (inr l, (b', os)) | None => None end).
Proof.
  intros Hinv. split_and!.
  - intros l x' y' Hl Heq. split; [exact (insert_rejected_spec _ _ _ _ _ _ _ _ Hinv Hl Heq)|].
    exact (xinsert_rejected _ _ _ _ _ _ _ _ _ Hinv Hl Heq).
  - intros Hne. exact (xinsert_throws _ _ _ _ _ _ Hinv Hne).
  - intros Hne. exact (xinsert_ok _ _ _ _ _ _ Hinv Hne).
Qed.

(** C19: the copy constructor leaks on [std::bad_alloc]: when the
    allocation of the [k + 1]-th record throws, the exception leaves the
    constructor while the object under construction holds the first [k]
    pairs of the source in [k] records; that object is dropped without
    [~bimap] and its [intrusive_set] members free nothing, so the [k]
    records are never freed.  [operator=], which builds that copy first,
    throws with the same allocations and leaves this container as it was
    (the strong guarantee, with the same leak). *)
Theorem copy_construct_leaks other tl tr k os self :
  bimap_inv other tl tr -> k < length (elements tl) ->
  (exists c tl' tr', xcopy_construct other (replicate k true ++ false :: os) = Some (inl bad_alloc, (c, os)) /\
    bimap_inv c tl' tr' /\ left_pairs c tl' = take k (left_pairs other tl) /\
    stdpp.base.size (records c) = k) /\
  xassign false other (self, replicate k true ++ false :: os) = Some (inl bad_alloc, (self, os)).
Proof.
  intros Hinv Hk. split; [exact (xcopy_construct_throws other tl tr k os Hinv Hk)|].
  exact (xassign_throws other tl tr k os self Hinv Hk).
Qed.

(** C20: [at_left_or_default(key)] gives only the basic exception
    guarantee: when [key] is absent, the default right value is paired
    with another key and the insert's allocation throws, the exception
    goes through after that pair was erased; the container keeps its
    invariant but has lost the pair.  When no pair holds the default
    value, a throw leaves the container as it was. *)
Theorem at_left_or_default_basic_guarantee `{Default Right} b tl tr x os :
  bimap_inv b tl tr -> (forall l x' y', records b !! l = Some (x', y') -> equals x x' = false) ->
  (forall l2 x2, records b !! l2 = Some (x2, default_value) ->
     exists b' tl' tr', xat_left_or_default x (b, false :: os) = Some (inl bad_alloc, (b', os)) /\
       bimap_inv b' tl' tr' /\ records b' = delete l2 (records b)) /\
  ((forall l x' y', records b !! l = Some (x', y') -> equals default_value y' = false) ->
     xat_left_or_default x (b, false :: os) = Some (inl bad_alloc, (b, os))).
Proof.
  intros Hinv Hnl. split.
  - intros l2 x2 Hl2. exact (xat_left_or_default_throws _ _ _ _ _ _ _ Hinv Hnl Hl2).
  - intros Hnr. exact (xat_left_or_default_throws_unchanged _ _ _ _ _ Hinv Hnl Hnr).
Qed.


End BimapAlloc.

(** ** Concrete runs

    On [ex_bimap] (1-a, 2-b, 5-e, 8-h), and on [ex_bimap_d], where 4 is
    paired with the empty string, the default [string]. *)
Definition ex_bimap_d : bimap Z string := Eval vm_compute in
  default empty (snd <$> (insert 1%Z "a" ;;; insert 4%Z EmptyString) empty).
Definition ex_ltree_d : tree Z := Eval vm_compute in left_tree ex_bimap_d.
Definition ex_rtree_d : tree string := Eval vm_compute in right_tree ex_bimap_d.

Lemma insert_strong_guarantee_witness :
  insert 9%Z "e"%string ex_bimap = Some (end_left, ex_bimap) /\
  xinsert 3%Z "c"%string (ex_bimap, [false]) = Some (inl bad_alloc, (ex_bimap, [])).
Proof.
  destruct (insert_strong_guarantee ex_bimap ex_ltree ex_rtree 3%Z "c"%string [] ex_bimap_inv)
    as (_ & Hthrow & _).
  destruct (insert_strong_guarantee ex_bimap ex_ltree ex_rtree 9%Z "e"%string [] ex_bimap_inv)
    as (Hrej & _ & _).
  split; [apply (proj1 (Hrej 2%positive 5%Z "e"%string eq_refl (or_intror eq_refl)))|].
  apply Hthrow. intros l x' y' Hl. split.
  - revert l x' y' Hl. records_forall (fun (_ : loc) (p : Z * string) => equals 3%Z p.1 = false).
  - revert l x' y' Hl. records_forall (fun (_ : loc) (p : Z * string) => equals "c"%string p.2 = false).
Defined.

Lemma copy_construct_leaks_witness :
  (exists c tl' tr', xcopy_construct ex_bimap [true; true; false] = Some (inl bad_alloc, (c, [])) /\
    bimap_inv c tl' tr' /\ left_pairs c tl' = [(1%Z, "a"%string); (2%Z, "b"%string)] /\
    stdpp.base.size (records c) = 2) /\
  xassign false ex_bimap (ex_bimap_d, [true; true; false]) = Some (inl bad_alloc, (ex_bimap_d, [])).
Proof.
  destruct (copy_construct_leaks ex_bimap ex_ltree ex_rtree 2 [] ex_bimap_d ex_bimap_inv)
    as [(c & tl' & tr' & Hrun & Hinv & Hpairs & Hsize) Hassign]; [vm_compute; lia|].
  split; [|exact Hassign].
  exists c, tl', tr'. split_and!; [exact Hrun|exact Hinv| |exact Hsize].
  rewrite Hpairs. vm_compute. reflexivity.
Defined.

Lemma at_left_or_default_basic_guarantee_witness :
  exists b' tl' tr', xat_left_or_default 7%Z (ex_bimap_d, [false]) = Some (inl bad_alloc, (b', [])) /\
    bimap_inv b' tl' tr' /\ records b' = delete 3%positive (records ex_bimap_d).
Proof.
  destruct (at_left_or_default_basic_guarantee ex_bimap_d ex_ltree_d ex_rtree_d 7%Z [])
    as [Hpair _].
  - apply bimap_inv_check_sound. vm_compute. reflexivity.
  - records_forall (fun (_ : loc) (p : Z * string) => equals 7%Z p.1 = false).
  - apply (Hpair 3%positive 4%Z). vm_compute. reflexivity.
Defined.
