(* ===== verification/BimapProps.v ===== *)
(** * Properties of client sequences of [bimap] operations

    The properties the specification states of whole runs rather than of
    one call: a sequence of inserts of pairwise distinct keys is accepted
    in full ([size()] counts the inserts, every pair is found from both
    sides).  [insert_all] is the
    client's loop, run from the first pair to the last; the copy
    constructor is equivalent to it on the source's pairs in left order.
    An [insert] of two absent keys undone by [erase_left] gives back the
    records, the content and the size (a round trip). *)

From S2P Require Import Prelude Node Tree Repr IntrusiveSet SetInterface Bimap BimapErase BimapCopy.

Open Scope st_scope.

Section BimapProps.
Context `{OS : OrderedSet}.
Context {Left Right : Type} `{CompareLeft : Compare Left} `{CompareRight : Compare Right}.
Implicit Types (b : bimap Left Right) (tl : tree Left) (tr : tree Right) (x : Left)
  (y : Right) (l : loc) (p q : Left * Right) (ps qs : list (Left * Right)).

(** [for (auto& [x, y] : ps) m.insert(x, y);] *)
Fixpoint insert_all ps : st (bimap Left Right) unit :=
  match ps with
  | [] => st_ret tt
  | (x, y) :: ps => insert x y ;;; insert_all ps
  end.

(** Two pairs whose keys differ on both sides (up to equivalence). *)
Definition apart p q : Prop := equals p.1 q.1 = false /\ equals p.2 q.2 = false.

(** The pairs of a sequence are pairwise apart. *)
Fixpoint distinct_keys ps : Prop :=
  match ps with
  | [] => True
  | p :: ps => Forall (apart p) ps /\ distinct_keys ps
  end.

Lemma apart_sym p q : apart p q -> apart q p.
Proof. unfold apart. by rewrite !(equals_sym p.1), !(equals_sym p.2). Qed.


(** Running the inserts from a container whose records are apart from
    every pair to insert. *)
Lemma insert_all_spec ps b tl tr :
  bimap_inv b tl tr -> distinct_keys ps ->
  (forall p l q, p ∈ ps -> records b !! l = Some q -> apart p q) ->
  (Z.of_nat (stdpp.base.size (records b) + length ps) < size_t_modulus)%Z ->
  exists b' tl' tr', insert_all ps b = Some (tt, b') /\ bimap_inv b' tl' tr' /\
    stdpp.base.size (records b') = stdpp.base.size (records b) + length ps /\
    (forall l q, records b !! l = Some q -> records b' !! l = Some q) /\
    (forall p, p ∈ ps -> exists l, records b' !! l = Some p) /\
    (forall l q, records b' !! l = Some q -> records b !! l = Some q \/ q ∈ ps).
Proof.
  revert b tl tr. induction ps as [|[x y] ps IH]; intros b tl tr Hinv Hd Hap Hbound.
  { exists b, tl, tr. simpl. split_and!; [done|done|lia|done| |by left].
    intros p Hp. by apply elem_of_nil in Hp. }
  destruct Hd as [Hf Hd]. rewrite Forall_forall in Hf. simpl in Hbound.
  destruct (insert_new_spec b tl tr x y Hinv) as (b1 & Hins & Hinv1 & Hrec1 & Hfresh & _);
    [intros l x' y' Hl; exact (Hap (x, y) l (x', y') (list_elem_of_here _ _) Hl)|lia|].
  set (lf := fresh (in_use b)) in *.
  destruct (IH b1 _ _ Hinv1 Hd) as (b' & tl' & tr' & Hrun & Hinv' & Hsize & Hkeep & Hnew & Hfrom).
  { intros p l q Hp. rewrite Hrec1, lookup_insert_Some. intros [[_ <-]|[_ Hl]].
    - by apply apart_sym, Hf.
    - apply (Hap p l q); [by right|done]. }
  { rewrite Hrec1, map_size_insert_None by done. lia. }
  assert (forall l q, records b !! l = Some q -> records b1 !! l = Some q) as Hkeep1.
  { intros l q Hl. rewrite Hrec1, lookup_insert_ne; [done|]. intros ->. congruence. }
  exists b', tl', tr'. split_and!.
  - simpl. st_seq Hins. exact Hrun.
  - done.
  - rewrite Hsize, Hrec1, map_size_insert_None by done. simpl. lia.
  - auto.
  - intros p [->|Hp]%elem_of_cons; [|by apply Hnew].
    exists lf. apply Hkeep. rewrite Hrec1. apply lookup_insert_eq.
  - intros l q Hl. destruct (Hfrom l q Hl) as [Hl1|Hq]; [|by right; right].
    rewrite Hrec1, lookup_insert_Some in Hl1. destruct Hl1 as [[_ <-]|[_ Hl1]]; [by right; left|by left].
Qed.

(** Inserts from the empty container. *)
Lemma insert_all_empty ps :
  (Z.of_nat (length ps) < size_t_modulus)%Z -> distinct_keys ps ->
  exists b tl tr, insert_all ps empty = Some (tt, b) /\ bimap_inv b tl tr /\
    size b = Z.of_nat (length ps) /\
    (forall p, p ∈ ps -> exists l, records b !! l = Some p) /\
    (forall l q, records b !! l = Some q -> q ∈ ps).
Proof.
  intros Hbound Hd.
  destruct (insert_all_spec ps empty Leaf Leaf empty_bimap_inv Hd)
    as (b & tl & tr & Hrun & Hinv & Hsize & _ & Hnew & Hfrom).
  { intros p l q _ Hl. simpl in Hl. by rewrite lookup_empty in Hl. }
  { simpl. rewrite map_size_empty. simpl. lia. }
  exists b, tl, tr. split_and!; [done|done| |done|].
  - unfold size. destruct Hinv as (_ & _ & _ & _ & -> & _). rewrite Hsize. simpl. by rewrite map_size_empty.
  - intros l q Hl. destruct (Hfrom l q Hl) as [Hl0|]; [|done].
    simpl in Hl0. by rewrite lookup_empty in Hl0.
Qed.



(** The content of a container is strictly sorted by left key. *)
Lemma pairs_of_sorted recs E :
  StronglySorted lt_entry E -> (forall e, e ∈ E -> exists y, recs !! e.1 = Some (e.2, y)) ->
  StronglySorted (fun p q => less p.1 q.1 = true) (pairs_of recs E).
Proof.
  induction E as [|[l k] E IH]; intros Hs HE; [constructor|].
  apply StronglySorted_inv in Hs as [Hs Hf]. destruct (HE (l, k)) as [y Hy]; [by left|].
  rewrite (pairs_of_cons _ _ _ _ _ Hy). constructor.
  - apply IH; [done|]. intros e He. apply HE. by right.
  - apply Forall_forall. intros q Hq. destruct (elem_of_pairs_of _ _ _ Hq) as (l' & k' & Hin & Hl').
    destruct (HE (l', k')) as [y' Hy']; [by right|]. simpl in Hy'. rewrite Hl' in Hy'.
    injection Hy' as ->. exact (proj1 (Forall_forall _ _) Hf (l', k') Hin).
Qed.

Lemma left_pairs_sorted b tl tr :
  bimap_inv b tl tr -> StronglySorted (fun p q => less p.1 q.1 = true) (left_pairs b tl).
Proof.
  intros Hinv. pose proof (set_wf_bst _ _ _ _ (proj1 Hinv)) as Hbst.
  apply pairs_of_sorted; [done|]. intros [l k] He. by apply (inv_left_elements _ _ _ _ _ Hinv).
Qed.

Lemma elem_of_left_pairs_iff b tl tr p :
  bimap_inv b tl tr -> p ∈ left_pairs b tl <-> exists l, records b !! l = Some p.
Proof.
  intros Hinv. split.
  - intros (l & _ & _ & Hl)%elem_of_pairs_of. by exists l.
  - intros [l Hl]. by eapply elem_of_left_pairs.
Qed.

(** Two containers holding the same pairs have the same content: the
    left order is determined by the records. *)
Lemma left_pairs_ext b tl tr b' tl' tr' :
  bimap_inv b tl tr -> bimap_inv b' tl' tr' ->
  (forall p, (exists l, records b !! l = Some p) <-> (exists l, records b' !! l = Some p)) ->
  left_pairs b tl = left_pairs b' tl'.
Proof.
  intros Hinv Hinv' Hp. apply (StronglySorted_eq (fun p q => less p.1 q.1 = true)).
  - intros p q H1 H2. by rewrite (less_asym _ _ H1) in H2.
  - by apply (left_pairs_sorted _ _ tr).
  - by apply (left_pairs_sorted _ _ tr').
  - intros p. by rewrite (elem_of_left_pairs_iff _ _ _ _ Hinv), (elem_of_left_pairs_iff _ _ _ _ Hinv').
Qed.

(** C21: a sequence of inserts of pairs with pairwise distinct keys, from
    the empty container, is accepted in full: the container satisfies the
    invariant, [size()] is the number of inserts, and every inserted pair
    is found from its left key and from its right key, at one record whose
    iterator dereferences to the pair's left key and flips to its right key. *)
Theorem inserts_correct ps :
  (Z.of_nat (length ps) < size_t_modulus)%Z -> distinct_keys ps ->
  exists b tl tr, insert_all ps empty = Some (tt, b) /\ bimap_inv b tl tr /\
    size b = Z.of_nat (length ps) /\
    (forall x y, (x, y) ∈ ps -> exists l, find_left b x = Some l /\ find_right b y = Some l /\
       deref_left b l = Some x /\ deref_right b (flip l) = Some y).
Proof.
  intros Hbound Hd.
  destruct (insert_all_empty ps Hbound Hd) as (b & tl & tr & Hrun & Hinv & Hsize & Hnew & _).
  exists b, tl, tr. split_and!; [done|done|done|]. intros x y Hxy.
  destruct (Hnew _ Hxy) as [l Hl]. exists l. split_and!.
  - exact (find_left_hit _ _ _ _ _ _ _ Hinv Hl (equals_refl x)).
  - exact (find_right_hit _ _ _ _ _ _ _ Hinv Hl (equals_refl y)).
  - exact (deref_left_record _ _ _ _ Hl).
  - exact (deref_right_record _ _ _ _ Hl).
Qed.


(** C16: inserting a pair of absent keys and erasing it again by its left
    key is a round trip: the container satisfies the invariant and holds
    the same records, the same content in left order and the same
    [size()] as before. *)
Theorem insert_erase_roundtrip b tl tr x y :
  bimap_inv b tl tr ->
  (forall l x' y', records b !! l = Some (x', y') -> equals x x' = false /\ equals y y' = false) ->
  (Z.of_nat (stdpp.base.size (records b)) + 1 < size_t_modulus)%Z ->
  exists l b1 b2 tl2 tr2, insert x y b = Some (l, b1) /\ erase_left x b1 = Some (true, b2) /\
    bimap_inv b2 tl2 tr2 /\ records b2 = records b /\ left_pairs b2 tl2 = left_pairs b tl /\
    size b2 = size b.
Proof.
  intros Hinv Hne Hroom.
  destruct (insert_new_spec b tl tr x y Hinv Hne Hroom)
    as (b1 & Hins & Hinv1 & Hrec1 & Hfresh & _ & _ & Hsz1).
  destruct (erase_left_spec b1 _ _ x Hinv1) as [Hhit _].
  destruct (Hhit (fresh (in_use b)) x y) as (b2 & tl2 & tr2 & Her & Hinv2 & Hrec2 & Hsz2);
    [by rewrite Hrec1, lookup_insert_eq|apply equals_refl|].
  assert (records b2 = records b) as Hrec by (rewrite Hrec2, Hrec1; by apply delete_insert_id).
  exists (fresh (in_use b)), b1, b2, tl2, tr2. split_and!; [done|done|done|done| |unfold size; lia].
  apply (left_pairs_ext _ _ tr2 _ _ tr Hinv2 Hinv). by rewrite Hrec.
Qed.

(** The copy loop from the iterator of a suffix of the source's left
    order performs the inserts of the records of that suffix, in order. *)
Lemma copy_loop_insert_all fuel other tl tr P R c :
  bimap_inv other tl tr -> elements tl = P ++ R -> length R < fuel ->
  copy_loop fuel other (it_of R) c = insert_all (pairs_of (records other) R) c.
Proof.
  revert fuel P c. induction R as [|[l x] R IH]; intros [|fuel] P c Hinv Ho Hfuel;
    simpl in Hfuel; try lia; [simpl; by rewrite it_neq_refl|].
  assert ((l, x) ∈ elements tl) as Hin by (rewrite Ho; apply elem_of_app; right; by left).
  destruct (inv_left_elements _ _ _ _ _ Hinv Hin) as [y Hly].
  rewrite (pairs_of_cons _ _ _ _ _ Hly). simpl.
  rewrite (record_it_neq _ _ _ _ _ Hinv Hly).
  st_seq (st_lift_Some (fun _ => deref_left other l) c x (deref_left_record _ _ _ _ Hly)).
  st_seq (st_lift_Some (fun _ => deref_right other (flip l)) c y (deref_right_record _ _ _ _ Hly)).
  unfold st_bind at 1 3. destruct (insert x y c) as [[l1 c1]|]; [|done].
  rewrite (st_bind_Some _ _ _ _ _ (st_lift_Some _ c1 _ (next_left_spec _ _ _ _ _ _ _ Hinv Ho))).
  apply (IH fuel (P ++ [(l, x)])); [done|by rewrite <-app_assoc|lia].
Qed.

(** C17: the copy constructor is equivalent to its reference: a new
    container into which the records of the source are inserted in left
    order, one [insert] each. *)
Theorem copy_construct_insert_all other tl tr :
  bimap_inv other tl tr ->
  copy_construct other = snd <$> insert_all (left_pairs other tl) empty.
Proof.
  intros Hinv. unfold copy_construct. rewrite (begin_left_spec _ _ _ Hinv). cbn [mbind option_bind].
  rewrite (copy_loop_insert_all _ _ tl tr [] (elements tl)); [done|done|done|].
  rewrite (inv_length _ _ _ Hinv). lia.
Qed.


End BimapProps.

(** ** Concrete runs *)

Lemma inserts_correct_witness :
  exists b l, insert_all [(1%Z, "one"%string); (2%Z, "two"%string)] empty = Some (tt, b) /\
    size b = 2%Z /\ find_left b 2%Z = Some l /\ deref_right b (flip l) = Some "two"%string.
Proof.
  destruct (inserts_correct [(1%Z, "one"%string); (2%Z, "two"%string)])
    as (b & tl & tr & Hrun & _ & Hsize & Hfind); [vm_compute; reflexivity|repeat constructor|].
  destruct (Hfind 2%Z "two"%string) as (l & Hl & _ & _ & Hy); [by right; left|].
  exists b, l. split_and!; [exact Hrun|exact Hsize|exact Hl|exact Hy].
Defined.


Lemma insert_erase_roundtrip_witness :
  exists l b1 b2, insert 3%Z "c" ex_bimap = Some (l, b1) /\
    erase_left 3%Z b1 = Some (true, b2) /\ records b2 = records ex_bimap.
Proof.
  destruct (insert_erase_roundtrip ex_bimap ex_ltree ex_rtree 3%Z "c" ex_bimap_inv)
    as (l & b1 & b2 & _ & _ & Hins & Her & _ & Hrec & _).
  - records_forall (fun (_ : loc) (p : Z * string) =>
      equals 3%Z p.1 = false /\ equals "c"%string p.2 = false).
  - vm_compute. reflexivity.
  - exists l, b1, b2. split_and!; [exact Hins|exact Her|exact Hrec].
Defined.

Lemma copy_construct_insert_all_witness :
  copy_construct ex_bimap = snd <$> insert_all [(1%Z, "a"%string); (2%Z, "b"%string);
                                               (5%Z, "e"%string); (8%Z, "h"%string)] empty.
Proof.
  rewrite (copy_construct_insert_all ex_bimap ex_ltree ex_rtree ex_bimap_inv).
  vm_compute. reflexivity.
Defined.

