(* ===== verification/BimapMachine.v ===== *)
(** * The container as a state machine

    A client holds one [bimap] and calls its public operations in any
    order.  [op] lists them with their arguments (the mutators and the
    queries of src/bimap.h); [run_op] runs one the way the code does;
    [step] is the transition relation and [reachable] its
    reflexive-transitive closure from the constructor [bimap()].  The
    theorems show, by rule induction on [reachable], that every reachable
    container satisfies [bimap_inv], and that no operation has undefined
    behaviour on a reachable container.  An operation that may allocate a
    record is taken only while [m_size + 1] fits a [size_t]: a 64-bit
    address space cannot hold [2^64 - 1] records of two nodes each, and
    past that bound [m_size] would wrap.  Liveness: from every reachable
    container one call clears it and one more stores any pair, so no
    reachable state is stuck. *)

From S2P Require Import Prelude Node Tree Repr IntrusiveSet SetInterface Bimap BimapErase.

Open Scope st_scope.

Section BimapMachine.
Context `{OS : OrderedSet}.
Context {Left Right : Type} `{CompareLeft : Compare Left} `{CompareRight : Compare Right}.
Context `{DefaultLeft : Default Left} `{DefaultRight : Default Right}.
Implicit Types (b : bimap Left Right) (tl : tree Left) (tr : tree Right) (x : Left)
  (y : Right) (l : loc).

(** The calls a client can make, with their arguments. *)
Inductive op :=
| Insert (x : Left) (y : Right)
| EraseLeft (x : Left)
| EraseRight (y : Right)
| ClearLeft
| ClearRight
| AtLeftOrDefault (x : Left)
| AtRightOrDefault (y : Right)
| FindLeft (x : Left)
| FindRight (y : Right)
| AtLeft (x : Left)
| AtRight (y : Right).

(** One call, its result discarded.  [ClearLeft] and [ClearRight] are
    [erase_left(begin_left(), end_left())] and
    [erase_right(begin_right(), end_right())]. *)
Definition run_op (o : op) : st (bimap Left Right) unit :=
  match o with
  | Insert x y => insert x y ;;; st_ret tt
  | EraseLeft x => erase_left x ;;; st_ret tt
  | EraseRight y => erase_right y ;;; st_ret tt
  | ClearLeft => first <- st_lift begin_left ;; erase_left_range first end_left ;;; st_ret tt
  | ClearRight => first <- st_lift begin_right ;; erase_right_range first end_right ;;; st_ret tt
  | AtLeftOrDefault x => at_left_or_default x ;;; st_ret tt
  | AtRightOrDefault y => at_right_or_default y ;;; st_ret tt
  | FindLeft x => st_lift (fun b => find_left b x) ;;; st_ret tt
  | FindRight y => st_lift (fun b => find_right b y) ;;; st_ret tt
  | AtLeft x => st_lift (fun b => at_left b x) ;;; st_ret tt
  | AtRight y => st_lift (fun b => at_right b y) ;;; st_ret tt
  end.

(** The calls that may allocate a record. *)
Definition may_allocate (o : op) : bool :=
  match o with
  | Insert _ _ | AtLeftOrDefault _ | AtRightOrDefault _ => true
  | _ => false
  end.

(** One more record fits [m_size]. *)
Definition room b : Prop := (Z.of_nat (stdpp.base.size (records b)) + 1 < size_t_modulus)%Z.

Inductive step : bimap Left Right -> bimap Left Right -> Prop :=
| Step o b b' : (may_allocate o = true -> room b) -> run_op o b = Some (tt, b') -> step b b'.

Definition reachable : bimap Left Right -> Prop := rtc step empty.

(** ** Every call keeps the invariant and is defined *)

Lemma then_tt {A} (m : st (bimap Left Right) A) b r b' :
  m b = Some (r, b') -> (m ;;; st_ret tt) b = Some (tt, b').
Proof. intros Hm. by rewrite (st_bind_Some _ _ _ _ _ Hm). Qed.

Lemma query_tt {A} (f : bimap Left Right -> option A) b a :
  f b = Some a -> (st_lift f ;;; st_ret tt) b = Some (tt, b).
Proof. intros Hf. apply (then_tt _ _ a). by apply st_lift_Some. Qed.

Lemma run_insert b tl tr x y :
  bimap_inv b tl tr -> room b ->
  exists b' tl' tr', run_op (Insert x y) b = Some (tt, b') /\ bimap_inv b' tl' tr'.
Proof.
  intros Hinv Hroom. simpl.
  destruct (find_left_cases b tl tr x Hinv) as [[_ Hnl]|(l & x' & y' & _ & Hl & Heq)].
  - destruct (find_right_cases b tl tr y Hinv) as [[_ Hnr]|(l & x' & y' & _ & Hl & Heq)].
    + destruct (insert_new_spec b tl tr x y Hinv) as (b' & Hins & Hinv' & _); [|done|].
      { intros l x' y' Hl. split; [by eapply Hnl|by eapply Hnr]. }
      do 3 eexists. split; [by eapply then_tt|exact Hinv'].
    + exists b, tl, tr. split; [|done]. apply (then_tt _ _ end_left).
      apply (insert_rejected_spec _ _ _ _ _ _ _ _ Hinv Hl). by right.
  - exists b, tl, tr. split; [|done]. apply (then_tt _ _ end_left).
    apply (insert_rejected_spec _ _ _ _ _ _ _ _ Hinv Hl). by left.
Qed.

Lemma run_erase b tl tr o :
  bimap_inv b tl tr -> (o = ClearLeft \/ o = ClearRight \/ (exists x, o = EraseLeft x) \/
                        exists y, o = EraseRight y) ->
  exists b' tl' tr', run_op o b = Some (tt, b') /\ bimap_inv b' tl' tr'.
Proof.
  intros Hinv [->|[->|[[x ->]|[y ->]]]].
  - destruct (destroy_spec b tl tr Hinv) as (b' & Hd & _ & _ & Hinv'). by exists b', Leaf, Leaf.
  - pose proof Hinv as (_ & Hwr & _).
    destruct (erase_right_range_spec b tl tr [] (elements tr) [] Hinv ltac:(by rewrite app_nil_r))
      as (b' & tl' & tr' & Hrun & Hinv' & _).
    exists b', tl', tr'. split; [|done]. simpl.
    st_seq (st_lift_Some begin_right b _ (begin_right_spec _ _ _ Hinv)).
    rewrite app_nil_r in Hrun. exact (then_tt _ _ _ _ Hrun).
  - destruct (erase_left_spec b tl tr x Hinv) as [Hhit Hmiss]. simpl.
    destruct (find_left_cases b tl tr x Hinv) as [[_ Hnl]|(l & x' & y' & _ & Hl & Heq)].
    + exists b, tl, tr. split; [|done]. apply (then_tt _ _ false). by apply Hmiss.
    + destruct (Hhit l x' y' Hl Heq) as (b' & tl' & tr' & Hrun & Hinv' & _).
      exists b', tl', tr'. split; [by eapply then_tt|done].
  - destruct (erase_right_spec b tl tr y Hinv) as [Hhit Hmiss]. simpl.
    destruct (find_right_cases b tl tr y Hinv) as [[_ Hnr]|(l & x' & y' & _ & Hl & Heq)].
    + exists b, tl, tr. split; [|done]. apply (then_tt _ _ false). by apply Hmiss.
    + destruct (Hhit l x' y' Hl Heq) as (b' & tl' & tr' & Hrun & Hinv' & _).
      exists b', tl', tr'. split; [by eapply then_tt|done].
Qed.

Lemma run_at_or_default b tl tr o :
  bimap_inv b tl tr -> room b ->
  ((exists x, o = AtLeftOrDefault x) \/ exists y, o = AtRightOrDefault y) ->
  exists b' tl' tr', run_op o b = Some (tt, b') /\ bimap_inv b' tl' tr'.
Proof.
  intros Hinv Hroom [[x ->]|[y ->]]; simpl.
  - destruct (at_left_or_default_spec b tl tr x Hinv) as [Hhit Hmiss].
    destruct (find_left_cases b tl tr x Hinv) as [[_ Hnl]|(l & x' & y' & _ & Hl & Heq)].
    + destruct (Hmiss Hnl Hroom) as (b' & tl' & tr' & l & Hrun & Hinv' & _).
      exists b', tl', tr'. split; [by eapply then_tt|done].
    + exists b, tl, tr. split; [|done]. eapply then_tt. by apply (Hhit l x').
  - destruct (at_right_or_default_spec b tl tr y Hinv) as [Hhit Hmiss].
    destruct (find_right_cases b tl tr y Hinv) as [[_ Hnr]|(l & x' & y' & _ & Hl & Heq)].
    + destruct (Hmiss Hnr Hroom) as (b' & tl' & tr' & l & Hrun & Hinv' & _).
      exists b', tl', tr'. split; [by eapply then_tt|done].
    + exists b, tl, tr. split; [|done]. eapply then_tt. by apply (Hhit l x' y').
Qed.

Lemma run_query b tl tr o :
  bimap_inv b tl tr -> may_allocate o = false ->
  (forall x, o <> EraseLeft x) -> (forall y, o <> EraseRight y) -> o <> ClearLeft -> o <> ClearRight ->
  run_op o b = Some (tt, b).
Proof.
  intros Hinv Halloc Hel Her Hcl Hcr.
  destruct o as [x y|x|y| | |x|y|x|y|x|y]; simpl in Halloc |- *; try discriminate;
    [by destruct (Hel x)|by destruct (Her y)|done|done| | | |].
  - destruct (find_left_cases b tl tr x Hinv) as [[Hf _]|(l & _ & _ & Hf & _)]; by eapply query_tt.
  - destruct (find_right_cases b tl tr y Hinv) as [[Hf _]|(l & _ & _ & Hf & _)]; by eapply query_tt.
  - destruct (find_left_cases b tl tr x Hinv) as [[_ Hnl]|(l & x' & y' & _ & Hl & Heq)].
    + eapply query_tt. exact (at_left_miss _ _ _ _ Hinv Hnl).
    + eapply query_tt. exact (at_left_hit _ _ _ _ _ _ _ Hinv Hl Heq).
  - destruct (find_right_cases b tl tr y Hinv) as [[_ Hnr]|(l & x' & y' & _ & Hl & Heq)].
    + eapply query_tt. exact (at_right_miss _ _ _ _ Hinv Hnr).
    + eapply query_tt. exact (at_right_hit _ _ _ _ _ _ _ Hinv Hl Heq).
Qed.

(** Every call on a container satisfying the invariant is defined and
    keeps the invariant. *)
Lemma run_op_spec o b tl tr :
  bimap_inv b tl tr -> (may_allocate o = true -> room b) ->
  exists b' tl' tr', run_op o b = Some (tt, b') /\ bimap_inv b' tl' tr'.
Proof.
  intros Hinv Hroom.
  destruct o as [x y|x|y| | |x|y|x|y|x|y]; simpl in Hroom.
  8-11: exists b, tl, tr; split; [|done]; apply (run_query _ tl tr); try done; intros ? ?; discriminate.
  - apply (run_insert _ tl tr); auto.
  - apply (run_erase _ tl tr); [done|]. right; right; left. by exists x.
  - apply (run_erase _ tl tr); [done|]. right; right; right. by exists y.
  - apply (run_erase _ tl tr); [done|]. by left.
  - apply (run_erase _ tl tr); [done|]. right; by left.
  - apply (run_at_or_default _ tl tr); [done|auto|]. left. by exists x.
  - apply (run_at_or_default _ tl tr); [done|auto|]. right. by exists y.
Qed.

Lemma step_inv b b' tl tr : bimap_inv b tl tr -> step b b' -> exists tl' tr', bimap_inv b' tl' tr'.
Proof.
  intros Hinv Hs. revert Hinv. destruct Hs as [o b0 b1 Hroom Hrun]. intros Hinv.
  destruct (run_op_spec o b0 tl tr Hinv Hroom) as (b2 & tl' & tr' & Hrun2 & Hinv').
  rewrite Hrun in Hrun2. injection Hrun2 as ->. eauto.
Qed.

Lemma reachable_bimap_inv b : reachable b -> exists tl tr, bimap_inv b tl tr.
Proof.
  unfold reachable. intros Hr.
  assert (exists tl tr, bimap_inv (@empty Left Right) tl tr) as Hinv0
    by (exists Leaf, Leaf; apply empty_bimap_inv).
  revert Hinv0. induction Hr as [|b0 b1 b2 Hstep _ IH]; [done|].
  intros (tl & tr & Hinv). apply IH. by eapply step_inv.
Qed.

(** C13: every container a client can reach from [bimap()] by any
    sequence of calls satisfies the container invariant: both trees well
    formed and holding exactly the live records, keys unique on each side,
    [m_size] equal to the number of records. *)
Theorem reachable_inv b : reachable b -> exists tl tr, bimap_inv b tl tr.
Proof. apply reachable_bimap_inv. Qed.

(** C14: on a reachable container no call has undefined behaviour (no null
    or dangling dereference, no double free, no exhausted loop): each one
    returns, and the container it leaves is reachable. *)
Theorem reachable_no_ub b o :
  reachable b -> (may_allocate o = true -> room b) ->
  exists b', run_op o b = Some (tt, b') /\ reachable b'.
Proof.
  intros Hr Hroom. destruct (reachable_bimap_inv b Hr) as (tl & tr & Hinv).
  destruct (run_op_spec o b tl tr Hinv Hroom) as (b' & _ & _ & Hrun & _).
  exists b'. split; [done|]. eapply rtc_r; [exact Hr|]. by econstructor.
Qed.

(** ** Liveness: a client can always start over *)

(** [ClearLeft] on a container satisfying the invariant is one step to a
    container with no record and [m_size = 0]. *)
Lemma clear_left_step b tl tr :
  bimap_inv b tl tr ->
  exists b', step b b' /\ records b' = ∅ /\ m_size b' = 0%Z /\ bimap_inv b' Leaf Leaf.
Proof.
  intros Hinv. destruct (destroy_spec b tl tr Hinv) as (b' & Hd & Hrec & Hsz & Hinv').
  exists b'. split_and!; [|done..]. apply (Step ClearLeft); [discriminate|exact Hd].
Qed.

(** On a container with no record, [insert(x, y)] is one step after which
    [at_left(x)] returns [y] and [at_right(y)] returns [x]. *)
Lemma insert_into_cleared_step b x y :
  bimap_inv b Leaf Leaf -> records b = ∅ ->
  exists b', step b b' /\ at_left b' x = Some (inr y) /\ at_right b' y = Some (inr x).
Proof.
  intros Hinv Hrec.
  assert (room b) as Hroom by (unfold room; rewrite Hrec, map_size_empty; done).
  destruct (insert_new_spec b Leaf Leaf x y Hinv) as (b' & Hins & Hinv' & Hrec' & _);
    [intros l x' y'; rewrite Hrec, lookup_empty; discriminate|exact Hroom|].
  assert (records b' !! fresh (in_use b) = Some (x, y)) as Hl by (rewrite Hrec'; apply lookup_insert_eq).
  exists b'. split_and!.
  - apply (Step (Insert x y)); [intros _; exact Hroom|exact (then_tt _ _ _ _ Hins)].
  - exact (at_left_hit _ _ _ _ _ _ _ Hinv' Hl (equals_refl x)).
  - exact (at_right_hit _ _ _ _ _ _ _ Hinv' Hl (equals_refl y)).
Qed.

(** C15: from every reachable container a client can always start over
    and store any pair: [erase_left(begin_left(), end_left())] is one call
    to a container with no record and [m_size = 0], and a following
    [insert(x, y)] is one call to a reachable container in which
    [at_left(x)] returns [y] and [at_right(y)] returns [x].  No reachable
    state is stuck, whatever calls led to it. *)
Theorem reachable_restart b x y :
  reachable b ->
  exists b1 b2, step b b1 /\ records b1 = ∅ /\ m_size b1 = 0%Z /\ step b1 b2 /\ reachable b2 /\
    at_left b2 x = Some (inr y) /\ at_right b2 y = Some (inr x).
Proof.
  intros Hr. destruct (reachable_bimap_inv b Hr) as (tl & tr & Hinv).
  destruct (clear_left_step b tl tr Hinv) as (b1 & Hs1 & Hrec1 & Hsz1 & Hinv1).
  destruct (insert_into_cleared_step b1 x y Hinv1 Hrec1) as (b2 & Hs2 & Hl & Hr2).
  exists b1, b2. split_and!; try done.
  eapply rtc_r; [eapply rtc_r; [exact Hr|exact Hs1]|exact Hs2].
Qed.

End BimapMachine.

(** ** A concrete run: the state after [insert(3, "")] *)

Definition ex_m1 : bimap Z string := Eval vm_compute in
  default empty (snd <$> run_op (Insert 3%Z EmptyString) empty).

Lemma ex_m1_reachable : reachable ex_m1.
Proof.
  eapply rtc_l; [|apply rtc_refl].
  apply (Step (Insert 3%Z EmptyString)); [intros _; vm_compute; reflexivity|vm_compute; reflexivity].
Qed.

Lemma reachable_inv_witness : exists tl tr, bimap_inv ex_m1 tl tr.
Proof. exact (reachable_inv ex_m1 ex_m1_reachable). Defined.

Lemma reachable_no_ub_witness :
  exists b', run_op (AtLeftOrDefault 5%Z) ex_m1 = Some (tt, b') /\ reachable b'.
Proof.
  apply (reachable_no_ub ex_m1 (AtLeftOrDefault 5%Z) ex_m1_reachable).
  intros _. vm_compute. reflexivity.
Defined.

Lemma reachable_restart_witness :
  exists b1 b2, step ex_m1 b1 /\ records b1 = ∅ /\ m_size b1 = 0%Z /\ step b1 b2 /\
    reachable b2 /\ at_left b2 7%Z = Some (inr "g"%string) /\
    at_right b2 "g"%string = Some (inr 7%Z).
Proof. exact (reachable_restart ex_m1 7%Z "g"%string ex_m1_reachable). Defined.
