(* ===== verification/BimapSpec.v ===== *)
(** * An abstract specification of [bimap] and its refinement

    What a client of src/bimap.h can observe of a container is the list
    of its pairs in increasing left order ([left_pairs]).  This file
    states the container's contract on that list alone: [amap] is a list
    of pairs, and [a_op] says how each call of [BimapMachine.op] changes
    it ([a_insert] inserts in left order unless a key clashes,
    [a_erase_left]/[a_erase_right] drop the pairs with an equivalent key,
    the range erases over the whole container empty it,
    [a_at_left_or_default]/[a_at_right_or_default] replace the pair of
    the default value by the new one, the queries change nothing), and
    [a_at_left]/[a_at_right] say what [at_left]/[at_right] return.

    The refinement theorems show that the pointer code implements this
    contract: one call commutes with [a_op] under the abstraction
    function [left_pairs], and the lookups return the abstract answer
    ([run_op_refines]); and a whole client program of fewer
    than [2^64 - 1] calls, run from [bimap()], never fails and leaves the
    content the abstract program computes ([client_run_refines]). *)

From S2P Require Import Prelude Node Tree Repr IntrusiveSet SetInterface Bimap BimapErase BimapCopy BimapProps BimapMachine.

Open Scope st_scope.

Section BimapSpec.
Context `{OS : OrderedSet}.
Context {Left Right : Type} `{CompareLeft : Compare Left} `{CompareRight : Compare Right}.
Context `{DefaultLeft : Default Left} `{DefaultRight : Default Right}.
Implicit Types (b : bimap Left Right) (tl : tree Left) (tr : tree Right) (x : Left)
  (y : Right) (l : loc) (p q : Left * Right) (m : list (Left * Right)).

(** ** The abstract container *)

(** Insertion of a pair before the first pair whose left key is not less
    than its own. *)
Fixpoint a_ins p m : list (Left * Right) :=
  match m with
  | [] => [p]
  | q :: m' => if less q.1 p.1 then q :: a_ins p m' else p :: q :: m'
  end.

(** A pair whose left key is equivalent to [x] or right key to [y]. *)
Definition clash x y p : bool := equals x p.1 || equals y p.2.

Definition a_insert x y m : list (Left * Right) :=
  if existsb (clash x y) m then m else a_ins (x, y) m.
Definition a_erase_left x m : list (Left * Right) := List.filter (fun p => negb (equals x p.1)) m.
Definition a_erase_right y m : list (Left * Right) := List.filter (fun p => negb (equals y p.2)) m.
Definition a_at_left_or_default x m : list (Left * Right) :=
  if existsb (fun p => equals x p.1) m then m
  else a_ins (x, default_value) (a_erase_right default_value m).
Definition a_at_right_or_default y m : list (Left * Right) :=
  if existsb (fun p => equals y p.2) m then m
  else a_ins (default_value, y) (a_erase_left default_value m).

(** The effect of one call on the content. *)
Definition a_op (o : op) m : list (Left * Right) :=
  match o with
  | Insert x y => a_insert x y m
  | EraseLeft x => a_erase_left x m
  | EraseRight y => a_erase_right y m
  | ClearLeft | ClearRight => []
  | AtLeftOrDefault x => a_at_left_or_default x m
  | AtRightOrDefault y => a_at_right_or_default y m
  | FindLeft _ | FindRight _ | AtLeft _ | AtRight _ => m
  end.

(** The answers of [at_left] and [at_right]. *)
Definition a_at_left x m : exn + Right :=
  match List.find (fun p => equals x p.1) m with
  | Some p => inr p.2
  | None => inl (out_of_range "element doesn't exist")
  end.
Definition a_at_right y m : exn + Left :=
  match List.find (fun p => equals y p.2) m with
  | Some p => inr p.1
  | None => inl (out_of_range "element doesn't exist")
  end.

(** A client program, call after call, on the content. *)
Definition a_run (os : list op) m : list (Left * Right) := fold_left (fun m o => a_op o m) os m.

(** The same program on the container. *)
Fixpoint run_ops (os : list op) : st (bimap Left Right) unit :=
  match os with
  | [] => st_ret tt
  | o :: os => run_op o ;;; run_ops os
  end.

(** ** Lemmas on the abstract container *)

Notation lt_left := (fun p q : Left * Right => less p.1 q.1 = true).

Lemma elem_of_a_ins p q m : q ∈ a_ins p m <-> q = p \/ q ∈ m.
Proof.
  induction m as [|r m IH]; simpl; [set_solver|].
  destruct (less r.1 p.1); rewrite !elem_of_cons; [rewrite IH|]; tauto.
Qed.

Lemma a_ins_sorted p m :
  StronglySorted lt_left m -> (forall q, q ∈ m -> equals p.1 q.1 = false) ->
  StronglySorted lt_left (a_ins p m).
Proof.
  induction m as [|r m IH]; intros Hs Hne; simpl; [repeat constructor|].
  apply StronglySorted_inv in Hs as [Hs Hf].
  destruct (less r.1 p.1) eqn:Hrp.
  - constructor; [apply IH; [done|intros q Hq; apply Hne; by right]|].
    apply Forall_forall. intros q [->|Hq]%elem_of_a_ins; [done|].
    by eapply Forall_forall in Hf.
  - assert (less p.1 r.1 = true) as Hpr.
    { destruct (equals_less p.1 r.1) as [?|Hc]; [apply Hne; by left|done|congruence]. }
    constructor; [by constructor|]. constructor; [done|].
    apply Forall_forall. intros q Hq. eapply less_trans; [exact Hpr|].
    by eapply Forall_forall in Hf.
Qed.

Lemma a_ins_length p m : length (a_ins p m) = S (length m).
Proof. induction m as [|r m IH]; simpl; [done|]. destruct (less r.1 p.1); simpl; lia. Qed.

Lemma elem_of_filter_list (f : Left * Right -> bool) p m :
  p ∈ List.filter f m <-> p ∈ m /\ f p = true.
Proof. rewrite !list_elem_of_In. apply filter_In. Qed.

Lemma filter_sorted (f : Left * Right -> bool) m :
  StronglySorted lt_left m -> StronglySorted lt_left (List.filter f m).
Proof.
  induction m as [|r m IH]; intros Hs; simpl; [constructor|].
  apply StronglySorted_inv in Hs as [Hs Hf].
  destruct (f r); [|by apply IH]. constructor; [by apply IH|].
  apply Forall_forall. intros q [Hq _]%elem_of_filter_list. by eapply Forall_forall in Hf.
Qed.

Lemma filter_id_list (f : Left * Right -> bool) m :
  (forall p, p ∈ m -> f p = true) -> List.filter f m = m.
Proof.
  induction m as [|r m IH]; intros Hm; simpl; [done|].
  rewrite (Hm r) by (by left). f_equal. apply IH. intros p Hp. apply Hm. by right.
Qed.

Lemma filter_length_list (f : Left * Right -> bool) m : length (List.filter f m) <= length m.
Proof. induction m as [|r m IH]; simpl; [done|]. destruct (f r); simpl; lia. Qed.

Lemma existsb_elem (f : Left * Right -> bool) m :
  existsb f m = true <-> exists p, p ∈ m /\ f p = true.
Proof. rewrite existsb_exists. by setoid_rewrite list_elem_of_In. Qed.

Lemma a_op_length o m : length (a_op o m) <= S (length m).
Proof.
  destruct o; simpl; try lia.
  - unfold a_insert. destruct (existsb _ _); [lia|]. by rewrite a_ins_length.
  - apply le_S, filter_length_list.
  - apply le_S, filter_length_list.
  - unfold a_at_left_or_default. destruct (existsb _ _); [lia|].
    rewrite a_ins_length. pose proof (filter_length_list (fun p => negb (equals default_value p.2)) m).
    unfold a_erase_right. lia.
  - unfold a_at_right_or_default. destruct (existsb _ _); [lia|].
    rewrite a_ins_length. pose proof (filter_length_list (fun p => negb (equals default_value p.1)) m).
    unfold a_erase_left. lia.
Qed.

(** ** The abstraction function *)

(** The content of a container is the one strictly sorted list of its
    records. *)
Lemma left_pairs_char b tl tr m :
  bimap_inv b tl tr -> StronglySorted lt_left m ->
  (forall p, p ∈ m <-> exists l, records b !! l = Some p) -> left_pairs b tl = m.
Proof.
  intros Hinv Hs Hm. apply (StronglySorted_eq lt_left).
  - intros p q H1 H2. by rewrite (less_asym _ _ H1) in H2.
  - exact (left_pairs_sorted _ _ tr Hinv).
  - done.
  - intros p. rewrite (elem_of_left_pairs_iff _ _ _ _ Hinv). symmetry. apply Hm.
Qed.

(** The records after one is added at a free location. *)
Lemma records_insert_elems (recs : gmap loc (Left * Right)) l p0 p :
  recs !! l = None ->
  (exists l', <[l := p0]> recs !! l' = Some p) <-> p = p0 \/ exists l', recs !! l' = Some p.
Proof.
  intros Hl. split.
  - intros [l' [[<- <-]|[_ Hl']]%lookup_insert_Some]; [by left|right; by exists l'].
  - intros [->|[l' Hl']]; [exists l; apply lookup_insert_eq|].
    exists l'. rewrite lookup_insert_ne; [done|]. intros ->. congruence.
Qed.

(** The records after the only one that fails [f] is deleted. *)
Lemma records_delete_elems (recs : gmap loc (Left * Right)) l (f : Left * Right -> bool) p :
  (forall l' q, recs !! l' = Some q -> f q = false -> l' = l) ->
  (forall q, recs !! l = Some q -> f q = false) ->
  (exists l', delete l recs !! l' = Some p) <-> (exists l', recs !! l' = Some p) /\ f p = true.
Proof.
  intros Huniq Hl. split.
  - intros [l' [Hne Hl']%lookup_delete_Some]. split; [by exists l'|].
    destruct (f p) eqn:Hf; [done|]. by destruct Hne; symmetry; apply (Huniq l' p).
  - intros [[l' Hl'] Hf]. exists l'. apply lookup_delete_Some. split; [|done].
    intros ->. rewrite (Hl p Hl') in Hf. discriminate.
Qed.

(** The records after [at_*_or_default] detached the default value. *)
Lemma replaced_elems (P : Left * Right -> bool) recs recs' l p0 p :
  replaced_default P recs recs' l -> recs' !! l = Some p0 ->
  (exists l', recs' !! l' = Some p) <-> p = p0 \/ (exists l', recs !! l' = Some p) /\ P p = true.
Proof.
  intros [Hold Hrest] Hl. split.
  - intros [l' Hl']. destruct (decide (l' = l)) as [->|Hne]; [left; congruence|].
    right. apply Hrest in Hl' as [? ?]; [|done]. split; [by exists l'|done].
  - intros [->|[[l' Hl'] HP]]; [by exists l|]. exists l'.
    destruct (decide (l' = l)) as [->|Hne]; [by rewrite (Hold p Hl') in HP|].
    by apply Hrest.
Qed.

(** A pair of the content clashing with a key is a record's. *)
Lemma existsb_left_pairs b tl tr (f : Left * Right -> bool) :
  bimap_inv b tl tr ->
  existsb f (left_pairs b tl) = true <-> exists l p, records b !! l = Some p /\ f p = true.
Proof.
  intros Hinv. rewrite existsb_elem. setoid_rewrite (elem_of_left_pairs_iff _ _ _ _ Hinv).
  split; [intros (p & [l Hl] & Hf); eauto|intros (l & p & Hl & Hf); eauto].
Qed.

(** ** One call commutes with the abstract container *)

(** [o] runs on [b] and leaves a container whose content is [a_op o] of
    the content of [b]. *)
Definition commutes (o : op) b tl : Prop :=
  exists b' tl' tr', run_op o b = Some (tt, b') /\ bimap_inv b' tl' tr' /\
    left_pairs b' tl' = a_op o (left_pairs b tl).

Lemma commutes_same o b tl tr :
  bimap_inv b tl tr -> run_op o b = Some (tt, b) -> a_op o (left_pairs b tl) = left_pairs b tl ->
  commutes o b tl.
Proof. intros Hinv Hrun Ha. exists b, tl, tr. by rewrite Ha. Qed.

(** A clash with a record makes [existsb] true. *)
Lemma existsb_record b tl tr (f : Left * Right -> bool) l p :
  bimap_inv b tl tr -> records b !! l = Some p -> f p = true -> existsb f (left_pairs b tl) = true.
Proof. intros Hinv Hl Hf. apply (existsb_left_pairs _ _ _ _ Hinv). eauto. Qed.

Lemma commutes_insert b tl tr x y :
  bimap_inv b tl tr -> room b -> commutes (Insert x y) b tl.
Proof.
  intros Hinv Hroom.
  destruct (find_left_cases b tl tr x Hinv) as [[_ Hnl]|(l & x' & y' & _ & Hl & Heq)].
  - destruct (find_right_cases b tl tr y Hinv) as [[_ Hnr]|(l & x' & y' & _ & Hl & Heq)].
    + destruct (insert_new_spec b tl tr x y Hinv) as (b' & Hins & Hinv' & Hrec' & Hfresh & _);
        [intros l x' y' Hl; split; [by eapply Hnl|by eapply Hnr]|exact Hroom|].
      do 3 eexists. split_and!; [exact (then_tt _ _ _ _ Hins)|exact Hinv'|].
      cbn [a_op]. unfold a_insert. destruct (existsb (clash x y) (left_pairs b tl)) eqn:He.
      { apply (existsb_left_pairs _ _ _ _ Hinv) in He as (l & [x' y'] & Hl & Hc).
        unfold clash in Hc. simpl in Hc. by rewrite (Hnl _ _ _ Hl), (Hnr _ _ _ Hl) in Hc. }
      apply (left_pairs_char _ _ _ _ Hinv').
      * apply a_ins_sorted; [exact (left_pairs_sorted _ _ _ Hinv)|].
        intros [x' y'] [l Hl]%(elem_of_left_pairs_iff _ _ _ _ Hinv). by eapply Hnl.
      * intros p. rewrite elem_of_a_ins, Hrec', (records_insert_elems _ _ _ _ Hfresh).
        by rewrite (elem_of_left_pairs_iff _ _ _ _ Hinv).
    + apply (commutes_same _ _ _ tr Hinv).
      * apply (then_tt _ _ end_left). apply (insert_rejected_spec _ _ _ _ _ _ _ _ Hinv Hl). by right.
      * cbn [a_op]. unfold a_insert.
        rewrite (existsb_record _ _ _ _ _ _ Hinv Hl); [done|]. unfold clash. simpl. by rewrite Heq, orb_true_r.
  - apply (commutes_same _ _ _ tr Hinv).
    + apply (then_tt _ _ end_left). apply (insert_rejected_spec _ _ _ _ _ _ _ _ Hinv Hl). by left.
    + cbn [a_op]. unfold a_insert.
      rewrite (existsb_record _ _ _ _ _ _ Hinv Hl); [done|]. unfold clash. simpl. by rewrite Heq.
Qed.

Lemma commutes_erase_left b tl tr x : bimap_inv b tl tr -> commutes (EraseLeft x) b tl.
Proof.
  intros Hinv.
  destruct (erase_left_spec b tl tr x Hinv) as [Hhit Hmiss].
  destruct (find_left_cases b tl tr x Hinv) as [[_ Hnl]|(l & x' & y' & _ & Hl & Heq)].
  - apply (commutes_same _ _ _ tr Hinv); [apply (then_tt _ _ false); by apply Hmiss|].
    cbn [a_op]. unfold a_erase_left, a_erase_right. apply filter_id_list. intros [x' y'] [l Hl]%(elem_of_left_pairs_iff _ _ _ _ Hinv).
    simpl. by rewrite (Hnl _ _ _ Hl).
  - destruct (Hhit l x' y' Hl Heq) as (b' & tl' & tr' & Hrun & Hinv' & Hrec' & _).
    exists b', tl', tr'. split_and!; [by eapply then_tt|done|]. cbn [a_op]. unfold a_erase_left, a_erase_right.
    apply (left_pairs_char _ _ _ _ Hinv'); [apply filter_sorted, (left_pairs_sorted _ _ _ Hinv)|].
    intros p. rewrite elem_of_filter_list, (elem_of_left_pairs_iff _ _ _ _ Hinv), Hrec'.
    symmetry. apply (records_delete_elems _ _ (fun q => negb (equals x q.1))).
    + intros l2 [x2 y2] Hl2 Hf. apply negb_false_iff in Hf. simpl in Hf.
      apply (left_key_unique b tl tr l2 l x2 y2 x' y' Hinv Hl2 Hl).
      eapply equals_trans; [rewrite equals_sym; exact Hf|exact Heq].
    + intros q Hq. rewrite Hl in Hq. injection Hq as <-. simpl. by rewrite Heq.
Qed.

Lemma commutes_erase_right b tl tr y : bimap_inv b tl tr -> commutes (EraseRight y) b tl.
Proof.
  intros Hinv.
  destruct (erase_right_spec b tl tr y Hinv) as [Hhit Hmiss].
  destruct (find_right_cases b tl tr y Hinv) as [[_ Hnr]|(l & x' & y' & _ & Hl & Heq)].
  - apply (commutes_same _ _ _ tr Hinv); [apply (then_tt _ _ false); by apply Hmiss|].
    cbn [a_op]. unfold a_erase_left, a_erase_right. apply filter_id_list. intros [x' y'] [l Hl]%(elem_of_left_pairs_iff _ _ _ _ Hinv).
    simpl. by rewrite (Hnr _ _ _ Hl).
  - destruct (Hhit l x' y' Hl Heq) as (b' & tl' & tr' & Hrun & Hinv' & Hrec' & _).
    exists b', tl', tr'. split_and!; [by eapply then_tt|done|]. cbn [a_op]. unfold a_erase_left, a_erase_right.
    apply (left_pairs_char _ _ _ _ Hinv'); [apply filter_sorted, (left_pairs_sorted _ _ _ Hinv)|].
    intros p. rewrite elem_of_filter_list, (elem_of_left_pairs_iff _ _ _ _ Hinv), Hrec'.
    symmetry. apply (records_delete_elems _ _ (fun q => negb (equals y q.2))).
    + intros l2 [x2 y2] Hl2 Hf. apply negb_false_iff in Hf. simpl in Hf.
      apply (right_key_unique b tl tr l2 l x2 y2 x' y' Hinv Hl2 Hl).
      eapply equals_trans; [rewrite equals_sym; exact Hf|exact Heq].
    + intros q Hq. rewrite Hl in Hq. injection Hq as <-. simpl. by rewrite Heq.
Qed.

(** A container without records has the empty content. *)
Lemma left_pairs_no_records b tl tr :
  bimap_inv b tl tr -> (forall l, records b !! l = None) -> left_pairs b tl = [].
Proof.
  intros Hinv Hnone. apply (left_pairs_char _ _ _ _ Hinv); [constructor|].
  intros p. split; [intros Hp; by apply not_elem_of_nil in Hp|]. intros [l Hl]. by rewrite Hnone in Hl.
Qed.

Lemma commutes_clear_left b tl tr : bimap_inv b tl tr -> commutes ClearLeft b tl.
Proof.
  intros Hinv. destruct (destroy_spec b tl tr Hinv) as (b' & Hd & Hrec & _ & Hinv').
  exists b', Leaf, Leaf. split_and!; [exact Hd|exact Hinv'|].
  apply (left_pairs_no_records _ _ _ Hinv'). intros l. by rewrite Hrec, lookup_empty.
Qed.

Lemma commutes_clear_right b tl tr : bimap_inv b tl tr -> commutes ClearRight b tl.
Proof.
  intros Hinv. pose proof Hinv as (_ & Hwr & _ & Hlocsr & _).
  destruct (erase_right_range_spec b tl tr [] (elements tr) [] Hinv ltac:(by rewrite app_nil_r))
    as (b' & tl' & tr' & Hrun & Hinv' & _ & Hrec' & _).
  exists b', tl', tr'. split_and!.
  - simpl. st_seq (st_lift_Some begin_right b _ (begin_right_spec _ _ _ Hinv)).
    rewrite app_nil_r in Hrun. exact (then_tt _ _ _ _ Hrun).
  - done.
  - apply (left_pairs_no_records _ _ _ Hinv'). intros l. rewrite Hrec'.
    case_bool_decide as Hin; [done|]. destruct (records b !! l) eqn:Hl; [|done].
    exfalso. apply Hin. apply Hlocsr. by rewrite Hl.
Qed.

Lemma commutes_at_left_or_default b tl tr x :
  bimap_inv b tl tr -> room b -> commutes (AtLeftOrDefault x) b tl.
Proof.
  intros Hinv Hroom. destruct (at_left_or_default_spec b tl tr x Hinv) as [Hhit Hmiss].
  destruct (find_left_cases b tl tr x Hinv) as [[_ Hnl]|(l & x' & y' & _ & Hl & Heq)].
  - destruct (Hmiss Hnl Hroom) as (b' & tl' & tr' & l & Hrun & Hinv' & Hl & Hrep).
    exists b', tl', tr'. split_and!; [by eapply then_tt|done|].
    cbn [a_op]. unfold a_at_left_or_default.
    destruct (existsb (fun p => equals x p.1) (left_pairs b tl)) eqn:He.
    { apply (existsb_left_pairs _ _ _ _ Hinv) in He as (l2 & [x2 y2] & Hl2 & Hc).
      simpl in Hc. by rewrite (Hnl _ _ _ Hl2) in Hc. }
    apply (left_pairs_char _ _ _ _ Hinv').
    + apply a_ins_sorted; [apply filter_sorted, (left_pairs_sorted _ _ _ Hinv)|].
      intros [x2 y2] [[l2 Hl2]%(elem_of_left_pairs_iff _ _ _ _ Hinv) _]%elem_of_filter_list.
      by eapply Hnl.
    + intros p. rewrite elem_of_a_ins, (replaced_elems _ _ _ _ _ _ Hrep Hl).
      unfold a_erase_right. by rewrite elem_of_filter_list, (elem_of_left_pairs_iff _ _ _ _ Hinv).
  - apply (commutes_same _ _ _ tr Hinv); [eapply then_tt; exact (Hhit l x' y' Hl Heq)|].
    cbn [a_op]. unfold a_at_left_or_default.
    by rewrite (existsb_record _ _ _ (fun p => equals x p.1) _ _ Hinv Hl Heq).
Qed.

Lemma commutes_at_right_or_default b tl tr y :
  bimap_inv b tl tr -> room b -> commutes (AtRightOrDefault y) b tl.
Proof.
  intros Hinv Hroom. destruct (at_right_or_default_spec b tl tr y Hinv) as [Hhit Hmiss].
  destruct (find_right_cases b tl tr y Hinv) as [[_ Hnr]|(l & x' & y' & _ & Hl & Heq)].
  - destruct (Hmiss Hnr Hroom) as (b' & tl' & tr' & l & Hrun & Hinv' & Hl & Hrep).
    exists b', tl', tr'. split_and!; [by eapply then_tt|done|].
    cbn [a_op]. unfold a_at_right_or_default.
    destruct (existsb (fun p => equals y p.2) (left_pairs b tl)) eqn:He.
    { apply (existsb_left_pairs _ _ _ _ Hinv) in He as (l2 & [x2 y2] & Hl2 & Hc).
      simpl in Hc. by rewrite (Hnr _ _ _ Hl2) in Hc. }
    apply (left_pairs_char _ _ _ _ Hinv').
    + apply a_ins_sorted; [apply filter_sorted, (left_pairs_sorted _ _ _ Hinv)|].
      intros [x2 y2] [_ Hf]%elem_of_filter_list. by apply negb_true_iff in Hf.
    + intros p. rewrite elem_of_a_ins, (replaced_elems _ _ _ _ _ _ Hrep Hl).
      unfold a_erase_left. by rewrite elem_of_filter_list, (elem_of_left_pairs_iff _ _ _ _ Hinv).
  - apply (commutes_same _ _ _ tr Hinv); [eapply then_tt; exact (Hhit l x' y' Hl Heq)|].
    cbn [a_op]. unfold a_at_right_or_default.
    by rewrite (existsb_record _ _ _ (fun p => equals y p.2) _ _ Hinv Hl Heq).
Qed.

(** Every call commutes with the abstract container. *)
Lemma run_op_commutes o b tl tr :
  bimap_inv b tl tr -> (may_allocate o = true -> room b) -> commutes o b tl.
Proof.
  intros Hinv Hroom.
  destruct o as [x y|x|y| | |x|y|x|y|x|y]; simpl in Hroom.
  8-11: apply (commutes_same _ _ _ tr Hinv); [|done];
        apply (run_query _ tl tr); try done; intros ? ?; discriminate.
  - by apply (commutes_insert _ _ tr); [|apply Hroom].
  - exact (commutes_erase_left _ _ tr _ Hinv).
  - exact (commutes_erase_right _ _ tr _ Hinv).
  - exact (commutes_clear_left _ _ tr Hinv).
  - exact (commutes_clear_right _ _ tr Hinv).
  - by apply (commutes_at_left_or_default _ _ tr); [|apply Hroom].
  - by apply (commutes_at_right_or_default _ _ tr); [|apply Hroom].
Qed.

(** [at_left] and [at_right] return the abstract answers. *)
Lemma at_left_abstract b tl tr x :
  bimap_inv b tl tr -> at_left b x = Some (a_at_left x (left_pairs b tl)).
Proof.
  intros Hinv. unfold a_at_left.
  destruct (find_left_cases b tl tr x Hinv) as [[_ Hnl]|(l & x' & y' & _ & Hl & Heq)].
  - destruct (List.find _ _) as [[x2 y2]|] eqn:Hf; [|exact (at_left_miss _ _ _ _ Hinv Hnl)].
    apply find_some in Hf as [Hin Hc]. apply list_elem_of_In in Hin.
    apply (elem_of_left_pairs_iff _ _ _ _ Hinv) in Hin as [l Hl]. simpl in Hc.
    by rewrite (Hnl _ _ _ Hl) in Hc.
  - destruct (List.find _ _) as [[x2 y2]|] eqn:Hf.
    + apply find_some in Hf as [Hin Hc]. apply list_elem_of_In in Hin.
      apply (elem_of_left_pairs_iff _ _ _ _ Hinv) in Hin as [l2 Hl2]. simpl in Hc.
      assert (l2 = l) as ->.
      { apply (left_key_unique b tl tr l2 l x2 y2 x' y' Hinv Hl2 Hl).
        eapply equals_trans; [rewrite equals_sym; exact Hc|exact Heq]. }
      rewrite Hl in Hl2. injection Hl2 as -> ->. exact (at_left_hit _ _ _ _ _ _ _ Hinv Hl Heq).
    + exfalso. pose proof (find_none _ _ Hf (x', y')) as Hc. simpl in Hc. rewrite Heq in Hc.
      apply diff_true_false, Hc, list_elem_of_In, (elem_of_left_pairs_iff _ _ _ _ Hinv). eauto.
Qed.

Lemma at_right_abstract b tl tr y :
  bimap_inv b tl tr -> at_right b y = Some (a_at_right y (left_pairs b tl)).
Proof.
  intros Hinv. unfold a_at_right.
  destruct (find_right_cases b tl tr y Hinv) as [[_ Hnr]|(l & x' & y' & _ & Hl & Heq)].
  - destruct (List.find _ _) as [[x2 y2]|] eqn:Hf; [|exact (at_right_miss _ _ _ _ Hinv Hnr)].
    apply find_some in Hf as [Hin Hc]. apply list_elem_of_In in Hin.
    apply (elem_of_left_pairs_iff _ _ _ _ Hinv) in Hin as [l Hl]. simpl in Hc.
    by rewrite (Hnr _ _ _ Hl) in Hc.
  - destruct (List.find _ _) as [[x2 y2]|] eqn:Hf.
    + apply find_some in Hf as [Hin Hc]. apply list_elem_of_In in Hin.
      apply (elem_of_left_pairs_iff _ _ _ _ Hinv) in Hin as [l2 Hl2]. simpl in Hc.
      assert (l2 = l) as ->.
      { apply (right_key_unique b tl tr l2 l x2 y2 x' y' Hinv Hl2 Hl).
        eapply equals_trans; [rewrite equals_sym; exact Hc|exact Heq]. }
      rewrite Hl in Hl2. injection Hl2 as -> ->. exact (at_right_hit _ _ _ _ _ _ _ Hinv Hl Heq).
    + exfalso. pose proof (find_none _ _ Hf (x', y')) as Hc. simpl in Hc. rewrite Heq in Hc.
      apply diff_true_false, Hc, list_elem_of_In, (elem_of_left_pairs_iff _ _ _ _ Hinv). eauto.
Qed.

(** The number of records is the length of the content. *)
Lemma records_size_left_pairs b tl tr :
  bimap_inv b tl tr -> stdpp.base.size (records b) = length (left_pairs b tl).
Proof.
  intros Hinv. pose proof (size_left_pairs _ _ _ Hinv) as Hs.
  pose proof Hinv as (_ & _ & _ & _ & Hm & _). unfold size in Hs. lia.
Qed.

(** A program runs call after call, each one commuting with [a_op], as
    long as the content stays short enough for [m_size] to count it. *)
Lemma run_ops_spec os b tl tr :
  bimap_inv b tl tr -> (Z.of_nat (length (left_pairs b tl) + length os) + 1 < size_t_modulus)%Z ->
  exists b' tl' tr', run_ops os b = Some (tt, b') /\ bimap_inv b' tl' tr' /\
    left_pairs b' tl' = a_run os (left_pairs b tl).
Proof.
  revert b tl tr. induction os as [|o os IH]; intros b tl tr Hinv Hlen.
  - by exists b, tl, tr.
  - assert (room b) as Hroom.
    { unfold room. rewrite (records_size_left_pairs _ _ _ Hinv). simpl in Hlen. lia. }
    destruct (run_op_commutes o b tl tr Hinv (fun _ => Hroom)) as (b1 & tl1 & tr1 & Hrun & Hinv1 & Hc).
    destruct (IH b1 tl1 tr1 Hinv1) as (b' & tl' & tr' & Hrest & Hinv' & Hc').
    { rewrite Hc. pose proof (a_op_length o (left_pairs b tl)). simpl in Hlen. lia. }
    exists b', tl', tr'. split_and!; [|done|by rewrite Hc', Hc].
    simpl. by rewrite (st_bind_Some _ _ _ _ _ Hrun).
Qed.

(** C11: refinement of one call.  On a container satisfying the
    invariant, every client call ([insert], [erase_left]/[erase_right]
    by key and over the whole range, [at_*_or_default], [find_*],
    [at_*]) returns, and leaves a container satisfying the invariant
    whose content (its pairs in left order) is the abstract container's
    answer [a_op] on the old content; [at_left] and [at_right] return the
    abstract lookups.  A call that may allocate is taken while one more
    record fits [m_size]. *)
Theorem run_op_refines o b tl tr :
  bimap_inv b tl tr -> (may_allocate o = true -> room b) ->
  (exists b' tl' tr', run_op o b = Some (tt, b') /\ bimap_inv b' tl' tr' /\
     left_pairs b' tl' = a_op o (left_pairs b tl)) /\
  (forall x, at_left b x = Some (a_at_left x (left_pairs b tl))) /\
  (forall y, at_right b y = Some (a_at_right y (left_pairs b tl))).
Proof.
  intros Hinv Hroom. split_and!; [exact (run_op_commutes o b tl tr Hinv Hroom)| |].
  - intros x. exact (at_left_abstract _ _ _ x Hinv).
  - intros y. exact (at_right_abstract _ _ _ y Hinv).
Qed.

(** C12: refinement of whole client programs.  Every sequence of fewer
    than [2^64 - 1] calls, run from [bimap()], returns without undefined
    behaviour and leaves a container satisfying the invariant whose
    content is the one the abstract program [a_run] computes from the
    empty list. *)
Theorem client_run_refines os :
  (Z.of_nat (length os) + 1 < size_t_modulus)%Z ->
  exists b tl tr, run_ops os empty = Some (tt, b) /\ bimap_inv b tl tr /\
    left_pairs b tl = a_run os [].
Proof.
  intros Hlen. destruct (run_ops_spec os empty Leaf Leaf empty_bimap_inv) as (b & tl & tr & H);
    [simpl; lia|]. by exists b, tl, tr.
Qed.

End BimapSpec.

(** ** Concrete runs

    A client program on [Z] and [string] keys: two inserts, a rejected
    one, [at_left_or_default(9)] that takes the empty string over from 2,
    and [erase_right("a")]; the abstract program gives its content. *)
Definition ex_prog : list (op (Left := Z) (Right := string)) :=
  [Insert 1%Z "a"; Insert 2%Z EmptyString; Insert 3%Z "a"; AtLeftOrDefault 9%Z;
   EraseRight "a"%string].

Lemma client_run_refines_witness :
  exists b tl tr, run_ops ex_prog empty = Some (tt, b) /\ bimap_inv b tl tr /\
    left_pairs b tl = [(9%Z, EmptyString)].
Proof.
  destruct (client_run_refines ex_prog) as (b & tl & tr & Hrun & Hinv & Hc);
    [vm_compute; reflexivity|].
  exists b, tl, tr. split_and!; [exact Hrun|exact Hinv|]. rewrite Hc. vm_compute. reflexivity.
Defined.

Lemma run_op_refines_witness :
  (exists b' tl' tr', run_op (Insert 3%Z "c"%string) ex_bimap = Some (tt, b') /\
     bimap_inv b' tl' tr' /\
     left_pairs b' tl' = [(1%Z, "a"%string); (2%Z, "b"%string); (3%Z, "c"%string);
                          (5%Z, "e"%string); (8%Z, "h"%string)]) /\
  at_left ex_bimap 5%Z = Some (inr "e"%string).
Proof.
  destruct (run_op_refines (Insert 3%Z "c"%string) ex_bimap ex_ltree ex_rtree ex_bimap_inv)
    as [(b' & tl' & tr' & Hrun & Hinv' & Hc) [Hat _]]; [intros _; vm_compute; reflexivity|].
  split.
  - exists b', tl', tr'. split_and!; [exact Hrun|exact Hinv'|]. rewrite Hc. vm_compute. reflexivity.
  - rewrite Hat. vm_compute. reflexivity.
Defined.
